(** * Mini search engine: trie + hash index + occurrence lists

    A shallow embedding of [searchEngine.c] and [searchCLI.c].

    Conventions of the embedding:
    - a C string is the list of its characters before the terminating NUL;
    - [int] values are [Z]; the counters of the index only ever grow by
      one per token and are kept unbounded, whereas the [int] arrays of
      [search_multi], which add up whole frequencies, are kept in 32-bit
      two's complement ([int_wrap]);
    - [unsigned long] arithmetic in [hash_func] wraps modulo [2^64];
    - trie nodes live in an arena ([heap]): a [TrieNode *] is the index of
      the node in the arena, [NULL] is [None], and [calloc] appends a
      zeroed node at the end of the arena.  The hash table stores such
      pointers, so the trie and the hash table alias the same nodes;
    - functions that print are modelled by the value they print;
    - a file, and the standard input, is the list of its bytes. *)

From stdpp Require Import base list strings sorting.
From Stdlib Require Import ZArith Ascii Lia Permutation Sorted.

Local Open Scope Z_scope.

(** ** Data structures *)

Abbreviation cstring := (list ascii).
Abbreviation ptr := nat.

Definition ALPHABET_SIZE : Z := 26.
Definition HASH_SIZE : Z := 1000.
Definition MAX_WORD_LEN : nat := 100.

Record DocNode := mkDocNode {
  doc_id : Z;
  frequency : Z
}.

Record TrieNode := mkTrieNode {
  children : list (option ptr);
  is_end : bool;
  doc_list : list DocNode;
  total_freq : Z
}.

Record HashEntry := mkHashEntry {
  word : cstring;
  trie_node : ptr
}.

Record Document := mkDocument {
  id : Z;
  filename : cstring;
  word_count : Z
}.

Record SearchEngine := mkSearchEngine {
  heap : list TrieNode;
  trie_root : ptr;
  hash_table : list (list HashEntry);
  documents : list Document;
  doc_count : Z
}.

(** ** Utility functions *)

(** The value of a [char] as an [int] ([char] is signed, as on x86-64). *)
Definition char_to_int (c : ascii) : Z :=
  let n := Z.of_nat (nat_of_ascii c) in
  if n <? 128 then n else n - 256.

Definition ULONG_RANGE : Z := 2 ^ 64.

(** djb2: [hash = ((hash << 5) + hash) + c], then [hash % HASH_SIZE]. *)
Definition hash_step (hash : Z) (c : ascii) : Z :=
  (((Z.shiftl hash 5 mod ULONG_RANGE) + hash) mod ULONG_RANGE
     + char_to_int c) mod ULONG_RANGE.

Definition hash_func (str : cstring) : Z :=
  fold_left hash_step str 5381 mod HASH_SIZE.

(** [isalpha] and [tolower] in the "C" locale. *)
Definition isalpha (c : ascii) : bool :=
  let n := char_to_int c in
  ((65 <=? n) && (n <=? 90)) || ((97 <=? n) && (n <=? 122)).

Definition tolower (c : ascii) : ascii :=
  let n := char_to_int c in
  if (65 <=? n) && (n <=? 90) then ascii_of_nat (Z.to_nat (n + 32)) else c.

Fixpoint normalize_word (w : cstring) : cstring :=
  match w with
  | [] => []
  | c :: src =>
      if isalpha c then tolower c :: normalize_word src
      else normalize_word src
  end.

(** ** Trie operations *)

Definition create_trie_node : TrieNode :=
  {| children := replicate (Z.to_nat ALPHABET_SIZE) None;
     is_end := false;
     doc_list := [];
     total_freq := 0 |}.

(** The scan of [add_doc_occurrence]: [Some] of the updated list when the
    document is already there, [None] when the scan falls off the end. *)
Fixpoint incr_occurrence (curr : list DocNode) (d : Z) : option (list DocNode) :=
  match curr with
  | [] => None
  | n :: next =>
      if doc_id n =? d
      then Some ({| doc_id := doc_id n; frequency := frequency n + 1 |} :: next)
      else cons n <$> incr_occurrence next d
  end.

Definition add_doc_occurrence (node : TrieNode) (d : Z) : TrieNode :=
  match incr_occurrence (doc_list node) d with
  | Some l =>
      {| children := children node; is_end := is_end node;
         doc_list := l; total_freq := total_freq node + 1 |}
  | None =>
      {| children := children node; is_end := is_end node;
         doc_list := {| doc_id := d; frequency := 1 |} :: doc_list node;
         total_freq := total_freq node + 1 |}
  end.

(** [curr->children[idx]] for an index already checked to be in range. *)
Definition child (h : list TrieNode) (curr : ptr) (idx : Z) : option ptr :=
  nd ← h !! curr; mjoin (children nd !! Z.to_nat idx).

Definition set_child (idx : Z) (q : ptr) (nd : TrieNode) : TrieNode :=
  {| children := <[Z.to_nat idx := Some q]> (children nd);
     is_end := is_end nd; doc_list := doc_list nd;
     total_freq := total_freq nd |}.

Definition set_is_end (nd : TrieNode) : TrieNode :=
  {| children := children nd; is_end := true;
     doc_list := doc_list nd; total_freq := total_freq nd |}.

(** The [for] loop of [trie_insert]: walks and extends the path of [w]. *)
Fixpoint trie_insert_loop (h : list TrieNode) (curr : ptr) (w : cstring)
  : list TrieNode * ptr :=
  match w with
  | [] => (h, curr)
  | c :: rest =>
      let idx := char_to_int c - 97 in
      if (idx <? 0) || (idx >=? ALPHABET_SIZE) then trie_insert_loop h curr rest
      else
        match child h curr idx with
        | Some q => trie_insert_loop h q rest
        | None =>
            let q := length h in
            let h' := alter (set_child idx q) curr (h ++ [create_trie_node]) in
            trie_insert_loop h' q rest
        end
  end.

Definition trie_insert (h : list TrieNode) (root : ptr) (w : cstring) (d : Z)
  : list TrieNode * ptr :=
  let '(h1, curr) := trie_insert_loop h root w in
  (alter (fun nd => add_doc_occurrence (set_is_end nd) d) curr h1, curr).

(** The descent shared by [trie_search], [trie_prefix_search] and
    [output_prefix_result]: [None] as soon as a character is not a
    lowercase letter or has no child. *)
Fixpoint trie_descend (h : list TrieNode) (curr : ptr) (w : cstring) : option ptr :=
  match w with
  | [] => Some curr
  | c :: rest =>
      let idx := char_to_int c - 97 in
      if (idx <? 0) || (idx >=? ALPHABET_SIZE) then None
      else
        match child h curr idx with
        | None => None
        | Some q => trie_descend h q rest
        end
  end.

Definition trie_search (h : list TrieNode) (root : ptr) (w : cstring) : option ptr :=
  curr ← trie_descend h root w;
  nd ← h !! curr;
  if is_end nd then Some curr else None.

(** ** Hash table operations *)

(** The chain scan of [hash_insert] and [hash_search]; [strcmp(..) == 0]
    is equality of the two strings. *)
Fixpoint bucket_search (curr : list HashEntry) (w : cstring) : option ptr :=
  match curr with
  | [] => None
  | entry :: next =>
      if decide (word entry = w) then Some (trie_node entry)
      else bucket_search next w
  end.

Definition set_hash_table (e : SearchEngine) (t : list (list HashEntry)) : SearchEngine :=
  {| heap := heap e; trie_root := trie_root e; hash_table := t;
     documents := documents e; doc_count := doc_count e |}.

Definition set_heap (e : SearchEngine) (h : list TrieNode) : SearchEngine :=
  {| heap := h; trie_root := trie_root e; hash_table := hash_table e;
     documents := documents e; doc_count := doc_count e |}.

Definition set_documents (e : SearchEngine) (ds : list Document) : SearchEngine :=
  {| heap := heap e; trie_root := trie_root e; hash_table := hash_table e;
     documents := ds; doc_count := doc_count e |}.

(** [engine->hash_table[idx]], a chain of entries. *)
Definition bucket (e : SearchEngine) (idx : Z) : list HashEntry :=
  default [] (hash_table e !! Z.to_nat idx).

Definition hash_insert (e : SearchEngine) (w : cstring) (node : ptr) : SearchEngine :=
  let idx := hash_func w in
  match bucket_search (bucket e idx) w with
  | Some _ => e
  | None =>
      let entry := {| word := w; trie_node := node |} in
      set_hash_table e (<[Z.to_nat idx := entry :: bucket e idx]> (hash_table e))
  end.

Definition hash_search (e : SearchEngine) (w : cstring) : option ptr :=
  bucket_search (bucket e (hash_func w)) w.

(** ** Search engine operations *)

Definition create_search_engine : SearchEngine :=
  {| heap := [create_trie_node];
     trie_root := 0%nat;
     hash_table := replicate (Z.to_nat HASH_SIZE) [];
     documents := [];
     doc_count := 0 |}.

Definition add_document (e : SearchEngine) (name : cstring) : SearchEngine :=
  {| heap := heap e; trie_root := trie_root e; hash_table := hash_table e;
     documents :=
       {| id := doc_count e; filename := name; word_count := 0 |} :: documents e;
     doc_count := doc_count e + 1 |}.

(** The scan of [get_document] along the [next] pointers. *)
Fixpoint get_document_in (curr : list Document) (d : Z) : option Document :=
  match curr with
  | [] => None
  | doc :: next => if id doc =? d then Some doc else get_document_in next d
  end.

Definition get_document (e : SearchEngine) (d : Z) : option Document :=
  get_document_in (documents e) d.

(** [strncpy(normalized, word, MAX_WORD_LEN - 1)] followed by
    [normalized[MAX_WORD_LEN - 1] = '\0']: the token cut to 99 bytes. *)
Definition index_word (e : SearchEngine) (w : cstring) (d : Z) : SearchEngine :=
  let normalized := normalize_word (take (MAX_WORD_LEN - 1) w) in
  if (length normalized <? 2)%nat then e
  else
    let '(h, node) := trie_insert (heap e) (trie_root e) normalized d in
    hash_insert (set_heap e h) normalized node.

(** *** Tokenization with [strtok] *)

Definition is_delim (c : ascii) : bool :=
  bool_decide (c ∈ [" "; "009"; "010"; "013"; "."; ","; ";"; ":"; "!"; "?";
                    "034"; "'"; "("; ")"; "["; "]"; "{"; "}"]%char).

Fixpoint skip_delims (s : cstring) : cstring :=
  match s with
  | c :: r => if is_delim c then skip_delims r else s
  | [] => []
  end.

(** Splits at the first delimiter: the token, and what follows it. *)
Fixpoint span_token (s : cstring) : cstring * cstring :=
  match s with
  | [] => ([], [])
  | c :: r =>
      if is_delim c then ([], r)
      else let '(tok, save) := span_token r in (c :: tok, save)
  end.

(** One call of [strtok] on the saved position [s]: [None] for [NULL],
    otherwise the token and the new saved position. *)
Definition strtok (s : cstring) : option (cstring * cstring) :=
  match skip_delims s with
  | [] => None
  | s1 => Some (span_token s1)
  end.

(** The successive [strtok] calls of the [while (token)] loop, up to the
    first [NULL]; [fuel] bounds the number of calls, and one more than the
    length of the text is always enough. *)
Fixpoint strtok_loop (fuel : nat) (s : cstring) : list cstring :=
  match fuel with
  | O => []
  | S fuel' =>
      match strtok s with
      | None => []
      | Some (token, save) => token :: strtok_loop fuel' save
      end
  end.

Definition tokenize (text : cstring) : list cstring :=
  strtok_loop (S (length text)) text.

Definition set_word_count (doc : Document) (n : Z) : Document :=
  {| id := id doc; filename := filename doc; word_count := n |}.

(** [doc->word_count = word_count] on the first document with this id. *)
Fixpoint update_word_count (curr : list Document) (d n : Z) : list Document :=
  match curr with
  | [] => []
  | doc :: next =>
      if id doc =? d then set_word_count doc n :: next
      else doc :: update_word_count next d n
  end.

(** The body of the [while (token)] loop of [index_text], run on each
    token in turn: [index_word], then [word_count++]. *)
Definition index_tokens (e : SearchEngine) (tokens : list cstring) (d : Z)
  : SearchEngine * Z :=
  fold_left (fun '(e, word_count) token => (index_word e token d, word_count + 1))
            tokens (e, 0).

Definition index_text (e : SearchEngine) (name text : cstring) : SearchEngine * Z :=
  let e1 := add_document e name in
  let d := doc_count e1 - 1 in
  let '(e2, word_count) := index_tokens e1 (tokenize text) d in
  (set_documents e2 (update_word_count (documents e2) d word_count), d).

(** ** Search functions *)

(** [strncpy(normalized, word, MAX_WORD_LEN - 1)] with no terminator
    written afterwards, as in every query function: the buffer holds the
    word as a C string only when the word is shorter than 99 bytes.  For a
    word of 99 bytes or more [normalized[99]] is never initialised and the
    scan of [normalize_word] runs on past the copied bytes; such a query
    has no defined result, which is [None] here. *)
Definition query_buffer (w : cstring) : option cstring :=
  if (length w <? MAX_WORD_LEN - 1)%nat then Some w else None.

Definition normalize_query (w : cstring) : option cstring :=
  normalize_word <$> query_buffer w.

Definition cstr (s : string) : cstring := String.list_ascii_of_string s.

(** *** Word frequency and keyword search (searchCLI.c) *)

Record FreqResult := mkFreqResult {
  freq_word : cstring;
  freq_found : bool;
  freq_total : Z;
  freq_documents : list (Z * cstring * Z)   (* doc_id, filename, frequency *)
}.

Definition doc_filename (doc_info : option Document) (unknown : cstring) : cstring :=
  match doc_info with
  | Some d => filename d
  | None => unknown
  end.

Definition output_freq_result (e : SearchEngine) (w : cstring) : option FreqResult :=
  normalized ← normalize_query w;
  match hash_search e normalized with
  | None =>
      Some {| freq_word := normalized; freq_found := false;
              freq_total := 0; freq_documents := [] |}
  | Some node =>
      nd ← heap e !! node;
      Some {| freq_word := normalized; freq_found := true;
              freq_total := total_freq nd;
              freq_documents :=
                map (fun doc =>
                       (doc_id doc,
                        doc_filename (get_document e (doc_id doc)) (cstr "unknown"),
                        frequency doc))
                    (doc_list nd) |}
  end.

Record SearchResult := mkSearchResult {
  search_keyword_word : cstring;
  search_found : bool;
  search_total : option Z;   (* the not-found output has no total_freq *)
  search_results : list (Z * cstring * Z * Z)  (* doc_id, filename, frequency, word_count *)
}.

Definition output_search_result (e : SearchEngine) (w : cstring) : option SearchResult :=
  normalized ← normalize_query w;
  match hash_search e normalized with
  | None =>
      Some {| search_keyword_word := normalized; search_found := false;
              search_total := None; search_results := [] |}
  | Some node =>
      nd ← heap e !! node;
      Some {| search_keyword_word := normalized; search_found := true;
              search_total := Some (total_freq nd);
              search_results :=
                map (fun doc =>
                       let doc_info := get_document e (doc_id doc) in
                       (doc_id doc, doc_filename doc_info (cstr "unknown"),
                        frequency doc,
                        match doc_info with Some d => word_count d | None => 0 end))
                    (doc_list nd) |}
  end.

(** *** Word frequency statistics (searchEngine.c) *)

(** The term frequency printed by [show_word_frequency] is a [float]
    quotient; the model keeps the two operands of the division. *)
Inductive TermFrequency :=
  | TF_quotient (freq count : Z)   (* (float)frequency / word_count *)
  | TF_zero                        (* no document record: 0 *)
  | TF_division_by_zero.           (* word_count == 0 reached the division *)

Definition term_frequency (doc_info : option Document) (freq : Z) : TermFrequency :=
  match doc_info with
  | Some d =>
      if word_count d =? 0 then TF_division_by_zero
      else TF_quotient freq (word_count d)
  | None => TF_zero
  end.

Inductive WordFrequency :=
  | WordNotFound (normalized : cstring)
  | WordStats (normalized : cstring) (total : Z)
              (breakdown : list (cstring * Z * TermFrequency)).

Definition show_word_frequency (e : SearchEngine) (w : cstring) : option WordFrequency :=
  normalized ← normalize_query w;
  match hash_search e normalized with
  | None => Some (WordNotFound normalized)
  | Some node =>
      nd ← heap e !! node;
      Some (WordStats normalized (total_freq nd)
              (map (fun doc =>
                      let doc_info := get_document e (doc_id doc) in
                      (doc_filename doc_info (cstr "Unknown"), frequency doc,
                       term_frequency doc_info (frequency doc)))
                   (doc_list nd)))
  end.

(** *** Multi-keyword AND search (searchEngine.c) *)

(** The largest [int] (32 bits). *)
Definition INT_MAX : Z := 2147483647.

(** The value an [int] holds after a sum: C leaves a signed overflow
    undefined, the compiled code keeps the low 32 bits of the sum in two's
    complement. *)
Definition int_wrap (z : Z) : Z := (z + 2 ^ 31) mod 2 ^ 32 - 2 ^ 31.

(** [arr[i] += by] on a [calloc]ed array of [int]; an index outside the
    array has no defined behaviour. *)
Definition array_add (arr : list Z) (i by_ : Z) : option (list Z) :=
  if (0 <=? i) && (i <? Z.of_nat (length arr))
  then Some (alter (fun x => int_wrap (x + by_)) (Z.to_nat i) arr)
  else None.

(** The inner [while (doc)] loop over one keyword's occurrence list. *)
Fixpoint accumulate (doc : list DocNode) (doc_scores doc_matches : list Z)
  : option (list Z * list Z) :=
  match doc with
  | [] => Some (doc_scores, doc_matches)
  | dn :: next =>
      doc_matches' ← array_add doc_matches (doc_id dn) 1;
      doc_scores' ← array_add doc_scores (doc_id dn) (frequency dn);
      accumulate next doc_scores' doc_matches'
  end.

Inductive MultiResult :=
  | KeywordNotFound (normalized : cstring)          (* early return *)
  | MultiMatches (l : list (cstring * Z * Z)).     (* filename, id, score *)

(** The loop over the keywords: [inl] is the early return. *)
Fixpoint search_multi_loop (e : SearchEngine) (keywords : list cstring)
    (doc_scores doc_matches : list Z) : option (cstring + list Z * list Z) :=
  match keywords with
  | [] => Some (inr (doc_scores, doc_matches))
  | kw :: rest =>
      normalized ← normalize_query kw;
      match hash_search e normalized with
      | None => Some (inl normalized)
      | Some node =>
          nd ← heap e !! node;
          '(doc_scores', doc_matches') ← accumulate (doc_list nd) doc_scores doc_matches;
          search_multi_loop e rest doc_scores' doc_matches'
      end
  end.

(** The display loop: [for (i = 0; i < engine->doc_count; i++)]. *)
Definition display_matches (e : SearchEngine) (count : Z)
    (doc_scores doc_matches : list Z) : list (cstring * Z * Z) :=
  omap (fun i : nat =>
          if decide (doc_matches !! i = Some count)
          then Some (doc_filename (get_document e (Z.of_nat i)) (cstr "Unknown"),
                     Z.of_nat i, default 0 (doc_scores !! i))
          else None)
       (seq 0 (Z.to_nat (doc_count e))).

Definition search_multi (e : SearchEngine) (keywords : list cstring) : option MultiResult :=
  let count := Z.of_nat (length keywords) in
  let zeros := replicate (Z.to_nat (doc_count e)) 0 in
  r ← search_multi_loop e keywords zeros zeros;
  match r with
  | inl normalized => Some (KeywordNotFound normalized)
  | inr (doc_scores, doc_matches) =>
      Some (MultiMatches (display_matches e count doc_scores doc_matches))
  end.

Definition reported_documents (r : MultiResult) : list (cstring * Z * Z) :=
  match r with
  | KeywordNotFound _ => []
  | MultiMatches l => l
  end.

(** *** Prefix search *)

(** ['a' + i] stored into the prefix buffer. *)
Definition letter (i : nat) : ascii := ascii_of_nat (97 + i).

Definition alphabet : list nat := seq 0 (Z.to_nat ALPHABET_SIZE).

(** The recursive traversals below follow child pointers; [fuel] bounds
    the depth of the recursion and [None] means that it ran out (or that
    a pointer left the arena).  The entry points start them with the size
    of the arena as fuel: a child is always allocated after its parent, so
    no branch is longer, and more fuel gives the same result. *)

(** The [for] loop of [trie_prefix_helper] over the child slots [slots]. *)
Fixpoint helper_children (rec : ptr -> cstring -> option (list (cstring * Z)))
    (nd : TrieNode) (prefix : cstring) (slots : list nat)
  : option (list (cstring * Z)) :=
  match slots with
  | [] => Some []
  | i :: slots' =>
      match mjoin (children nd !! i) with
      | None => helper_children rec nd prefix slots'
      | Some q =>
          out ← rec q (prefix ++ [letter i]);
          outs ← helper_children rec nd prefix slots';
          Some (out ++ outs)
      end
  end.

(** [trie_prefix_helper] of searchEngine.c: the printed lines, in order. *)
Fixpoint trie_prefix_helper (fuel : nat) (h : list TrieNode) (node : option ptr)
    (prefix : cstring) : option (list (cstring * Z)) :=
  match node with
  | None => Some []
  | Some p =>
      match fuel with
      | O => None
      | S fuel' =>
          nd ← h !! p;
          outs ← helper_children (fun q => trie_prefix_helper fuel' h (Some q))
                   nd prefix alphabet;
          Some ((if is_end nd then [(prefix, total_freq nd)] else []) ++ outs)
      end
  end.

Inductive PrefixListing :=
  | NoWordsWithPrefix (normalized : cstring)
  | WordsWithPrefix (normalized : cstring) (lines : list (cstring * Z)).

Definition trie_prefix_search (h : list TrieNode) (root : ptr) (prefix : cstring)
  : option PrefixListing :=
  match trie_descend h root prefix with
  | None => Some (NoWordsWithPrefix prefix)
  | Some curr =>
      WordsWithPrefix prefix <$> trie_prefix_helper (length h) h (Some curr) prefix
  end.

Definition search_prefix (e : SearchEngine) (prefix : cstring) : option PrefixListing :=
  normalized ← normalize_query prefix;
  trie_prefix_search (heap e) (trie_root e) normalized.

(** [PrefixResults] of searchCLI.c: [words[i]] and [freqs[i]] for
    [i < count] are the list [entries], and [count] is its length.
    [visited] is a ghost field, absent from the C struct: the nodes whose
    fields the traversal has read, in order. *)
Record PrefixResults := mkPrefixResults {
  entries : list (cstring * Z);
  visited : list ptr
}.

Definition count (results : PrefixResults) : Z := Z.of_nat (length (entries results)).

Definition PREFIX_CAP : Z := 100.

Definition visit_node (p : ptr) (nd : TrieNode) (prefix : cstring)
    (results : PrefixResults) : PrefixResults :=
  {| entries :=
       if is_end nd then entries results ++ [(prefix, total_freq nd)]
       else entries results;
     visited := visited results ++ [p] |}.

(** The [for (i = 0; i < ALPHABET_SIZE && results->count < 100; i++)]
    loop of [collect_prefix_words]. *)
Fixpoint collect_children
    (rec : ptr -> cstring -> PrefixResults -> option PrefixResults)
    (nd : TrieNode) (prefix : cstring) (slots : list nat) (results : PrefixResults)
  : option PrefixResults :=
  match slots with
  | [] => Some results
  | i :: slots' =>
      if count results <? PREFIX_CAP then
        match mjoin (children nd !! i) with
        | None => collect_children rec nd prefix slots' results
        | Some q =>
            results' ← rec q (prefix ++ [letter i]) results;
            collect_children rec nd prefix slots' results'
        end
      else Some results
  end.

Fixpoint collect_prefix_words (fuel : nat) (h : list TrieNode) (node : option ptr)
    (prefix : cstring) (results : PrefixResults) : option PrefixResults :=
  match node with
  | None => Some results
  | Some p =>
      if count results >=? PREFIX_CAP then Some results
      else
        match fuel with
        | O => None
        | S fuel' =>
            nd ← h !! p;
            collect_children (fun q => collect_prefix_words fuel' h (Some q))
              nd prefix alphabet (visit_node p nd prefix results)
        end
  end.

Record PrefixOutput := mkPrefixOutput {
  prefix_normalized : cstring;
  prefix_found : bool;
  prefix_words : list (cstring * Z);
  prefix_visited : list ptr   (* ghost: the trace of the traversal *)
}.

Definition output_prefix_result (e : SearchEngine) (prefix : cstring)
  : option PrefixOutput :=
  normalized ← normalize_query prefix;
  match trie_descend (heap e) (trie_root e) normalized with
  | None =>
      Some {| prefix_normalized := normalized; prefix_found := false;
              prefix_words := []; prefix_visited := [] |}
  | Some curr =>
      results ← collect_prefix_words (length (heap e)) (heap e) (Some curr)
                  normalized {| entries := []; visited := [] |};
      Some {| prefix_normalized := normalized; prefix_found := true;
              prefix_words := entries results;
              prefix_visited := visited results |}
  end.

(** ** The demo of searchEngine.c's [main] as a sanity check *)

Definition doc1 : cstring :=
  cstr "The quick brown fox jumps over the lazy dog. The fox is very quick and clever.".
Definition doc2 : cstring :=
  cstr "Data structures are fundamental to computer science. Linked lists, trees, and hash tables are common structures.".
Definition doc3 : cstring :=
  cstr "The brown bear lives in the forest. Bears are quick when hunting for food.".

Definition demo_engine : SearchEngine :=
  let e := create_search_engine in
  let e := fst (index_text e (cstr "animals.txt") doc1) in
  let e := fst (index_text e (cstr "cs_basics.txt") doc2) in
  fst (index_text e (cstr "wildlife.txt") doc3).

(** ** Keyword search and document listing (searchEngine.c) *)

Inductive KeywordReport :=
  | NoResults (normalized : cstring)
  | KeywordHits (normalized : cstring) (total : Z)
                (hits : list (cstring * Z * Z)).   (* filename, doc_id, frequency *)

Definition search_keyword (e : SearchEngine) (keyword : cstring)
  : option KeywordReport :=
  normalized ← normalize_query keyword;
  match hash_search e normalized with
  | None => Some (NoResults normalized)
  | Some node =>
      nd ← heap e !! node;
      Some (KeywordHits normalized (total_freq nd)
              (map (fun doc =>
                      (doc_filename (get_document e (doc_id doc)) (cstr "Unknown"),
                       doc_id doc, frequency doc))
                   (doc_list nd)))
  end.

(** The lines printed by [list_documents], and the total of its last line. *)
Definition list_documents (e : SearchEngine) : list (Z * cstring * Z) * Z :=
  (map (fun doc => (id doc, filename doc, word_count doc)) (documents e),
   doc_count e).

(** ** Indexing a file (searchEngine.c) *)

Definition NUL : ascii := "000"%char.
Definition newline : ascii := "010"%char.

(** What the string functions see of a buffer: the bytes before the first
    NUL. *)
Fixpoint c_string (buf : list ascii) : cstring :=
  match buf with
  | [] => []
  | c :: rest => if decide (c = NUL) then [] else c :: c_string rest
  end.

(** The bytes that one [fgets] call stores when it has room for [n] of
    them: it stops after a newline, and at the end of the stream.  The
    second component is what is left of the stream. *)
Fixpoint read_line (n : nat) (stream : list ascii) : list ascii * list ascii :=
  match n, stream with
  | S n', c :: rest =>
      if decide (c = newline) then ([c], rest)
      else let '(buf, rest') := read_line n' rest in (c :: buf, rest')
  | _, _ => ([], stream)
  end.

(** [fgets(line, size, stream)]: [None] is the [NULL] returned at the end
    of the stream; otherwise the line as a C string, and the rest of the
    stream. *)
Definition fgets (size : nat) (stream : list ascii)
  : option (cstring * list ascii) :=
  match stream with
  | [] => None
  | _ => let '(buf, rest) := read_line (size - 1) stream in
         Some (c_string buf, rest)
  end.

Definition MAX_LINE_LEN : nat := 1024.

(** The inner [while (token)] loop of [index_document] on the tokens of
    one line; [word_count] runs on from line to line. *)
Definition index_line (e : SearchEngine) (tokens : list cstring) (d word_count : Z)
  : SearchEngine * Z :=
  fold_left (fun '(e, word_count) token => (index_word e token d, word_count + 1))
            tokens (e, word_count).

(** The [while (fgets(..))] loop.  Every successful [fgets] consumes at
    least one byte, so the length of the file bounds the number of
    iterations: when [fuel] is used up the stream is at its end. *)
Fixpoint index_lines (fuel : nat) (e : SearchEngine) (file : list ascii)
    (d word_count : Z) : SearchEngine * Z :=
  match fuel with
  | O => (e, word_count)
  | S fuel' =>
      match fgets MAX_LINE_LEN file with
      | None => (e, word_count)
      | Some (line, file') =>
          let '(e', word_count') := index_line e (tokenize line) d word_count in
          index_lines fuel' e' file' d word_count'
      end
  end.

(** [file] is what [fopen(filename, "r")] finds: [None] when the file
    cannot be opened, otherwise its bytes. *)
Definition index_document (e : SearchEngine) (filename : cstring)
    (file : option (list ascii)) : SearchEngine * Z :=
  match file with
  | None => (e, -1)
  | Some content =>
      let e1 := add_document e filename in
      let d := doc_count e1 - 1 in
      let '(e2, word_count) := index_lines (length content) e1 content d 0 in
      (set_documents e2 (update_word_count (documents e2) d word_count), d)
  end.

(** ** Memory cleanup (searchEngine.c) *)

(** The [for] loop of [free_trie] over the child slots: [free_trie] is
    called on every slot, [NULL] or not. *)
Fixpoint free_children (rec : option ptr -> option (list ptr))
    (nd : TrieNode) (slots : list nat) : option (list ptr) :=
  match slots with
  | [] => Some []
  | i :: slots' =>
      freed ← rec (mjoin (children nd !! i));
      rest ← free_children rec nd slots';
      Some (freed ++ rest)
  end.

(** [free_trie]: the trie nodes passed to [free], in the order of the
    calls.  Each node is freed after its subtrees, together with its own
    occurrence list ([free_doc_list]). *)
Fixpoint free_trie (fuel : nat) (h : list TrieNode) (node : option ptr)
  : option (list ptr) :=
  match node with
  | None => Some []
  | Some p =>
      match fuel with
      | O => None
      | S fuel' =>
          nd ← h !! p;
          freed ← free_children (free_trie fuel' h) nd alphabet;
          Some (freed ++ [p])
      end
  end.

Record Freed := mkFreed {
  freed_nodes : list ptr;
  freed_entries : list HashEntry;
  freed_documents : list Document
}.

Definition free_search_engine (e : SearchEngine) : option Freed :=
  nodes ← free_trie (length (heap e)) (heap e) (Some (trie_root e));
  Some {| freed_nodes := nodes;
          freed_entries :=
            concat (map (fun i : nat => bucket e (Z.of_nat i))
                        (seq 0 (Z.to_nat HASH_SIZE)));
          freed_documents := documents e |}.

(** ** JSON output (searchCLI.c) *)

Definition needs_escape (c : ascii) : bool :=
  bool_decide (c = "034"%char) || bool_decide (c = "\"%char).

(** The loop of [json_escape] from output position [j] on: the bytes it
    stores.  It stops at the end of [str] or when [j >= max_len - 2]. *)
Fixpoint json_escape_loop (str : cstring) (j max_len : Z) : cstring :=
  match str with
  | [] => []
  | c :: rest =>
      if j <? max_len - 2 then
        if needs_escape c
        then "\"%char :: c :: json_escape_loop rest (j + 2) max_len
        else c :: json_escape_loop rest (j + 1) max_len
      else []
  end.

(** The C string left in [out]; its terminator is stored right after. *)
Definition json_escape (str : cstring) (max_len : Z) : cstring :=
  json_escape_loop str 0 max_len.

Record IndexResult := mkIndexResult {
  index_doc_id : Z;
  index_filename : cstring;
  index_word_count : Z
}.

Definition output_index_result (e : SearchEngine) (d : Z) : IndexResult :=
  let doc := get_document e d in
  {| index_doc_id := d;
     index_filename := doc_filename doc (cstr "unknown");
     index_word_count := match doc with Some x => word_count x | None => 0 end |}.

(** ** The command line of searchCLI.c *)

Module searchCLI.

Definition MAX_LINE_LEN : nat := 4096.
Definition MAX_TEXT_LEN : Z := 65536.

Definition strlen (s : cstring) : Z := Z.of_nat (length s).

(** [strncat(dest, src, n)]: at most [n] characters of [src] are appended. *)
Definition strncat (dest src : cstring) (n : Z) : cstring :=
  dest ++ take (Z.to_nat n) src.

(** [strcat(text, src)] into [char text[MAX_TEXT_LEN]]: defined when the
    result and its terminator fit. *)
Definition strcat (text src : cstring) : option cstring :=
  if strlen text + strlen src <? MAX_TEXT_LEN
  then Some (text ++ src) else None.

(** The loop [for (i = 3; i < argc; i++)] that joins the remaining
    arguments with spaces; [args] are [argv[i]], [argv[i+1]], ... *)
Fixpoint join_args (text : cstring) (i : nat) (args : list cstring)
  : option cstring :=
  match args with
  | [] => Some text
  | arg :: rest =>
      text1 ← (if (3 <? i)%nat then strcat text (cstr " ") else Some text);
      join_args (strncat text1 arg (MAX_TEXT_LEN - strlen text1 - 1)) (S i) rest
  end.

(** The loop [while (fgets(line, MAX_LINE_LEN, stdin)) strncat(..)]. *)
Fixpoint read_stdin (fuel : nat) (all_text : cstring) (stdin : list ascii)
  : cstring :=
  match fuel with
  | O => all_text
  | S fuel' =>
      match fgets MAX_LINE_LEN stdin with
      | None => all_text
      | Some (line, stdin') =>
          read_stdin fuel'
            (strncat all_text line (MAX_TEXT_LEN - strlen all_text - 1)) stdin'
      end
  end.

Inductive Output :=
  | UsageError
  | UnknownCommand (cmd : cstring)
  | IndexOutput (r : IndexResult)
  | FreqOutput (r : FreqResult)
  | SearchOutput (r : SearchResult)
  | PrefixWords (r : PrefixOutput).

(** [main]: what is printed, and the exit status.  [argv] starts with the
    program name. *)
Definition main (argv : list cstring) (stdin : list ascii) : option (Output * Z) :=
  let argc := length argv in
  if (argc <? 3)%nat then Some (UsageError, 1)
  else
    let g_engine := create_search_engine in
    cmd ← argv !! 1%nat;
    arg ← argv !! 2%nat;
    if bool_decide (cmd = cstr "index_text") && (4 <=? argc)%nat then
      text ← join_args [] 3 (drop 3 argv);
      let '(e, doc_id) := index_text g_engine arg text in
      Some (IndexOutput (output_index_result e doc_id), 0)
    else if bool_decide (cmd = cstr "freq") then
      let all_text := read_stdin (length stdin) [] stdin in
      let e := (index_text g_engine (cstr "uploaded_doc") all_text).1 in
      r ← output_freq_result e arg;
      Some (FreqOutput r, 0)
    else if bool_decide (cmd = cstr "search") then
      let all_text := read_stdin (length stdin) [] stdin in
      let e := (index_text g_engine (cstr "uploaded_doc") all_text).1 in
      r ← output_search_result e arg;
      Some (SearchOutput r, 0)
    else if bool_decide (cmd = cstr "prefix") then
      let all_text := read_stdin (length stdin) [] stdin in
      let e := (index_text g_engine (cstr "uploaded_doc") all_text).1 in
      r ← output_prefix_result e arg;
      Some (PrefixWords r, 0)
    else Some (UnknownCommand cmd, 1).

End searchCLI.

(** * Specification vocabulary *)

(** ** Characters *)

Definition is_lower (c : ascii) : bool :=
  (97 <=? char_to_int c) && (char_to_int c <=? 122).

(** ** Shape of the hash table *)

Definition table_ok (e : SearchEngine) : Prop :=
  length (hash_table e) = Z.to_nat HASH_SIZE.

(** ** The arena as a tree *)

Definition slot (c : ascii) : nat := Z.to_nat (char_to_int c - 97).

Definition edge (h : list TrieNode) (p : ptr) (i : nat) (q : ptr) : Prop :=
  exists nd, h !! p = Some nd /\ children nd !! i = Some (Some q).

(** [L !! p] is the word spelled by the path from the root to node [p]. *)
Record trie_wf (h : list TrieNode) (L : list cstring) : Prop := mk_trie_wf {
  wf_length : length L = length h;
  wf_root : L !! 0%nat = Some [];
  wf_nodup : NoDup L;
  wf_slots : forall p nd, h !! p = Some nd ->
             length (children nd) = Z.to_nat ALPHABET_SIZE;
  wf_child : forall p i q, edge h p i q ->
             (p < q)%nat /\
             exists lp, L !! p = Some lp /\ L !! q = Some (lp ++ [letter i]);
  wf_parent : forall q l c, L !! q = Some (l ++ [c]) ->
              exists p i, L !! p = Some l /\ edge h p i q /\ c = letter i
}.

Definition same_data (nd nd' : TrieNode) : Prop :=
  is_end nd' = is_end nd /\ doc_list nd' = doc_list nd
  /\ total_freq nd' = total_freq nd.

Definition heap_extends (h h' : list TrieNode) : Prop :=
  (length h <= length h')%nat
  /\ (forall p nd, h !! p = Some nd -> exists nd', h' !! p = Some nd' /\ same_data nd nd')
  /\ (forall p nd', (length h <= p)%nat -> h' !! p = Some nd' ->
        same_data create_trie_node nd').

(** ** The indexed corpus *)

(** One indexed document: its name, the value of its [word_count] field
    and the words inserted for it, in insertion order. *)
Record ADoc := mkADoc {
  a_name : cstring;
  a_count : Z;
  a_words : list cstring
}.

(** Number of occurrences of [w] among the words [ws]. *)
Definition occ (w : cstring) (ws : list cstring) : Z :=
  Z.of_nat (length (filter (fun x => x = w) ws)).

(** The corpus is kept most recent document first, like [engine->documents];
    the identifier of a document is the number of older documents. *)
Fixpoint occurrences (w : cstring) (adocs : list ADoc) : list DocNode :=
  match adocs with
  | [] => []
  | d :: older =>
      (if 0 <? occ w (a_words d)
       then [ {| doc_id := Z.of_nat (length older);
                 frequency := occ w (a_words d) |} ]
       else [])
      ++ occurrences w older
  end.

Fixpoint total (w : cstring) (adocs : list ADoc) : Z :=
  match adocs with
  | [] => 0
  | d :: older => occ w (a_words d) + total w older
  end.

Definition indexed (w : cstring) (adocs : list ADoc) : Prop :=
  exists d, d ∈ adocs /\ w ∈ a_words d.

Fixpoint documents_of (adocs : list ADoc) : list Document :=
  match adocs with
  | [] => []
  | d :: older =>
      {| id := Z.of_nat (length older); filename := a_name d;
         word_count := a_count d |} :: documents_of older
  end.

Definition word_ok (w : cstring) : Prop :=
  Forall (fun c => is_lower c = true) w /\ (2 <= length w)%nat.

Record engine_inv (e : SearchEngine) (L : list cstring) (adocs : list ADoc)
  : Prop := mk_engine_inv {
  inv_wf : trie_wf (heap e) L;
  inv_root : trie_root e = 0%nat;
  inv_table : table_ok e;
  inv_count : doc_count e = Z.of_nat (length adocs);
  inv_documents : documents e = documents_of adocs;
  inv_words : Forall (fun d => Forall word_ok (a_words d)) adocs;
  inv_node : forall q w nd, L !! q = Some w -> heap e !! q = Some nd ->
             doc_list nd = occurrences w adocs
             /\ total_freq nd = total w adocs
             /\ (is_end nd = true <-> indexed w adocs);
  inv_hash_sound : forall w q, hash_search e w = Some q ->
                   L !! q = Some w /\ indexed w adocs;
  inv_hash_complete : forall w, indexed w adocs -> is_Some (hash_search e w)
}.

(** ** Growing the corpus *)

Definition add_word (d : ADoc) (n : cstring) : ADoc :=
  {| a_name := a_name d; a_count := a_count d; a_words := a_words d ++ [n] |}.

(** The words that [index_word] inserts for a token, if any. *)
Definition indexed_form (token : cstring) : option cstring :=
  let normalized := normalize_word (take (MAX_WORD_LEN - 1) token) in
  if (length normalized <? 2)%nat then None else Some normalized.

Definition add_token (d : ADoc) (token : cstring) : ADoc :=
  match indexed_form token with
  | Some n => add_word d n
  | None => d
  end.

Definition set_count (d : ADoc) (n : Z) : ADoc :=
  {| a_name := a_name d; a_count := n; a_words := a_words d |}.

(** What [index_text name text] adds to the corpus. *)
Definition adoc_of (name text : cstring) : ADoc :=
  {| a_name := name;
     a_count := Z.of_nat (length (tokenize text));
     a_words := omap indexed_form (tokenize text) |}.

(** ** Reachable engine states *)

(** The states a session can observe: a fresh engine, then any number of
    [index_text] calls (queries do not modify the engine). *)
Inductive reachable : SearchEngine -> Prop :=
  | reachable_create : reachable create_search_engine
  | reachable_index e name text :
      reachable e -> reachable (index_text e name text).1.

(** Every token is counted, whether or not its normal form is indexed. *)
Definition counts_ok (adocs : list ADoc) : Prop :=
  Forall (fun d => Z.of_nat (length (a_words d)) <= a_count d) adocs.

(** ** Frequency accounting *)

Definition sum_frequencies (l : list DocNode) : Z :=
  foldr (fun dn acc => frequency dn + acc) 0 l.

Definition node_freq_ok (nd : TrieNode) : Prop :=
  total_freq nd = sum_frequencies (doc_list nd).

Definition freq_invariant (e : SearchEngine) : Prop :=
  Forall node_freq_ok (heap e).

(** The sum of the frequencies listed in a word-frequency report. *)
Definition reported_sum (docs : list (Z * cstring * Z)) : Z :=
  foldr (fun entry acc => entry.2 + acc) 0 docs.

(** ** Engines built from documents *)

(** A one-document engine on which the theorems are instantiated. *)
Definition small_engine : SearchEngine :=
  (index_text create_search_engine (cstr "d0") (cstr "ab cd ab, x")).1.

(** A word of 99 letters, the longest that [index_word] keeps whole, the
    engine after indexing it, and a query of 99 bytes whose only letter is
    its first byte. *)
Definition long_word : cstring := replicate 99 "a"%char.

Definition long_engine : SearchEngine :=
  (index_text create_search_engine (cstr "d0") long_word).1.

Definition long_prefix : cstring := "a"%char :: replicate 98 "-"%char.

(** The engine after indexing the given (name, text) pairs, listed most
    recent first. *)
Fixpoint engine_of (inputs : list (cstring * cstring)) : SearchEngine :=
  match inputs with
  | [] => create_search_engine
  | (name, text) :: older => (index_text (engine_of older) name text).1
  end.

Definition corpus (inputs : list (cstring * cstring)) : list ADoc :=
  map (fun '(name, text) => adoc_of name text) inputs.

(** [w] is the form under which some token of some document was indexed. *)
Definition was_indexed (w : cstring) (inputs : list (cstring * cstring)) : Prop :=
  exists name text token,
    (name, text) ∈ inputs /\ token ∈ tokenize text /\ indexed_form token = Some w.

(** ** Tokens that are indexed *)

Definition is_indexable (token : cstring) : bool :=
  negb (length (normalize_word (take (MAX_WORD_LEN - 1) token)) <? 2)%nat.

(** ** Comparing word statistics *)



(** ** Vocabulary of the multi-keyword search *)

(** How often, and with which summed frequency, document [d] occurs in an
    occurrence list. *)
Definition entry_count (l : list DocNode) (d : Z) : Z :=
  foldr (fun dn acc => (if doc_id dn =? d then 1 else 0) + acc) 0 l.

Definition entry_frequency (l : list DocNode) (d : Z) : Z :=
  foldr (fun dn acc => (if doc_id dn =? d then frequency dn else 0) + acc) 0 l.

(** An array of [n] cells holding the values of [f]. *)
Definition holds (n : nat) (arr : list Z) (f : nat -> Z) : Prop :=
  length arr = n /\ forall i, (i < n)%nat -> arr !! i = Some (f i).

(** The occurrence list that a keyword contributes, if the keyword is a
    word of the lookup index. *)
Definition keyword_docs (e : SearchEngine) (kw : cstring) : option (list DocNode) :=
  normalized ← normalize_query kw;
  node ← hash_search e normalized;
  nd ← heap e !! node;
  Some (doc_list nd).

Definition known (e : SearchEngine) (kw : cstring) : Prop :=
  exists normalized node,
    normalize_query kw = Some normalized /\ hash_search e normalized = Some node.

Definition docs_of_keyword (e : SearchEngine) (kw : cstring) : list DocNode :=
  default [] (keyword_docs e kw).

Definition total_over (keywords : list cstring) (f : cstring -> Z) : Z :=
  foldr (fun kw acc => f kw + acc) 0 keywords.

(** ** Vocabulary of the prefix search *)

(** Dictionary order on words: a proper prefix comes first, otherwise the
    first differing character decides. *)
Fixpoint lex_lt (a b : cstring) : Prop :=
  match a, b with
  | _, [] => False
  | [], _ :: _ => True
  | x :: a', y :: b' =>
      char_to_int x < char_to_int y \/ (x = y /\ lex_lt a' b')
  end.

(** [w] is a word of the trie, with total frequency [f]. *)
Definition terminal_word (h : list TrieNode) (L : list cstring)
    (w : cstring) (f : Z) : Prop :=
  exists q nd, L !! q = Some w /\ h !! q = Some nd
               /\ is_end nd = true /\ f = total_freq nd.

(** [out] lists, in dictionary order, the words of the trie that start
    with [lp]. *)
Definition listing (h : list TrieNode) (L : list cstring) (lp : cstring)
    (out : list (cstring * Z)) : Prop :=
  StronglySorted lex_lt (map fst out)
  /\ forall w f, (w, f) ∈ out <-> terminal_word h L w f /\ lp `prefix_of` w.

Definition cap : nat := Z.to_nat PREFIX_CAP.

(** What the traversal appends to the results when it visits [q]. *)
Definition emit (h : list TrieNode) (L : list cstring) (q : ptr)
  : option (cstring * Z) :=
  nd ← h !! q; w ← L !! q;
  if is_end nd then Some (w, total_freq nd) else None.

(** [res'] extends [res] by the visits [vs]: every visited terminal node
    adds its word, nothing else is added, nothing is visited once the cap
    is reached, and the visit that reaches the cap is the last one. *)
Definition traced (h : list TrieNode) (L : list cstring)
    (res res' : PrefixResults) : Prop :=
  exists vs,
    visited res' = visited res ++ vs
    /\ entries res' = entries res ++ omap (emit h L) vs
    /\ ((cap <= length (entries res))%nat -> vs = [])
    /\ ((length (entries res) < cap)%nat -> (cap <= length (entries res'))%nat ->
        exists vs0 q, vs = vs0 ++ [q] /\ is_Some (emit h L q)).

Definition is_terminal (h : list TrieNode) (q : ptr) : bool :=
  match h !! q with
  | Some nd => is_end nd
  | None => false
  end.

(** ** The one-document scenario *)

Definition one_document : SearchEngine :=
  (index_text create_search_engine (cstr "doc1") doc1).1.

(** ** Tokenization *)

(** The text without its separators. *)
Definition strip_delims (s : cstring) : cstring :=
  List.filter (fun c => negb (is_delim c)) s.

(** ** Counting a word in the indexed texts *)

(** Number of tokens of [text] that are indexed under the word [w]. *)
Definition word_hits (w text : cstring) : Z :=
  occ w (omap indexed_form (tokenize text)).

Fixpoint total_hits (w : cstring) (inputs : list (cstring * cstring)) : Z :=
  match inputs with
  | [] => 0
  | (_, text) :: older => word_hits w text + total_hits w older
  end.

(** The documents in which [w] occurs, most recent first: identifier,
    name, number of occurrences of [w], number of tokens. *)
Fixpoint expected_results (w : cstring) (inputs : list (cstring * cstring))
  : list (Z * cstring * Z * Z) :=
  match inputs with
  | [] => []
  | (name, text) :: older =>
      (if 0 <? word_hits w text
       then [(Z.of_nat (length older), name, word_hits w text,
              Z.of_nat (length (tokenize text)))]
       else [])
      ++ expected_results w older
  end.

(** One line of the keyword search, for the documents [ds]. *)
Definition search_line (ds : list Document) (doc : DocNode) : Z * cstring * Z * Z :=
  (doc_id doc, doc_filename (get_document_in ds (doc_id doc)) (cstr "unknown"),
   frequency doc,
   match get_document_in ds (doc_id doc) with
   | Some d => word_count d
   | None => 0
   end).

(** ** Branches of the trie *)

(** Every node other than the root lies on the path of a word of the
    trie. *)
Definition live_branches (h : list TrieNode) (L : list cstring) : Prop :=
  forall q l, L !! q = Some l ->
    l = [] \/ exists t s nd, L !! t = Some (l ++ s) /\ h !! t = Some nd
                             /\ is_end nd = true.

Definition trie_shape (e : SearchEngine) (L : list cstring) : Prop :=
  trie_wf (heap e) L /\ trie_root e = 0%nat /\ live_branches (heap e) L.

(** ** Text files *)

(** No run of more than [n] bytes of [s] is free of newlines. *)
Definition short_lines (n : nat) (s : list ascii) : Prop :=
  forall a l b, s = a ++ l ++ b -> newline ∉ l -> (length l <= n)%nat.

(** ** Escaped strings *)

(** The escaped form of one character, and of a whole string. *)
Definition escape_char (c : ascii) : cstring :=
  if needs_escape c then ["\"%char; c] else [c].

Definition escape_all (s : cstring) : cstring := concat (map escape_char s).

(** Reading an escaped string back: a backslash stands for the character
    that follows it. *)
Fixpoint json_unescape (s : cstring) : cstring :=
  match s with
  | [] => []
  | c :: rest =>
      if decide (c = "\"%char) then
        match rest with
        | [] => []
        | c' :: rest' => c' :: json_unescape rest'
        end
      else c :: json_unescape rest
  end.

(** ** Command-line arguments *)

(** The arguments after the first, each preceded by a space. *)
Definition spaced (args : list cstring) : cstring :=
  concat (map (fun arg => " "%char :: arg) args).

(** The command is one that [main] carries out. *)
Definition accepted (argv : list cstring) : Prop :=
  exists cmd, argv !! 1%nat = Some cmd
    /\ ((cmd = cstr "index_text" /\ (4 <= length argv)%nat)
        \/ ((cmd = cstr "freq" \/ cmd = cstr "search" \/ cmd = cstr "prefix")
            /\ (3 <= length argv)%nat)).

(** ** Entries of the hash table *)

(** Every entry sits in the bucket of the hash of its word, and no bucket
    holds two entries for one word. *)
Definition table_sound (t : list (list HashEntry)) : Prop :=
  forall i b, t !! i = Some b ->
    NoDup (map word b)
    /\ Forall (fun entry => Z.to_nat (hash_func (word entry)) = i) b.

(** ** Size of the indexed texts *)

Fixpoint total_length (inputs : list (cstring * cstring)) : nat :=
  match inputs with
  | [] => 0
  | (_, text) :: older => length text + total_length older
  end.

(** The nonempty prefixes of a word. *)
Definition nonempty_prefixes (w : cstring) : list cstring :=
  map (fun k => take (S k) w) (seq 0 (length w)).

(** The nonempty prefixes of all the words indexed for the given texts. *)
Fixpoint indexed_prefixes (inputs : list (cstring * cstring)) : list cstring :=
  match inputs with
  | [] => []
  | (_, text) :: older =>
      concat (map nonempty_prefixes (omap indexed_form (tokenize text)))
      ++ indexed_prefixes older
  end.

(** * Verification *)

#[local] Arguments char_to_int : simpl never.
#[local] Arguments letter : simpl never.
#[local] Arguments hash_func : simpl never.
#[local] Arguments isalpha : simpl never.
#[local] Arguments tolower : simpl never.
#[local] Arguments is_delim : simpl never.
#[local] Arguments tokenize : simpl never.

(** ** Characters and normalization *)

Lemma char_to_int_inj c1 c2 : char_to_int c1 = char_to_int c2 -> c1 = c2.
Proof.
  unfold char_to_int. intros H.
  assert (Hb : forall c, (nat_of_ascii c < 256)%nat) by apply nat_ascii_bounded.
  pose proof (Hb c1). pose proof (Hb c2).
  rewrite <- (ascii_nat_embedding c1), <- (ascii_nat_embedding c2).
  f_equal.
  destruct (Z.ltb_spec (Z.of_nat (nat_of_ascii c1)) 128),
           (Z.ltb_spec (Z.of_nat (nat_of_ascii c2)) 128); lia.
Qed.

Lemma char_to_int_letter i : (i < 26)%nat -> char_to_int (letter i) = 97 + Z.of_nat i.
Proof.
  intros Hi. unfold char_to_int, letter.
  rewrite nat_ascii_embedding by lia.
  destruct (Z.ltb_spec (Z.of_nat (97 + i)) 128); lia.
Qed.

Lemma letter_of_char c :
  is_lower c = true -> letter (Z.to_nat (char_to_int c - 97)) = c.
Proof.
  unfold is_lower. intros H. apply andb_prop in H as [H1 H2].
  apply Z.leb_le in H1, H2.
  apply char_to_int_inj. rewrite char_to_int_letter by lia. lia.
Qed.

Lemma is_lower_letter i : (i < 26)%nat -> is_lower (letter i) = true.
Proof.
  intros Hi. unfold is_lower. rewrite char_to_int_letter by done.
  apply andb_true_intro. split; apply Z.leb_le; lia.
Qed.

(** The range test of the trie loops accepts exactly the lowercase letters. *)
Lemma idx_in_range c :
  (char_to_int c - 97 <? 0) || (char_to_int c - 97 >=? ALPHABET_SIZE)
  = negb (is_lower c).
Proof.
  unfold is_lower, ALPHABET_SIZE.
  destruct (Z.ltb_spec (char_to_int c - 97) 0),
           (Z.leb_spec 97 (char_to_int c)),
           (Z.leb_spec (char_to_int c) 122); simpl; try lia;
  rewrite ?Z.geb_leb; try (apply Z.leb_le; lia); try (apply Z.leb_gt; lia).
Qed.

Lemma tolower_is_lower c : isalpha c = true -> is_lower (tolower c) = true.
Proof.
  unfold isalpha, tolower, is_lower. intros H.
  destruct (Z.leb_spec 65 (char_to_int c)), (Z.leb_spec (char_to_int c) 90);
    simpl in *.
  - replace (ascii_of_nat (Z.to_nat (char_to_int c + 32)))
      with (letter (Z.to_nat (char_to_int c - 65))).
    + rewrite char_to_int_letter by lia.
      apply andb_true_intro. split; apply Z.leb_le; lia.
    + unfold letter. f_equal. lia.
  - done.
  - done.
  - done.
Qed.

Lemma normalize_word_lower w : Forall (fun c => is_lower c = true) (normalize_word w).
Proof.
  induction w as [|c w IH]; simpl; [constructor|].
  destruct (isalpha c) eqn:Hc; [|done].
  constructor; [by apply tolower_is_lower | done].
Qed.

Lemma is_lower_isalpha c : is_lower c = true -> isalpha c = true.
Proof. unfold is_lower, isalpha. intros ->. apply orb_true_r. Qed.

Lemma is_lower_tolower c : is_lower c = true -> tolower c = c.
Proof.
  unfold is_lower, tolower. intros H. apply andb_prop in H as [H1 H2].
  apply Z.leb_le in H1, H2.
  destruct (Z.leb_spec (char_to_int c) 90); [lia|].
  by rewrite andb_false_r.
Qed.

(** Normalization is idempotent: a normalized word is its own normal form. *)
Lemma normalize_word_fixed w :
  Forall (fun c => is_lower c = true) w -> normalize_word w = w.
Proof.
  induction 1 as [|c w Hc _ IH]; simpl; [done|].
  by rewrite is_lower_isalpha, is_lower_tolower, IH.
Qed.

Lemma normalize_word_idempotent w :
  normalize_word (normalize_word w) = normalize_word w.
Proof. apply normalize_word_fixed, normalize_word_lower. Qed.

(** ** The hash table as a finite map *)

Lemma hash_func_range w : 0 <= hash_func w < HASH_SIZE.
Proof. unfold hash_func, HASH_SIZE. apply Z.mod_pos_bound. lia. Qed.

Lemma bucket_insert_same (t : list (list HashEntry)) i (b : list HashEntry) :
  (i < length t)%nat -> default [] (<[i := b]> t !! i) = b.
Proof. intros Hi. by rewrite list_lookup_insert_eq. Qed.

Lemma hash_search_insert_absent e w node :
  table_ok e -> hash_search e w = None ->
  hash_search (hash_insert e w node) w = Some node.
Proof.
  unfold table_ok, hash_search, hash_insert. intros Hlen Hnone.
  rewrite Hnone. unfold bucket; simpl.
  pose proof (hash_func_range w) as Hr.
  rewrite list_lookup_insert_eq by lia. simpl.
  by rewrite decide_True.
Qed.

(** [hash_insert] never overwrites: a word that has a mapping keeps it. *)
Lemma hash_search_insert_present e w node p :
  hash_search e w = Some p -> hash_insert e w node = e.
Proof. unfold hash_search, hash_insert. by intros ->. Qed.

Lemma hash_search_insert_other e w w' node :
  w <> w' -> hash_search (hash_insert e w node) w' = hash_search e w'.
Proof.
  intros Hne. unfold hash_search, hash_insert.
  destruct (bucket_search (bucket e (hash_func w)) w) eqn:Hs; [done|].
  unfold bucket; simpl.
  destruct (decide (Z.to_nat (hash_func w) = Z.to_nat (hash_func w'))) as [Heq|Hd].
  - rewrite <- Heq.
    destruct (hash_table e !! Z.to_nat (hash_func w)) as [b|] eqn:Hb.
    + rewrite list_lookup_insert_eq by (by eapply lookup_lt_Some).
      simpl. by rewrite decide_False.
    + rewrite list_insert_ge by (by apply lookup_ge_None). by rewrite Hb.
  - by rewrite list_lookup_insert_ne.
Qed.

Lemma hash_insert_table_ok e w node : table_ok e -> table_ok (hash_insert e w node).
Proof.
  unfold table_ok, hash_insert. intros H.
  destruct (bucket_search _ _); [done|]. simpl. by rewrite length_insert.
Qed.

Lemma hash_insert_fields e w node :
  heap (hash_insert e w node) = heap e
  /\ trie_root (hash_insert e w node) = trie_root e
  /\ documents (hash_insert e w node) = documents e
  /\ doc_count (hash_insert e w node) = doc_count e.
Proof. unfold hash_insert. by destruct (bucket_search _ _). Qed.

(** A mapping, once set, survives every later insertion. *)
Lemma hash_search_insert_stable e w w' node p :
  hash_search e w' = Some p -> hash_search (hash_insert e w node) w' = Some p.
Proof.
  intros H. destruct (decide (w = w')) as [->|Hne].
  - by rewrite (hash_search_insert_present _ _ _ _ H).
  - by rewrite hash_search_insert_other.
Qed.

(** ** The arena is a tree: every node is labelled by the word leading to it *)

Lemma edge_slot h L p i q : trie_wf h L -> edge h p i q -> (i < 26)%nat.
Proof.
  intros Hwf (nd & Hnd & Hc).
  apply lookup_lt_Some in Hc. rewrite (wf_slots _ _ Hwf _ _ Hnd) in Hc.
  unfold ALPHABET_SIZE in Hc. lia.
Qed.

Lemma letter_inj i j : (i < 26)%nat -> (j < 26)%nat -> letter i = letter j -> i = j.
Proof.
  intros Hi Hj H. apply (f_equal char_to_int) in H.
  rewrite !char_to_int_letter in H by done. lia.
Qed.

Lemma slot_letter i : (i < 26)%nat -> slot (letter i) = i.
Proof. intros Hi. unfold slot. rewrite char_to_int_letter by done. lia. Qed.

Lemma slot_range c : is_lower c = true -> (slot c < 26)%nat.
Proof.
  unfold is_lower, slot. intros H. apply andb_prop in H as [H1 H2].
  apply Z.leb_le in H1, H2. lia.
Qed.

Lemma child_edge h p c q :
  child h p (char_to_int c - 97) = Some q <-> edge h p (slot c) q.
Proof.
  unfold child, edge, slot. split.
  - intros H. destruct (h !! p) as [nd|]; [|done]. simpl in H.
    exists nd. split; [done|].
    destruct (children nd !! _) as [[r|]|]; simpl in H; congruence.
  - intros (nd & -> & Hc). simpl. by rewrite Hc.
Qed.

Lemma trie_descend_app h p s1 s2 :
  trie_descend h p (s1 ++ s2) = trie_descend h p s1 ≫= fun p' => trie_descend h p' s2.
Proof.
  revert p. induction s1 as [|c s1 IH]; intros p; simpl; [done|].
  destruct (_ || _); [done|].
  destruct (child h p _) as [q|]; [apply IH | done].
Qed.

(** Descending along [s] from a node labelled [lp] reaches the node
    labelled [lp ++ s], and only that one. *)
Lemma descend_label h L p lp s q :
  trie_wf h L -> L !! p = Some lp ->
  trie_descend h p s = Some q -> L !! q = Some (lp ++ s).
Proof.
  intros Hwf. revert p lp. induction s as [|c s IH]; intros p lp Hp; simpl.
  - intros [= <-]. by rewrite app_nil_r.
  - rewrite idx_in_range. destruct (is_lower c) eqn:Hc; simpl; [|done].
    destruct (child h p _) as [r|] eqn:Hr; [|done].
    apply child_edge in Hr.
    destruct (wf_child _ _ Hwf _ _ _ Hr) as (_ & lp' & Hp' & Hq).
    rewrite Hp in Hp'. injection Hp' as <-.
    unfold slot in Hq. rewrite letter_of_char in Hq by done.
    intros Hd. rewrite (IH _ _ Hq Hd). by rewrite <- app_assoc.
Qed.

Lemma descend_lower h p s q :
  trie_descend h p s = Some q -> Forall (fun c => is_lower c = true) s.
Proof.
  revert p. induction s as [|c s IH]; intros p; simpl; [constructor|].
  rewrite idx_in_range. destruct (is_lower c) eqn:Hc; simpl; [|done].
  destruct (child h p _); [|done]. intros H. constructor; [done | by eapply IH].
Qed.

Lemma label_descend h L p lp s q :
  trie_wf h L -> L !! p = Some lp ->
  L !! q = Some (lp ++ s) -> trie_descend h p s = Some q.
Proof.
  intros Hwf Hp. revert q. induction s as [|c s IH] using rev_ind; intros q Hq.
  - rewrite app_nil_r in Hq. simpl. f_equal.
    by eapply (NoDup_lookup L), Hq; [apply Hwf|].
  - rewrite app_assoc in Hq.
    destruct (wf_parent _ _ Hwf _ _ _ Hq) as (p' & i & Hp' & He & ->).
    rewrite trie_descend_app, (IH _ Hp'). cbn [mbind option_bind trie_descend].
    pose proof (edge_slot _ _ _ _ _ Hwf He) as Hi.
    rewrite idx_in_range, is_lower_letter by done. simpl.
    rewrite <- (slot_letter i) in He by done.
    apply child_edge in He. by rewrite He.
Qed.

Lemma labels_lower h L q w :
  trie_wf h L -> L !! q = Some w -> Forall (fun c => is_lower c = true) w.
Proof.
  intros Hwf Hq. eapply (descend_lower h 0%nat w q).
  eapply label_descend; [done | apply Hwf | done].
Qed.

(** *** Node contents that the path structure does not look at *)

Lemma same_data_trans a b c : same_data a b -> same_data b c -> same_data a c.
Proof. unfold same_data. intros (?&?&?) (?&?&?). repeat split; congruence. Qed.

Lemma heap_extends_refl h : heap_extends h h.
Proof.
  split; [lia|]. split.
  - intros p nd H. exists nd. split; [done | by repeat split].
  - intros p nd' Hp H. apply lookup_lt_Some in H. lia.
Qed.

Lemma heap_extends_trans h1 h2 h3 :
  heap_extends h1 h2 -> heap_extends h2 h3 -> heap_extends h1 h3.
Proof.
  intros (Hl1 & Ho1 & Hn1) (Hl2 & Ho2 & Hn2). split; [lia|]. split.
  - intros p nd H. destruct (Ho1 _ _ H) as (nd2 & H2 & Hs2).
    destruct (Ho2 _ _ H2) as (nd3 & H3 & Hs3).
    exists nd3. split; [done | by eapply same_data_trans].
  - intros p nd3 Hp H3.
    destruct (h2 !! p) as [nd2|] eqn:H2.
    + destruct (Ho2 _ _ H2) as (nd3' & H3' & Hs3).
      rewrite H3 in H3'. injection H3' as <-.
      eapply same_data_trans; [by eapply Hn1 | done].
    + apply lookup_ge_None in H2. by eapply Hn2.
Qed.

Lemma create_trie_node_no_child j r :
  children create_trie_node !! j <> Some (Some r).
Proof.
  unfold create_trie_node. cbn [children]. intros H.
  apply lookup_replicate in H as [? _]. done.
Qed.

Lemma create_trie_node_slots :
  length (children create_trie_node) = Z.to_nat ALPHABET_SIZE.
Proof. unfold create_trie_node. cbn [children]. apply length_replicate. Qed.

(** *** One allocation: a fresh child in an empty slot *)

Section add_child.
Context (h : list TrieNode) (L : list cstring) (curr : ptr) (lp : cstring)
        (nd : TrieNode) (i : nat).
Context (Hwf : trie_wf h L) (Hcurr : L !! curr = Some lp)
        (Hnd : h !! curr = Some nd) (Hi : (i < 26)%nat)
        (Hfree : mjoin (children nd !! i) = None).

Let q := length h.
Let set_slot (n : TrieNode) : TrieNode :=
  {| children := <[i := Some q]> (children n); is_end := is_end n;
     doc_list := doc_list n; total_freq := total_freq n |}.
Let h' := alter set_slot curr (h ++ [create_trie_node]).

Lemma add_child_lookup_curr : h' !! curr = Some (set_slot nd).
Proof.
  unfold h'. rewrite list_lookup_alter_eq.
  by rewrite (lookup_app_l_Some _ _ _ _ Hnd).
Qed.

Lemma add_child_lookup_new : h' !! q = Some create_trie_node.
Proof.
  unfold h'. apply lookup_lt_Some in Hnd.
  rewrite list_lookup_alter_ne by (unfold q; lia).
  unfold q. by rewrite list_lookup_middle.
Qed.

Lemma add_child_lookup_old p :
  p <> curr -> (p < length h)%nat -> h' !! p = h !! p.
Proof.
  intros Hne Hlt. unfold h'. rewrite list_lookup_alter_ne by done.
  by rewrite lookup_app_l.
Qed.

Lemma add_child_length : length h' = S (length h).
Proof. unfold h'. rewrite length_alter, length_app. simpl. lia. Qed.

Lemma add_child_slot_len : length (children nd) = 26%nat.
Proof. by rewrite (wf_slots _ _ Hwf _ _ Hnd). Qed.

Lemma add_child_edge p j r :
  edge h' p j r <-> edge h p j r \/ (p = curr /\ j = i /\ r = q).
Proof.
  pose proof add_child_slot_len as Hlen.
  split.
  - intros (n & Hn & Hc).
    destruct (decide (p = curr)) as [->|Hne].
    + rewrite add_child_lookup_curr in Hn. injection Hn as <-.
      simpl in Hc. destruct (decide (j = i)) as [->|Hji].
      * rewrite list_lookup_insert_eq in Hc by lia.
        injection Hc as <-. by right.
      * rewrite list_lookup_insert_ne in Hc by done.
        left. by exists nd.
    + destruct (decide (p = q)) as [->|Hpq].
      * rewrite add_child_lookup_new in Hn. injection Hn as <-.
        by apply create_trie_node_no_child in Hc.
      * assert (p < length h)%nat.
        { apply lookup_lt_Some in Hn. rewrite add_child_length in Hn.
          unfold q in Hpq. lia. }
        rewrite add_child_lookup_old in Hn by done.
        left. by exists n.
  - intros [(n & Hn & Hc)|(-> & -> & ->)].
    + destruct (decide (p = curr)) as [->|Hne].
      * rewrite Hnd in Hn. injection Hn as <-.
        exists (set_slot nd). split; [apply add_child_lookup_curr|].
        simpl. rewrite list_lookup_insert_ne; [done|].
        intros <-. by rewrite Hc in Hfree.
      * exists n. split; [|done].
        rewrite add_child_lookup_old; [done..|]. by eapply lookup_lt_Some.
    + exists (set_slot nd). split; [apply add_child_lookup_curr|].
      simpl. apply list_lookup_insert_eq. lia.
Qed.

Lemma add_child_fresh_label : lp ++ [letter i] ∉ L.
Proof.
  intros Hin. apply list_elem_of_lookup in Hin as [r Hr].
  destruct (wf_parent _ _ Hwf _ _ _ Hr) as (p & j & Hp & He & Hj).
  pose proof (edge_slot _ _ _ _ _ Hwf He) as Hj26.
  apply letter_inj in Hj; [|done..]. subst j.
  assert (p = curr) as ->.
  { eapply (NoDup_lookup L); [apply Hwf | apply Hp | apply Hcurr]. }
  destruct He as (n & Hn & Hc). rewrite Hnd in Hn. injection Hn as <-.
  by rewrite Hc in Hfree.
Qed.

Lemma add_child_wf : trie_wf h' (L ++ [lp ++ [letter i]]).
Proof.
  pose proof (wf_length _ _ Hwf) as HL.
  constructor.
  - rewrite add_child_length, length_app. simpl. lia.
  - apply lookup_app_l_Some, Hwf.
  - apply NoDup_app. split; [apply Hwf|]. split.
    + intros x Hx Hx'. apply list_elem_of_singleton in Hx'. subst x.
      by apply add_child_fresh_label.
    + apply NoDup_singleton.
  - intros p n Hn.
    destruct (decide (p = curr)) as [->|Hne].
    + rewrite add_child_lookup_curr in Hn. injection Hn as <-. simpl.
      rewrite length_insert. by apply (wf_slots _ _ Hwf curr).
    + destruct (decide (p = q)) as [->|Hpq].
      * rewrite add_child_lookup_new in Hn. injection Hn as <-.
        apply create_trie_node_slots.
      * apply (wf_slots _ _ Hwf p).
        rewrite <- add_child_lookup_old; [done..|].
        apply lookup_lt_Some in Hn. rewrite add_child_length in Hn.
        unfold q in Hpq. lia.
  - intros p j r He. apply add_child_edge in He as [He|(-> & -> & ->)].
    + destruct (wf_child _ _ Hwf _ _ _ He) as (Hlt & l & Hp & Hr).
      split; [done|]. exists l.
      split; by apply lookup_app_l_Some.
    + split; [by eapply lookup_lt_Some|]. exists lp.
      split; [by apply lookup_app_l_Some|].
      unfold q. rewrite <- HL. by rewrite list_lookup_middle.
  - intros r l c Hr. apply lookup_app_Some in Hr as [Hr|[Hge Hr]].
    + destruct (wf_parent _ _ Hwf _ _ _ Hr) as (p & j & Hp & He & Hc).
      exists p, j. split; [by apply lookup_app_l_Some|].
      split; [|done]. apply add_child_edge. by left.
    + apply list_lookup_singleton_Some in Hr as [Hr Heq].
      apply app_inj_tail in Heq as [<- <-].
      exists curr, i. split; [by apply lookup_app_l_Some|].
      split; [|done]. apply add_child_edge. right.
      repeat split. unfold q. lia.
Qed.

Lemma add_child_extends : heap_extends h h'.
Proof.
  split; [rewrite add_child_length; lia|]. split.
  - intros p n Hn. destruct (decide (p = curr)) as [->|Hne].
    + rewrite Hnd in Hn. injection Hn as <-.
      exists (set_slot nd). split; [apply add_child_lookup_curr|].
      by repeat split.
    + exists n. split; [|by repeat split].
      rewrite add_child_lookup_old; [done..|]. by eapply lookup_lt_Some.
  - intros p n Hp Hn.
    assert (p = q) as ->.
    { apply lookup_lt_Some in Hn. rewrite add_child_length in Hn.
      unfold q. lia. }
    rewrite add_child_lookup_new in Hn. injection Hn as <-.
    by repeat split.
Qed.
End add_child.

(** *** The insertion loop *)

Lemma letter_slot c : is_lower c = true -> letter (slot c) = c.
Proof. apply letter_of_char. Qed.

Lemma trie_insert_loop_spec w : forall h L curr lp,
  trie_wf h L -> L !! curr = Some lp ->
  Forall (fun c => is_lower c = true) w ->
  exists Lnew,
    trie_wf (trie_insert_loop h curr w).1 (L ++ Lnew)
    /\ (L ++ Lnew) !! (trie_insert_loop h curr w).2 = Some (lp ++ w)
    /\ heap_extends h (trie_insert_loop h curr w).1.
Proof.
  induction w as [|c w IH]; intros h L curr lp Hwf Hcurr Hlow.
  - exists []. rewrite !app_nil_r. simpl.
    split; [done|]. split; [done | apply heap_extends_refl].
  - apply Forall_cons in Hlow as [Hc Hlow].
    cbn [trie_insert_loop]. rewrite idx_in_range, Hc. cbn [negb].
    destruct (child h curr (char_to_int c - 97)) as [q|] eqn:Hq.
    + apply child_edge in Hq.
      destruct (wf_child _ _ Hwf _ _ _ Hq) as (_ & lp' & Hp' & Hlq).
      rewrite Hcurr in Hp'. injection Hp' as <-.
      rewrite letter_slot in Hlq by done.
      destruct (IH h L q _ Hwf Hlq Hlow) as (Lnew & H1 & H2 & H3).
      exists Lnew. rewrite <- (app_assoc lp [c] w) in H2. done.
    + assert (exists nd, h !! curr = Some nd) as [nd Hnd].
      { apply lookup_lt_is_Some. rewrite <- (wf_length _ _ Hwf).
        by eapply lookup_lt_Some. }
      assert (Hfree : mjoin (children nd !! slot c) = None).
      { unfold child in Hq. rewrite Hnd in Hq. done. }
      pose proof (slot_range _ Hc) as Hi.
      pose proof (add_child_wf h L curr lp nd (slot c) Hwf Hcurr Hnd Hi Hfree) as Hwf'.
      pose proof (add_child_extends h curr nd (slot c) Hnd Hi) as Hext.
      rewrite letter_slot in Hwf' by done.
      assert (Hnew : (L ++ [lp ++ [c]]) !! length h = Some (lp ++ [c])).
      { rewrite <- (wf_length _ _ Hwf). by rewrite list_lookup_middle. }
      destruct (IH _ _ _ _ Hwf' Hnew Hlow) as (Lnew & H1 & H2 & H3).
      exists ([lp ++ [c]] ++ Lnew). rewrite (app_assoc L [lp ++ [c]] Lnew).
      rewrite <- (app_assoc lp [c] w) in H2.
      split; [exact H1|]. split; [exact H2|].
      eapply heap_extends_trans; [exact Hext | exact H3].
Qed.

(** Updating the contents of one node leaves the tree structure alone. *)
Lemma alter_data_wf h L q f :
  trie_wf h L -> (forall nd, children (f nd) = children nd) ->
  trie_wf (alter f q h) L.
Proof.
  intros Hwf Hf.
  assert (Hedge : forall p i r, edge (alter f q h) p i r <-> edge h p i r).
  { intros p i r. unfold edge. destruct (decide (q = p)) as [->|Hne].
    - rewrite list_lookup_alter_eq. destruct (h !! p) as [nd|]; simpl.
      + split.
        * intros (n & [= <-] & Hc). exists nd. by rewrite <- Hf.
        * intros (n & [= <-] & Hc). exists (f nd). by rewrite Hf.
      + split; by intros (? & ? & _).
    - by rewrite list_lookup_alter_ne. }
  constructor.
  - rewrite length_alter. apply Hwf.
  - apply Hwf.
  - apply Hwf.
  - intros p nd Hnd. destruct (decide (q = p)) as [->|Hne].
    + rewrite list_lookup_alter_eq in Hnd.
      destruct (h !! p) as [n|] eqn:Hn; [|done]. injection Hnd as <-.
      rewrite Hf. by apply (wf_slots _ _ Hwf p).
    + rewrite list_lookup_alter_ne in Hnd by done. by apply (wf_slots _ _ Hwf p).
  - intros p i r He. apply Hedge in He. by apply (wf_child _ _ Hwf).
  - intros r l c Hr. destruct (wf_parent _ _ Hwf _ _ _ Hr) as (p & i & ? & ? & ?).
    exists p, i. by rewrite Hedge.
Qed.

(** ** The indexed corpus: what the engine state stands for *)

(** *** Counting lemmas *)

Lemma occ_nonneg w ws : 0 <= occ w ws.
Proof. unfold occ. lia. Qed.

Lemma occ_app w ws1 ws2 : occ w (ws1 ++ ws2) = occ w ws1 + occ w ws2.
Proof. unfold occ. rewrite filter_app, length_app. lia. Qed.

Lemma occ_singleton_eq w : occ w [w] = 1.
Proof. unfold occ. rewrite filter_cons_True by done. done. Qed.

Lemma occ_singleton_ne w n : n <> w -> occ w [n] = 0.
Proof. intros H. unfold occ. rewrite filter_cons_False by done. done. Qed.

Lemma occ_pos_elem w ws : 0 < occ w ws <-> w ∈ ws.
Proof.
  unfold occ. induction ws as [|x ws IH]; simpl.
  - split; [lia | by intros ?%elem_of_nil].
  - rewrite elem_of_cons. destruct (decide (x = w)) as [->|Hne].
    + rewrite filter_cons_True by done. simpl. split; [by left | lia].
    + rewrite filter_cons_False by done. rewrite IH.
      split; [by right | intros [?|?]; [congruence | done]].
Qed.

Lemma occ_le_length w ws : occ w ws <= Z.of_nat (length ws).
Proof. unfold occ. pose proof (length_filter (fun x => x = w) ws). lia. Qed.

Lemma not_indexed_occurrences w adocs :
  ~ indexed w adocs -> occurrences w adocs = [] /\ total w adocs = 0.
Proof.
  induction adocs as [|d older IH]; intros Hn; simpl; [done|].
  assert (Hd : occ w (a_words d) = 0).
  { pose proof (occ_nonneg w (a_words d)).
    destruct (decide (0 < occ w (a_words d))) as [Hpos|]; [|lia].
    exfalso. apply Hn. exists d. split; [by left | by apply occ_pos_elem]. }
  destruct IH as [-> ->].
  { intros (d' & Hin & Hw). apply Hn. exists d'. split; [by right | done]. }
  rewrite Hd. done.
Qed.

Lemma occurrences_ids w adocs :
  Forall (fun dn => 0 <= doc_id dn < Z.of_nat (length adocs)) (occurrences w adocs).
Proof.
  induction adocs as [|d older IH]; simpl; [constructor|].
  apply Forall_app. split.
  - destruct (0 <? occ w (a_words d)); repeat constructor; simpl; lia.
  - eapply Forall_impl; [apply IH|]. simpl. intros; lia.
Qed.

Lemma incr_occurrence_absent l d :
  Forall (fun dn => doc_id dn <> d) l -> incr_occurrence l d = None.
Proof.
  induction 1 as [|dn l Hd _ IH]; simpl; [done|].
  destruct (Z.eqb_spec (doc_id dn) d); [done|]. by rewrite IH.
Qed.

Lemma indexed_cons w d older :
  indexed w (d :: older) <-> w ∈ a_words d \/ indexed w older.
Proof.
  unfold indexed. split.
  - intros (d' & Hin & Hw). apply elem_of_cons in Hin as [->|Hin]; [by left|].
    right. by exists d'.
  - intros [Hw|(d' & Hin & Hw)].
    + exists d. split; [by left | done].
    + exists d'. split; [by right | done].
Qed.

(** *** The steps of indexing preserve the invariant *)

Lemma create_search_engine_inv : engine_inv create_search_engine [[]] [].
Proof.
  constructor.
  - constructor.
    + done.
    + done.
    + apply NoDup_singleton.
    + intros [|p] nd H; [|done]. injection H as <-.
      apply create_trie_node_slots.
    + intros [|p] i q (nd & Hnd & Hc); [|done]. injection Hnd as <-.
      by apply create_trie_node_no_child in Hc.
    + intros [|q] l c H; [|done]. injection H as H.
      by destruct l.
  - done.
  - unfold table_ok, create_search_engine. cbn [hash_table].
    apply length_replicate.
  - done.
  - done.
  - constructor.
  - intros [|q] w nd Hq Hnd; [|done]. injection Hq as <-. injection Hnd as <-.
    split; [done|]. split; [done|]. split; [done|].
    intros (d & Hd & _). by apply elem_of_nil in Hd.
  - intros w q H. unfold hash_search, bucket, create_search_engine in H.
    cbn [hash_table] in H.
    destruct (replicate _ _ !! _) as [b|] eqn:Hb; [|done].
    apply lookup_replicate in Hb as [-> _]. done.
  - intros w (d & Hd & _). by apply elem_of_nil in Hd.
Qed.

Lemma add_document_inv e L adocs name :
  engine_inv e L adocs ->
  engine_inv (add_document e name) L
             ({| a_name := name; a_count := 0; a_words := [] |} :: adocs).
Proof.
  intros Hinv. constructor; simpl.
  - apply Hinv.
  - apply Hinv.
  - apply Hinv.
  - rewrite (inv_count _ _ _ Hinv). lia.
  - by rewrite (inv_count _ _ _ Hinv), (inv_documents _ _ _ Hinv).
  - constructor; [constructor | apply Hinv].
  - intros q w nd Hq Hnd.
    destruct (inv_node _ _ _ Hinv _ _ _ Hq Hnd) as (H1 & H2 & H3).
    split; [done|]. split; [done|].
    rewrite H3, indexed_cons. simpl. split; [by right|].
    intros [H|H]; [by apply elem_of_nil in H | done].
  - intros w q H. destruct (inv_hash_sound _ _ _ Hinv _ _ H) as [H1 H2].
    split; [done|]. apply indexed_cons. by right.
  - intros w H. apply indexed_cons in H as [H|H]; [by apply elem_of_nil in H|].
    by apply (inv_hash_complete _ _ _ Hinv).
Qed.

(** The walk of [trie_insert] only allocates blank nodes. *)
Lemma trie_insert_loop_inv e L adocs w :
  engine_inv e L adocs -> Forall (fun c => is_lower c = true) w ->
  exists Lnew,
    engine_inv (set_heap e (trie_insert_loop (heap e) (trie_root e) w).1)
               (L ++ Lnew) adocs
    /\ (L ++ Lnew) !! (trie_insert_loop (heap e) (trie_root e) w).2 = Some w.
Proof.
  intros Hinv Hlow.
  assert (Hroot : L !! trie_root e = Some []).
  { rewrite (inv_root _ _ _ Hinv). apply (inv_wf _ _ _ Hinv). }
  destruct (trie_insert_loop_spec w _ _ _ _ (inv_wf _ _ _ Hinv) Hroot Hlow)
    as (Lnew & Hwf' & Hq & Hlen & Hold & Hnew).
  exists Lnew. split; [|done].
  pose proof (wf_length _ _ (inv_wf _ _ _ Hinv)) as HL.
  constructor; simpl; try apply Hinv.
  - done.
  - intros q w' nd' Hq' Hnd'.
    destruct (decide (q < length L)%nat) as [Hlt|Hge].
    + rewrite lookup_app_l in Hq' by done.
      destruct (lookup_lt_is_Some_2 (heap e) q) as [nd Hnd]; [lia|].
      destruct (Hold _ _ Hnd) as (nd2 & Hnd2 & Hs1 & Hs2 & Hs3).
      rewrite Hnd' in Hnd2. injection Hnd2 as <-.
      rewrite Hs1, Hs2, Hs3. by apply (inv_node _ _ _ Hinv q).
    + destruct (Hnew q nd') as (Hs1 & Hs2 & Hs3); [lia | done |].
      assert (Hni : ~ indexed w' adocs).
      { intros Hi. destruct (inv_hash_complete _ _ _ Hinv _ Hi) as [r Hr].
        apply (inv_hash_sound _ _ _ Hinv) in Hr as [Hr _].
        pose proof (lookup_app_l_Some _ Lnew _ _ Hr) as Hr2.
        pose proof (NoDup_lookup _ _ _ _ (wf_nodup _ _ Hwf') Hr2 Hq') as ->.
        apply lookup_lt_Some in Hr. lia. }
      destruct (not_indexed_occurrences _ _ Hni) as [-> ->].
      rewrite Hs1, Hs2, Hs3. simpl. split; [done|]. split; [done|].
      split; [done | by intros ?].
  - intros w' q H. destruct (inv_hash_sound _ _ _ Hinv _ _ H) as [H1 H2].
    split; [by apply lookup_app_l_Some | done].
Qed.

Lemma add_doc_occurrence_children nd d :
  children (add_doc_occurrence (set_is_end nd) d) = children nd.
Proof. unfold add_doc_occurrence. by destruct (incr_occurrence _ _). Qed.

Lemma add_doc_occurrence_is_end nd d :
  is_end (add_doc_occurrence (set_is_end nd) d) = true.
Proof. unfold add_doc_occurrence. by destruct (incr_occurrence _ _). Qed.

(** Recording one more occurrence of [n] in the newest document. *)
Lemma add_doc_occurrence_spec n hd older nd :
  doc_list nd = occurrences n (hd :: older) ->
  total_freq nd = total n (hd :: older) ->
  doc_list (add_doc_occurrence (set_is_end nd) (Z.of_nat (length older)))
    = occurrences n (add_word hd n :: older)
  /\ total_freq (add_doc_occurrence (set_is_end nd) (Z.of_nat (length older)))
    = total n (add_word hd n :: older).
Proof.
  intros Hl Ht. unfold add_doc_occurrence. cbn [doc_list total_freq set_is_end].
  rewrite Hl, Ht. cbn [occurrences total add_word a_words].
  rewrite occ_app, occ_singleton_eq.
  pose proof (occ_nonneg n (a_words hd)) as Hnn.
  destruct (Z.ltb_spec 0 (occ n (a_words hd))) as [Hpos|Hzero].
  - cbn [app incr_occurrence doc_id frequency]. rewrite Z.eqb_refl.
    cbn [doc_list total_freq].
    destruct (Z.ltb_spec 0 (occ n (a_words hd) + 1)); [|lia].
    split; [done | lia].
  - cbn [app]. rewrite incr_occurrence_absent.
    + cbn [doc_list total_freq].
      destruct (Z.ltb_spec 0 (occ n (a_words hd) + 1)); [|lia].
      replace (occ n (a_words hd)) with 0 by lia. split; [done | lia].
    + eapply Forall_impl; [apply occurrences_ids|]. simpl. intros; lia.
Qed.

Lemma occurrences_other w n hd older :
  n <> w ->
  occurrences w (add_word hd n :: older) = occurrences w (hd :: older)
  /\ total w (add_word hd n :: older) = total w (hd :: older).
Proof.
  intros Hne. cbn [occurrences total add_word a_words].
  rewrite occ_app, occ_singleton_ne by done. by rewrite Z.add_0_r.
Qed.

Lemma indexed_add_word w n hd older :
  indexed w (add_word hd n :: older) <-> w = n \/ indexed w (hd :: older).
Proof.
  rewrite !indexed_cons. cbn [add_word a_words].
  rewrite elem_of_app, list_elem_of_singleton. tauto.
Qed.

Lemma record_occurrence_inv e L hd older q n :
  engine_inv e L (hd :: older) -> L !! q = Some n -> word_ok n ->
  engine_inv
    (hash_insert
       (set_heap e
          (alter (fun nd => add_doc_occurrence (set_is_end nd)
                              (Z.of_nat (length older))) q (heap e)))
       n q)
    L (add_word hd n :: older).
Proof.
  intros Hinv Hq Hok.
  set (h2 := alter _ q (heap e)).
  destruct (hash_insert_fields (set_heap e h2) n q) as (Hh & Hr & Hd & Hc).
  constructor.
  - rewrite Hh. apply alter_data_wf; [apply Hinv|].
    intros nd. apply add_doc_occurrence_children.
  - rewrite Hr. apply Hinv.
  - apply hash_insert_table_ok, Hinv.
  - rewrite Hc. apply Hinv.
  - rewrite Hd. apply Hinv.
  - pose proof (inv_words _ _ _ Hinv) as Hw.
    apply Forall_cons in Hw as [Hw1 Hw2].
    constructor; [|done]. cbn [add_word a_words].
    apply Forall_app. split; [done | by constructor].
  - intros q' w nd' Hq' Hnd'. rewrite Hh in Hnd'. cbn [set_heap heap] in Hnd'.
    destruct (decide (q = q')) as [<-|Hne].
    + rewrite Hq in Hq'. injection Hq' as <-.
      unfold h2 in Hnd'. rewrite list_lookup_alter_eq in Hnd'.
      destruct (heap e !! q) as [nd|] eqn:Hnd; [|done].
      injection Hnd' as <-.
      destruct (inv_node _ _ _ Hinv _ _ _ Hq Hnd) as (H1 & H2 & _).
      destruct (add_doc_occurrence_spec _ _ _ _ H1 H2) as [-> ->].
      split; [done|]. split; [done|].
      rewrite add_doc_occurrence_is_end, indexed_add_word.
      split; [by left | done].
    + unfold h2 in Hnd'. rewrite list_lookup_alter_ne in Hnd' by done.
      destruct (inv_node _ _ _ Hinv _ _ _ Hq' Hnd') as (H1 & H2 & H3).
      assert (Hnw : n <> w).
      { intros ->. apply Hne.
        eapply (NoDup_lookup L); [apply Hinv | apply Hq | apply Hq']. }
      destruct (occurrences_other w n hd older Hnw) as [-> ->].
      split; [done|]. split; [done|].
      rewrite H3, indexed_add_word. split; [by right|].
      intros [->|H]; [done | done].
  - intros w r H. destruct (decide (n = w)) as [<-|Hne].
    + destruct (hash_search e n) as [r0|] eqn:Hs.
      * rewrite (hash_search_insert_present (set_heap e h2) n q r0 Hs) in H.
        change (hash_search e n = Some r) in H.
        destruct (inv_hash_sound _ _ _ Hinv _ _ H) as [H1 H2].
        split; [done|]. apply indexed_add_word. by left.
      * rewrite hash_search_insert_absent in H; [| apply Hinv | done].
        injection H as <-. split; [done|]. apply indexed_add_word. by left.
    + rewrite hash_search_insert_other in H by done.
      destruct (inv_hash_sound _ _ _ Hinv _ _ H) as [H1 H2].
      split; [done|]. apply indexed_add_word. by right.
  - intros w H. apply indexed_add_word in H. destruct (decide (n = w)) as [<-|Hne].
    + destruct (hash_search e n) as [r0|] eqn:Hs.
      * rewrite (hash_search_insert_present (set_heap e h2) n q r0 Hs).
        by exists r0.
      * rewrite hash_search_insert_absent; [done | apply Hinv | done].
    + rewrite hash_search_insert_other by done.
      destruct H as [->|H]; [done|].
      by apply (inv_hash_complete _ _ _ Hinv).
Qed.

Lemma index_word_skip e token d :
  indexed_form token = None -> index_word e token d = e.
Proof.
  unfold indexed_form, index_word.
  by destruct (length _ <? 2)%nat.
Qed.

Lemma index_word_inv e L hd older token :
  engine_inv e L (hd :: older) ->
  exists Lnew,
    engine_inv (index_word e token (Z.of_nat (length older))) (L ++ Lnew)
               (add_token hd token :: older).
Proof.
  intros Hinv. unfold add_token.
  destruct (indexed_form token) as [n|] eqn:Hf.
  - unfold indexed_form in Hf. unfold index_word.
    set (nz := normalize_word (take (MAX_WORD_LEN - 1) token)) in *.
    destruct (Nat.ltb_spec (length nz) 2) as [|Hlen]; [done|].
    injection Hf as <-.
    assert (Hlow : Forall (fun c => is_lower c = true) nz)
      by apply normalize_word_lower.
    destruct (trie_insert_loop_inv e L _ nz Hinv Hlow) as (Lnew & Hinv1 & Hq).
    exists Lnew. unfold trie_insert.
    destruct (trie_insert_loop (heap e) (trie_root e) nz) as [h1 q] eqn:Hloop.
    cbn [fst snd] in *.
    exact (record_occurrence_inv _ _ _ _ _ _ Hinv1 Hq (conj Hlow Hlen)).
  - rewrite index_word_skip by done. exists []. by rewrite app_nil_r.
Qed.

Lemma fold_add_token tokens : forall hd,
  fold_left add_token tokens hd
  = {| a_name := a_name hd; a_count := a_count hd;
       a_words := a_words hd ++ omap indexed_form tokens |}.
Proof.
  induction tokens as [|t tokens IH]; intros hd; simpl.
  - rewrite app_nil_r. by destruct hd.
  - rewrite IH. unfold add_token.
    destruct (indexed_form t) as [n|]; simpl; [|done].
    by rewrite <- app_assoc.
Qed.

Lemma index_tokens_loop_inv d tokens : forall e L hd older c0,
  d = Z.of_nat (length older) ->
  engine_inv e L (hd :: older) ->
  let r := fold_left (fun '(e, word_count) token =>
                        (index_word e token d, word_count + 1))
                     tokens (e, c0) in
  r.2 = c0 + Z.of_nat (length tokens)
  /\ exists Lnew, engine_inv r.1 (L ++ Lnew) (fold_left add_token tokens hd :: older).
Proof.
  induction tokens as [|t tokens IH]; intros e L hd older c0 -> Hinv.
  - simpl. split; [lia|]. exists []. by rewrite app_nil_r.
  - cbn [fold_left].
    destruct (index_word_inv e L hd older t Hinv) as (L1 & Hinv1).
    destruct (IH _ _ _ _ (c0 + 1) eq_refl Hinv1) as (Hc & L2 & Hinv2).
    cbn zeta in Hc. split.
    + rewrite Hc. rewrite length_cons. lia.
    + exists (L1 ++ L2). by rewrite app_assoc.
Qed.

Lemma set_count_inv e L hd older n :
  engine_inv e L (hd :: older) ->
  engine_inv
    (set_documents e (update_word_count (documents e) (Z.of_nat (length older)) n))
    L (set_count hd n :: older).
Proof.
  intros Hinv. constructor; cbn [set_documents heap trie_root doc_count documents].
  - apply Hinv.
  - apply Hinv.
  - apply Hinv.
  - apply Hinv.
  - rewrite (inv_documents _ _ _ Hinv). cbn [documents_of update_word_count id].
    by rewrite Z.eqb_refl.
  - pose proof (inv_words _ _ _ Hinv) as Hw.
    apply Forall_cons in Hw as [Hw1 Hw2]. by constructor.
  - intros q w nd Hq Hnd.
    destruct (inv_node _ _ _ Hinv _ _ _ Hq Hnd) as (H1 & H2 & H3).
    split; [done|]. split; [done|].
    rewrite H3, !indexed_cons. done.
  - intros w q H. destruct (inv_hash_sound _ _ _ Hinv _ _ H) as [H1 H2].
    split; [done|]. by rewrite indexed_cons in *.
  - intros w H. apply (inv_hash_complete _ _ _ Hinv). by rewrite indexed_cons in *.
Qed.

Lemma index_text_inv e L adocs name text :
  engine_inv e L adocs ->
  (index_text e name text).2 = Z.of_nat (length adocs)
  /\ exists Lnew,
       engine_inv (index_text e name text).1 (L ++ Lnew)
                  (adoc_of name text :: adocs).
Proof.
  intros Hinv. unfold index_text, index_tokens.
  pose proof (add_document_inv _ _ _ name Hinv) as Hinv1.
  assert (Hd : doc_count (add_document e name) - 1 = Z.of_nat (length adocs)).
  { cbn [add_document doc_count]. rewrite (inv_count _ _ _ Hinv). lia. }
  rewrite Hd.
  destruct (index_tokens_loop_inv _ (tokenize text) _ _ _ _ 0 eq_refl Hinv1)
    as (Hc & Lnew & Hinv2).
  cbn zeta in Hc, Hinv2.
  destruct (fold_left _ (tokenize text) (add_document e name, 0)) as [e2 wc].
  cbn [fst snd] in *. rewrite Z.add_0_l in Hc. subst wc.
  split; [done|]. exists Lnew.
  pose proof (set_count_inv _ _ _ _ (Z.of_nat (length (tokenize text))) Hinv2)
    as Hinv3.
  rewrite fold_add_token in Hinv3. exact Hinv3.
Qed.

(** ** Reachable engine states *)

Lemma length_indexed_forms (tokens : list cstring) :
  (length (omap indexed_form tokens) <= length tokens)%nat.
Proof.
  induction tokens as [|t l IH]; [simpl; lia|].
  change (omap indexed_form (t :: l))
    with (match indexed_form t with
          | Some n => n :: omap indexed_form l
          | None => omap indexed_form l
          end).
  destruct (indexed_form t); rewrite ?length_cons; lia.
Qed.

Lemma adoc_of_counts name text :
  Z.of_nat (length (a_words (adoc_of name text))) <= a_count (adoc_of name text).
Proof.
  cbn [adoc_of a_words a_count].
  pose proof (length_indexed_forms (tokenize text)). lia.
Qed.

Lemma reachable_inv e :
  reachable e -> exists L adocs, engine_inv e L adocs /\ counts_ok adocs.
Proof.
  induction 1 as [|e name text _ (L & adocs & Hinv & Hc)].
  - exists [[]], []. split; [apply create_search_engine_inv | constructor].
  - destruct (index_text_inv _ _ _ name text Hinv) as (_ & Lnew & Hinv').
    exists (L ++ Lnew), (adoc_of name text :: adocs).
    split; [done|]. constructor; [apply adoc_of_counts | done].
Qed.

(** ** Frequency accounting (claim C1) *)

Lemma incr_occurrence_sum l d l' :
  incr_occurrence l d = Some l' -> sum_frequencies l' = sum_frequencies l + 1.
Proof.
  revert l'. induction l as [|dn l IH]; intros l'; simpl; [done|].
  destruct (doc_id dn =? d).
  - intros [= <-]. simpl. lia.
  - destruct (incr_occurrence l d) as [l0|]; simpl; [|done].
    intros [= <-]. simpl. rewrite (IH l0 eq_refl). lia.
Qed.

Lemma add_doc_occurrence_freq_ok nd d :
  node_freq_ok nd -> node_freq_ok (add_doc_occurrence nd d).
Proof.
  unfold node_freq_ok, add_doc_occurrence. intros H.
  destruct (incr_occurrence (doc_list nd) d) as [l|] eqn:Hl; simpl.
  - rewrite (incr_occurrence_sum _ _ _ Hl). lia.
  - lia.
Qed.

Lemma create_trie_node_freq_ok : node_freq_ok create_trie_node.
Proof. done. Qed.

Lemma Forall_alter_data (h : list TrieNode) f q :
  Forall node_freq_ok h ->
  (forall nd, node_freq_ok nd -> node_freq_ok (f nd)) ->
  Forall node_freq_ok (alter f q h).
Proof.
  intros Hh Hf. apply Forall_lookup. intros p nd Hnd.
  destruct (decide (q = p)) as [->|Hne].
  - rewrite list_lookup_alter_eq in Hnd.
    destruct (h !! p) as [n|] eqn:Hn; [|done]. injection Hnd as <-.
    apply Hf. by eapply (Forall_lookup_1 _ h).
  - rewrite list_lookup_alter_ne in Hnd by done.
    by eapply (Forall_lookup_1 _ h).
Qed.

Lemma trie_insert_loop_freq w : forall h curr,
  Forall node_freq_ok h -> Forall node_freq_ok (trie_insert_loop h curr w).1.
Proof.
  induction w as [|c w IH]; intros h curr Hh; cbn [trie_insert_loop]; [done|].
  destruct (_ || _); [by apply IH|].
  destruct (child h curr _); [by apply IH|].
  apply IH, Forall_alter_data; [|done].
  apply Forall_app. split; [done|].
  constructor; [apply create_trie_node_freq_ok | constructor].
Qed.

Lemma trie_insert_freq h root w d :
  Forall node_freq_ok h -> Forall node_freq_ok (trie_insert h root w d).1.
Proof.
  intros Hh. unfold trie_insert.
  pose proof (trie_insert_loop_freq w h root Hh) as H1.
  destruct (trie_insert_loop h root w) as [h1 curr]. cbn [fst] in *.
  apply Forall_alter_data; [done|].
  intros nd Hnd. by apply add_doc_occurrence_freq_ok.
Qed.

(** Each single token keeps the accounting exact, so the invariant also
    holds between any two tokens of a document being indexed. *)
Lemma index_word_freq e token d :
  freq_invariant e -> freq_invariant (index_word e token d).
Proof.
  unfold freq_invariant, index_word. intros He.
  destruct (length _ <? 2)%nat; [done|].
  pose proof (trie_insert_freq (heap e) (trie_root e)
                (normalize_word (take (MAX_WORD_LEN - 1) token)) d He) as H1.
  destruct (trie_insert _ _ _ _) as [h node]. cbn [fst] in H1.
  by destruct (hash_insert_fields (set_heap e h)
                 (normalize_word (take (MAX_WORD_LEN - 1) token)) node) as [-> _].
Qed.

Lemma index_tokens_freq d tokens : forall e c0,
  freq_invariant e ->
  freq_invariant
    (fold_left (fun '(e, word_count) token =>
                  (index_word e token d, word_count + 1)) tokens (e, c0)).1.
Proof.
  induction tokens as [|t tokens IH]; intros e c0 He; cbn [fold_left]; [done|].
  by apply IH, index_word_freq.
Qed.

Lemma index_text_freq e name text :
  freq_invariant e -> freq_invariant (index_text e name text).1.
Proof.
  intros He. unfold index_text, index_tokens.
  pose proof (index_tokens_freq (doc_count (add_document e name) - 1)
                (tokenize text) (add_document e name) 0 He) as H.
  by destruct (fold_left _ _ _) as [e2 wc].
Qed.

Lemma reachable_freq_invariant e : reachable e -> freq_invariant e.
Proof.
  induction 1 as [|e name text _ IH].
  - repeat constructor.
  - by apply index_text_freq.
Qed.

Lemma reported_sum_doc_list e unknown (l : list DocNode) :
  reported_sum
    (map (fun doc => (doc_id doc,
                      doc_filename (get_document e (doc_id doc)) unknown,
                      frequency doc)) l)
  = sum_frequencies l.
Proof. induction l as [|dn l IH]; simpl; [done | by rewrite IH]. Qed.

(** C1: in every reachable state, every trie node's [total_freq] is the sum
    of the [frequency] fields of its document list, and the total reported
    by [output_freq_result] for any word is the sum of the per-document
    frequencies it reports (and a report is returned for every word that
    fits the query buffer); the node invariant also holds after each token
    of a document that is being indexed. *)
Theorem C1_frequency_accounting e :
  reachable e ->
  (forall p nd, heap e !! p = Some nd ->
     total_freq nd = sum_frequencies (doc_list nd))
  /\ (forall w r, output_freq_result e w = Some r ->
        freq_total r = reported_sum (freq_documents r))
  /\ (forall w, (length w < MAX_WORD_LEN - 1)%nat ->
        is_Some (output_freq_result e w))
  /\ (forall name tokens d,
        freq_invariant (index_tokens (add_document e name) tokens d).1).
Proof.
  intros Hr. pose proof (reachable_freq_invariant e Hr) as Hinv.
  split; [|split; [|split]].
  - intros p nd Hnd. by apply (Forall_lookup_1 _ _ _ _ Hinv Hnd).
  - intros w r. unfold output_freq_result.
    destruct (normalize_query w) as [n|]; [|done]. cbn [mbind option_bind].
    destruct (hash_search e n) as [node|].
    + destruct (heap e !! node) as [nd|] eqn:Hnd; [|done].
      cbn [mbind option_bind]. intros [= <-]. cbn [freq_total freq_documents].
      rewrite reported_sum_doc_list.
      by apply (Forall_lookup_1 _ _ _ _ Hinv Hnd).
    + by intros [= <-].
  - intros w Hlen. destruct (reachable_inv e Hr) as (L & adocs & Hrep & _).
    unfold output_freq_result, normalize_query, query_buffer.
    destruct (Nat.ltb_spec (length w) (MAX_WORD_LEN - 1)); [|lia].
    cbn [fmap option_fmap option_map mbind option_bind].
    destruct (hash_search e (normalize_word w)) as [node|] eqn:Hs; [|by eexists].
    destruct (inv_hash_sound _ _ _ Hrep _ _ Hs) as [Hnode _].
    destruct (lookup_lt_is_Some_2 (heap e) node) as [nd ->]; [|by eexists].
    rewrite <- (wf_length _ _ (inv_wf _ _ _ Hrep)). by eapply lookup_lt_Some.
  - intros name tokens d. by apply index_tokens_freq.
Qed.

Lemma small_engine_reachable : reachable small_engine.
Proof. apply reachable_index, reachable_create. Qed.

Lemma C1_frequency_accounting_witness :
  reachable small_engine
  /\ (forall p nd, heap small_engine !! p = Some nd ->
        total_freq nd = sum_frequencies (doc_list nd)).
Proof.
  split; [apply small_engine_reachable|].
  apply (C1_frequency_accounting small_engine small_engine_reachable).
Defined.

(** ** Engines built from a list of documents *)

Lemma reachable_engine_of e : reachable e <-> exists inputs, e = engine_of inputs.
Proof.
  split.
  - induction 1 as [|e name text _ [inputs ->]].
    + by exists [].
    + by exists ((name, text) :: inputs).
  - intros [inputs ->]. induction inputs as [|[name text] inputs IH]; simpl.
    + constructor.
    + by constructor.
Qed.

Lemma engine_of_inv inputs : exists L, engine_inv (engine_of inputs) L (corpus inputs).
Proof.
  induction inputs as [|[name text] inputs [L IH]]; simpl.
  - exists [[]]. apply create_search_engine_inv.
  - destruct (index_text_inv _ _ _ name text IH) as (_ & Lnew & H).
    by exists (L ++ Lnew).
Qed.

Lemma indexed_corpus w inputs : indexed w (corpus inputs) <-> was_indexed w inputs.
Proof.
  unfold indexed, was_indexed, corpus. split.
  - intros (d & Hd & Hw). apply list_elem_of_fmap in Hd as ([name text] & -> & Hin).
    cbn [adoc_of a_words] in Hw. apply list_elem_of_omap in Hw as (token & Ht & Hf).
    by exists name, text, token.
  - intros (name & text & token & Hin & Ht & Hf).
    exists (adoc_of name text). split.
    + apply list_elem_of_fmap. by exists (name, text).
    + cbn [adoc_of a_words]. apply list_elem_of_omap. by exists token.
Qed.

(** ** The lookup index and the trie agree (claim C9) *)

Lemma hash_search_trie_search e L adocs w :
  engine_inv e L adocs ->
  hash_search e w = trie_search (heap e) (trie_root e) w.
Proof.
  intros Hinv. unfold trie_search. rewrite (inv_root _ _ _ Hinv).
  pose proof (inv_wf _ _ _ Hinv) as Hwf.
  destruct (hash_search e w) as [q|] eqn:Hs.
  - destruct (inv_hash_sound _ _ _ Hinv _ _ Hs) as [Hq Hi].
    rewrite (label_descend _ _ _ _ _ _ Hwf (wf_root _ _ Hwf) Hq).
    cbn [mbind option_bind].
    destruct (lookup_lt_is_Some_2 (heap e) q) as [nd Hnd].
    { rewrite <- (wf_length _ _ Hwf). by eapply lookup_lt_Some. }
    rewrite Hnd. cbn [mbind option_bind].
    destruct (inv_node _ _ _ Hinv _ _ _ Hq Hnd) as (_ & _ & He).
    by rewrite (proj2 He Hi).
  - destruct (trie_descend (heap e) 0%nat w) as [q|] eqn:Hd; [|done].
    cbn [mbind option_bind].
    destruct (heap e !! q) as [nd|] eqn:Hnd; [|done]. cbn [mbind option_bind].
    pose proof (descend_label _ _ _ _ _ _ Hwf (wf_root _ _ Hwf) Hd) as Hq.
    destruct (inv_node _ _ _ Hinv _ _ _ Hq Hnd) as (_ & _ & He).
    destruct (is_end nd); [|done].
    destruct (inv_hash_complete _ _ _ Hinv w) as [r Hr]; [by apply He|].
    congruence.
Qed.

Lemma index_word_hash_stable e token d w p :
  hash_search e w = Some p -> hash_search (index_word e token d) w = Some p.
Proof.
  intros H. unfold index_word. destruct (length _ <? 2)%nat; [done|].
  destruct (trie_insert _ _ _ _) as [h node].
  by apply hash_search_insert_stable.
Qed.

Lemma index_tokens_hash_stable d w p tokens : forall e c0,
  hash_search e w = Some p ->
  hash_search
    (fold_left (fun '(e, word_count) token =>
                  (index_word e token d, word_count + 1)) tokens (e, c0)).1 w
  = Some p.
Proof.
  induction tokens as [|t tokens IH]; intros e c0 H; cbn [fold_left]; [done|].
  by apply IH, index_word_hash_stable.
Qed.

Lemma index_text_hash_stable e name text w p :
  hash_search e w = Some p -> hash_search (index_text e name text).1 w = Some p.
Proof.
  intros H. unfold index_text, index_tokens.
  pose proof (index_tokens_hash_stable (doc_count (add_document e name) - 1)
                w p (tokenize text) (add_document e name) 0 H) as H'.
  by destruct (fold_left _ _ _) as [e2 wc].
Qed.

(** C9: after any sequence of [index_text] calls and for every word [w],
    [hash_search] and [trie_search] return the same node: the terminal
    node that the descent along [w] reaches when [w] was indexed, and
    nothing when it was not; and a mapping that is set is never replaced,
    neither by [hash_insert] on the same word nor by indexing more text. *)
Theorem C9_lookup_index_agrees_with_trie inputs w :
  let e := engine_of inputs in
  hash_search e w = trie_search (heap e) (trie_root e) w
  /\ (was_indexed w inputs <->
      exists p nd, hash_search e w = Some p
                   /\ trie_descend (heap e) (trie_root e) w = Some p
                   /\ heap e !! p = Some nd /\ is_end nd = true)
  /\ (~ was_indexed w inputs <->
      hash_search e w = None /\ trie_search (heap e) (trie_root e) w = None)
  /\ (forall p node, hash_search e w = Some p ->
        hash_search (hash_insert e w node) w = Some p)
  /\ (forall p name text, hash_search e w = Some p ->
        hash_search (index_text e name text).1 w = Some p).
Proof.
  intros e. destruct (engine_of_inv inputs) as [L Hinv]. fold e in Hinv.
  pose proof (hash_search_trie_search e L _ w Hinv) as Heq.
  pose proof (inv_wf _ _ _ Hinv) as Hwf.
  assert (Hiff : was_indexed w inputs <-> is_Some (hash_search e w)).
  { rewrite <- indexed_corpus. split; [apply Hinv|].
    intros [q Hq]. by apply (inv_hash_sound _ _ _ Hinv) in Hq as [_ ?]. }
  split; [done|]. split; [|split; [|split]].
  - rewrite Hiff. split.
    + intros [q Hs]. rewrite Hs in Heq. symmetry in Heq.
      unfold trie_search in Heq.
      destruct (trie_descend _ _ w) as [q'|]; [|done].
      cbn [mbind option_bind] in Heq.
      destruct (heap e !! q') as [nd|] eqn:Hnd; [|done].
      cbn [mbind option_bind] in Heq.
      destruct (is_end nd) eqn:He; [|done]. injection Heq as ->.
      by exists q, nd.
    + intros (p & _ & Hs & _). by exists p.
  - rewrite Hiff, <- Heq. split.
    + intros Hn. destruct (hash_search e w); [|done].
      exfalso. by apply Hn.
    + intros [-> _] [? ?]. done.
  - intros p node Hs. by apply hash_search_insert_stable.
  - intros p name text Hs. by apply index_text_hash_stable.
Qed.

(** ** The document registry *)

Lemma Forall_elem {A} {P : A -> Prop} {l : list A} {x} : Forall P l -> x ∈ l -> P x.
Proof. intros H. by apply Forall_forall. Qed.

Lemma get_document_in_elem l d doc :
  get_document_in l d = Some doc -> id doc = d /\ doc ∈ l.
Proof.
  induction l as [|x l IH]; simpl; [done|].
  destruct (Z.eqb_spec (id x) d) as [Heq|Hne].
  - intros [= <-]. split; [done | by left].
  - intros H. destruct (IH H) as [? ?]. split; [done | by right].
Qed.

Lemma documents_of_ids adocs doc :
  doc ∈ documents_of adocs -> 0 <= id doc < Z.of_nat (length adocs).
Proof.
  induction adocs as [|d older IH]; simpl.
  - by intros ?%elem_of_nil.
  - intros [->|H]%elem_of_cons; simpl; [lia|]. specialize (IH H). lia.
Qed.

Lemma documents_of_get adocs doc :
  doc ∈ documents_of adocs -> get_document_in (documents_of adocs) (id doc) = Some doc.
Proof.
  induction adocs as [|d older IH]; simpl.
  - by intros ?%elem_of_nil.
  - intros [->|H]%elem_of_cons; simpl.
    + by rewrite Z.eqb_refl.
    + pose proof (documents_of_ids _ _ H).
      destruct (Z.eqb_spec (Z.of_nat (length older)) (id doc)); [lia|]. by apply IH.
Qed.

Lemma documents_of_range adocs i :
  0 <= i < Z.of_nat (length adocs) ->
  exists doc, get_document_in (documents_of adocs) i = Some doc.
Proof.
  induction adocs as [|d older IH]; simpl; [lia|]. intros Hi.
  destruct (Z.eqb_spec (Z.of_nat (length older)) i); [by eexists|].
  apply IH. lia.
Qed.

Lemma documents_of_length adocs : length (documents_of adocs) = length adocs.
Proof. induction adocs as [|d older IH]; simpl; [done | by rewrite IH]. Qed.

(** Every entry of an occurrence list names a registered document, with
    the frequency of the word in that document. *)
Lemma occurrences_documents w adocs dn :
  dn ∈ occurrences w adocs ->
  exists d, d ∈ adocs
    /\ get_document_in (documents_of adocs) (doc_id dn)
       = Some {| id := doc_id dn; filename := a_name d; word_count := a_count d |}
    /\ frequency dn = occ w (a_words d) /\ 0 < frequency dn.
Proof.
  induction adocs as [|d older IH]; cbn [occurrences documents_of].
  - by intros ?%elem_of_nil.
  - intros [Hin|Hin]%elem_of_app.
    + destruct (Z.ltb_spec 0 (occ w (a_words d))) as [Hpos|]; [|by apply elem_of_nil in Hin].
      apply list_elem_of_singleton in Hin as ->. exists d. cbn.
      rewrite Z.eqb_refl. split; [by left | done].
    + destruct (IH Hin) as (d' & Hd' & Hget & Hf & Hpos).
      exists d'. split; [by right|].
      pose proof (Forall_elem (occurrences_ids w older) Hin) as Hr.
      cbn [get_document_in id]. cbn beta in Hr.
      destruct (Z.eqb_spec (Z.of_nat (length older)) (doc_id dn)); [lia | done].
Qed.

Lemma occurrences_nodup w adocs : NoDup (map doc_id (occurrences w adocs)).
Proof.
  induction adocs as [|d older IH]; cbn [occurrences]; [constructor|].
  rewrite map_app. apply NoDup_app. split; [|split; [|done]].
  - destruct (0 <? occ w (a_words d)); [apply NoDup_singleton | constructor].
  - intros x Hx Hx'.
    destruct (0 <? occ w (a_words d)); [|by apply elem_of_nil in Hx].
    apply list_elem_of_singleton in Hx as ->.
    apply list_elem_of_fmap in Hx' as (dn & Heq & Hdn).
    pose proof (Forall_elem (occurrences_ids w older) Hdn) as Hr.
    cbn in Heq, Hr. lia.
Qed.

(** ** Word frequency of absent and present words (claim C6) *)

Lemma normalize_query_defined w :
  (length w < MAX_WORD_LEN - 1)%nat -> normalize_query w = Some (normalize_word w).
Proof.
  intros H. unfold normalize_query, query_buffer.
  destruct (Nat.ltb_spec (length w) (MAX_WORD_LEN - 1)); [done | lia].
Qed.

Lemma normalize_query_Some w normalized :
  normalize_query w = Some normalized ->
  (length w < MAX_WORD_LEN - 1)%nat /\ normalized = normalize_word w.
Proof.
  unfold normalize_query, query_buffer.
  destruct (Nat.ltb_spec (length w) (MAX_WORD_LEN - 1)); [|done].
  by intros [= <-].
Qed.

Lemma hash_search_valid e L adocs w p :
  engine_inv e L adocs -> hash_search e w = Some p ->
  exists nd, heap e !! p = Some nd
    /\ doc_list nd = occurrences w adocs /\ total_freq nd = total w adocs
    /\ word_ok w.
Proof.
  intros Hinv Hs. destruct (inv_hash_sound _ _ _ Hinv _ _ Hs) as [Hp Hi].
  destruct (lookup_lt_is_Some_2 (heap e) p) as [nd Hnd].
  { rewrite <- (wf_length _ _ (inv_wf _ _ _ Hinv)). by eapply lookup_lt_Some. }
  destruct (inv_node _ _ _ Hinv _ _ _ Hp Hnd) as (H1 & H2 & _).
  exists nd. repeat split; try done.
  - destruct Hi as (d & Hd & Hw).
    pose proof (Forall_elem (inv_words _ _ _ Hinv) Hd) as Hws.
    by apply (Forall_elem Hws Hw).
  - destruct Hi as (d & Hd & Hw).
    pose proof (Forall_elem (inv_words _ _ _ Hinv) Hd) as Hws.
    by apply (Forall_elem Hws Hw).
Qed.

(** What [output_freq_result] returns for a query word that fits its
    buffer (fewer than 99 bytes, the case in which [normalize_query] is
    defined).  If the normalized form is absent from the lookup index
    (which is the case of every normalized form shorter than two
    characters, the empty one included), the result is [found = false],
    [total_freq = 0], no documents; if it is present, the result is the
    node's [total_freq] and one entry per node of the occurrence list, each
    for a different registered document. *)
Lemma output_freq_result_spec e w normalized :
  reachable e -> normalize_query w = Some normalized ->
  (hash_search e normalized = None ->
     output_freq_result e w
     = Some {| freq_word := normalized; freq_found := false;
               freq_total := 0; freq_documents := [] |})
  /\ ((length normalized < 2)%nat -> hash_search e normalized = None)
  /\ (forall node, hash_search e normalized = Some node ->
        exists nd, heap e !! node = Some nd
          /\ output_freq_result e w
             = Some {| freq_word := normalized; freq_found := true;
                       freq_total := total_freq nd;
                       freq_documents :=
                         map (fun doc =>
                                (doc_id doc,
                                 doc_filename (get_document e (doc_id doc))
                                              (cstr "unknown"),
                                 frequency doc)) (doc_list nd) |}
          /\ NoDup (map doc_id (doc_list nd))
          /\ Forall (fun doc => exists info, get_document e (doc_id doc) = Some info
                                              /\ id info = doc_id doc)
                    (doc_list nd)).
Proof.
  intros Hr Hn. destruct (reachable_inv e Hr) as (L & adocs & Hinv & _).
  unfold output_freq_result. rewrite Hn. cbn [mbind option_bind].
  split; [by intros ->|]. split.
  - intros Hlen. destruct (hash_search e normalized) as [p|] eqn:Hs; [|done].
    destruct (hash_search_valid _ _ _ _ _ Hinv Hs) as (_ & _ & _ & _ & _ & Hl).
    lia.
  - intros node Hs. rewrite Hs.
    destruct (hash_search_valid _ _ _ _ _ Hinv Hs) as (nd & Hnd & Hl & _ & _).
    exists nd. rewrite Hnd. cbn [mbind option_bind].
    split; [done|]. split; [done|]. rewrite Hl. split.
    + apply occurrences_nodup.
    + apply Forall_forall. intros dn Hdn.
      destruct (occurrences_documents _ _ _ Hdn) as (d & _ & Hget & _).
      unfold get_document. rewrite (inv_documents _ _ _ Hinv), Hget.
      by eexists.
Qed.

Example output_freq_result_absent :
  output_freq_result small_engine (cstr "X-ray!")
  = Some {| freq_word := cstr "xray"; freq_found := false;
            freq_total := 0; freq_documents := [] |}.
Proof.
  apply (output_freq_result_spec small_engine (cstr "X-ray!") (cstr "xray")
           small_engine_reachable eq_refl).
  vm_compute. reflexivity.
Qed.

(** C6: [output_freq_result] has no defined result for a query word of 99
    bytes, absent or present.  The function copies at most 99 bytes into
    [normalized] and, unlike [index_word], does not write the terminator
    after them, so [normalize_word] scans past the copied bytes.  On the
    one-document engine the word of 99 letters [z] is absent from the
    lookup index, and its query has no result where [found = false] is
    expected; on the engine that indexed the word of 99 letters [a] that
    word is present, and its query has no result either.  The same holds
    of [show_word_frequency]. *)
Theorem C6_long_query_word :
  hash_search small_engine (normalize_word (replicate 99 "z"%char)) = None
  /\ output_freq_result small_engine (replicate 99 "z"%char) = None
  /\ show_word_frequency small_engine (replicate 99 "z"%char) = None
  /\ (exists node nd, hash_search long_engine (normalize_word long_word) = Some node
                      /\ heap long_engine !! node = Some nd
                      /\ total_freq nd = 1)
  /\ output_freq_result long_engine long_word = None
  /\ show_word_frequency long_engine long_word = None.
Proof.
  split; [by vm_compute|]. split; [by vm_compute|]. split; [by vm_compute|].
  split; [|split; by vm_compute].
  destruct (hash_search long_engine (normalize_word long_word)) as [node|] eqn:Hs;
    [|by vm_compute in Hs].
  destruct (heap long_engine !! node) as [nd|] eqn:Hnd.
  - exists node, nd. split; [done|]. split; [done|].
    revert Hs Hnd. vm_compute. intros [= <-] [= <-]. reflexivity.
  - revert Hs Hnd. vm_compute. intros [= <-]. discriminate.
Qed.

(** ** Term frequency never divides by zero (claim C8) *)

Lemma occurrence_word_count e L adocs w dn :
  engine_inv e L adocs -> counts_ok adocs -> dn ∈ occurrences w adocs ->
  exists info, get_document e (doc_id dn) = Some info
    /\ 0 < frequency dn <= word_count info.
Proof.
  intros Hinv Hc Hdn.
  destruct (occurrences_documents _ _ _ Hdn) as (d & Hd & Hget & Hf & Hpos).
  eexists. unfold get_document. rewrite (inv_documents _ _ _ Hinv).
  split; [exact Hget|]. cbn [word_count].
  pose proof (Forall_elem Hc Hd) as Hle. cbn beta in Hle.
  pose proof (occ_le_length w (a_words d)). lia.
Qed.

(** C8: in the breakdown printed by [show_word_frequency], every line is
    the quotient of the document's frequency by its [word_count], and that
    [word_count] is at least the frequency, hence nonzero: the division
    never meets a zero divisor.  The same bound holds for the [frequency]
    and [word_count] that [output_search_result] hands to its caller. *)
Theorem C8_term_frequency_divisor_nonzero e w normalized :
  reachable e -> normalize_query w = Some normalized ->
  (exists r, show_word_frequency e w = Some r)
  /\ (forall total_ breakdown,
        show_word_frequency e w = Some (WordStats normalized total_ breakdown) ->
        Forall (fun line =>
                  exists count_, line.2 = TF_quotient line.1.2 count_
                                 /\ 0 < line.1.2 <= count_)
               breakdown)
  /\ (forall node nd doc, hash_search e normalized = Some node ->
        heap e !! node = Some nd -> doc ∈ doc_list nd ->
        exists info, get_document e (doc_id doc) = Some info
                     /\ word_count info <> 0)
  /\ (forall r, output_search_result e w = Some r ->
        Forall (fun result => 0 < result.1.2 <= result.2) (search_results r)).
Proof.
  intros Hr Hn. destruct (reachable_inv e Hr) as (L & adocs & Hinv & Hc).
  unfold show_word_frequency, output_search_result.
  rewrite Hn. cbn [mbind option_bind].
  destruct (hash_search e normalized) as [node|] eqn:Hs.
  - destruct (hash_search_valid _ _ _ _ _ Hinv Hs) as (nd & Hnd & Hl & _ & _).
    rewrite Hnd. cbn [mbind option_bind]. split; [by eexists|].
    split; [|split].
    + intros total_ breakdown [= _ <-]. apply Forall_forall.
      intros line Hline. apply list_elem_of_fmap in Hline as (dn & -> & Hdn).
      rewrite Hl in Hdn.
      destruct (occurrence_word_count _ _ _ _ _ Hinv Hc Hdn) as (info & Hget & Hpos).
      rewrite Hget. cbn [fst snd term_frequency].
      destruct (Z.eqb_spec (word_count info) 0); [lia|]. by eexists.
    + intros node' nd' dn [= <-] Hnd' Hdn. rewrite Hnd in Hnd'.
      injection Hnd' as <-. rewrite Hl in Hdn.
      destruct (occurrence_word_count _ _ _ _ _ Hinv Hc Hdn) as (info & Hget & Hpos).
      exists info. split; [done | lia].
    + intros r [= <-]. cbn [search_results]. apply Forall_forall.
      intros result Hres. apply list_elem_of_fmap in Hres as (dn & -> & Hdn).
      rewrite Hl in Hdn.
      destruct (occurrence_word_count _ _ _ _ _ Hinv Hc Hdn) as (info & Hget & Hpos).
      rewrite Hget. cbn [fst snd]. lia.
  - split; [by eexists|]. split; [done|]. split; [done|].
    intros r [= <-]. constructor.
Qed.

Lemma C8_term_frequency_divisor_nonzero_witness :
  reachable small_engine
  /\ normalize_query (cstr "AB") = Some (cstr "ab")
  /\ exists r, show_word_frequency small_engine (cstr "AB") = Some r.
Proof.
  split; [apply small_engine_reachable|]. split; [reflexivity|].
  apply (C8_term_frequency_divisor_nonzero small_engine (cstr "AB") (cstr "ab")
           small_engine_reachable eq_refl).
Defined.

(** ** Multi-keyword search with no keyword (claim C10) *)

Lemma omap_all_some {A B} (f : A -> option B) (g : A -> B) (l : list A) :
  (forall x, x ∈ l -> f x = Some (g x)) -> omap f l = map g l.
Proof.
  induction l as [|x l IH]; intros H; [done|].
  change (omap f (x :: l))
    with (match f x with Some y => y :: omap f l | None => omap f l end).
  rewrite (H x) by by left. cbn [map]. f_equal. apply IH.
  intros y Hy. apply H. by right.
Qed.

Lemma search_multi_no_keyword e :
  search_multi e []
  = Some (MultiMatches
            (map (fun i : nat =>
                    (doc_filename (get_document e (Z.of_nat i)) (cstr "Unknown"),
                     Z.of_nat i, 0))
                 (seq 0 (Z.to_nat (doc_count e))))).
Proof.
  unfold search_multi. cbn [search_multi_loop mbind option_bind length].
  do 2 f_equal. unfold display_matches. apply omap_all_some.
  intros i Hi. apply elem_of_seq in Hi.
  rewrite lookup_replicate_2 by lia. cbn [default].
  by rewrite decide_True.
Qed.

(** C10: with an empty keyword list, [search_multi] reports every
    registered document, once, by increasing identifier, each with score 0. *)
Theorem C10_no_keyword_matches_every_document e :
  reachable e ->
  exists l, search_multi e [] = Some (MultiMatches l)
    /\ (forall doc, doc ∈ documents e -> (filename doc, id doc, 0) ∈ l)
    /\ (forall x, x ∈ l ->
          exists doc, doc ∈ documents e /\ x = (filename doc, id doc, 0))
    /\ map (fun x => x.1.2) l = map Z.of_nat (seq 0 (length (documents e))).
Proof.
  intros Hr. destruct (reachable_inv e Hr) as (L & adocs & Hinv & _).
  eexists. split; [apply search_multi_no_keyword|].
  pose proof (inv_documents _ _ _ Hinv) as Hdocs.
  pose proof (inv_count _ _ _ Hinv) as Hcount.
  split; [|split].
  - intros doc Hdoc. rewrite Hdocs in Hdoc.
    pose proof (documents_of_ids _ _ Hdoc) as Hid.
    apply list_elem_of_fmap. exists (Z.to_nat (id doc)). split.
    + unfold get_document. rewrite Hdocs, Z2Nat.id by lia.
      by rewrite (documents_of_get _ _ Hdoc).
    + apply elem_of_seq. lia.
  - intros x Hx. apply list_elem_of_fmap in Hx as (i & -> & Hi).
    apply elem_of_seq in Hi.
    destruct (documents_of_range adocs (Z.of_nat i)) as [doc Hdoc]; [lia|].
    unfold get_document. rewrite Hdocs, Hdoc. cbn [doc_filename].
    apply get_document_in_elem in Hdoc as [<- Hin]. by exists doc.
  - rewrite map_map. cbn [fst snd]. rewrite Hdocs, documents_of_length.
    rewrite Hcount, Nat2Z.id. done.
Qed.

Lemma C10_no_keyword_matches_every_document_witness :
  reachable small_engine
  /\ exists l, search_multi small_engine [] = Some (MultiMatches l)
       /\ (forall doc, doc ∈ documents small_engine -> (filename doc, id doc, 0) ∈ l).
Proof.
  split; [apply small_engine_reachable|].
  destruct (C10_no_keyword_matches_every_document small_engine small_engine_reachable)
    as (l & H1 & H2 & _).
  exists l. split; [exact H1 | exact H2].
Defined.

(** ** Short tokens are counted but not indexed (claim C5) *)

Lemma indexed_form_indexable token :
  indexed_form token
  = if is_indexable token
    then Some (normalize_word (take (MAX_WORD_LEN - 1) token)) else None.
Proof.
  unfold indexed_form, is_indexable. by destruct (length _ <? 2)%nat.
Qed.

(** Cutting a token to the buffer size can only shorten its normal form. *)
Lemma normalize_word_take_length n w :
  (length (normalize_word (take n w)) <= length (normalize_word w))%nat.
Proof.
  revert n. induction w as [|c w IH]; intros n.
  - destruct n; simpl; lia.
  - destruct n as [|n]; simpl; [lia|].
    specialize (IH n). destruct (isalpha c); simpl; lia.
Qed.

Lemma index_word_short e token d :
  is_indexable token = false -> index_word e token d = e.
Proof.
  intros H. apply index_word_skip. by rewrite indexed_form_indexable, H.
Qed.

(** The discarded tokens change nothing but the running count. *)
Lemma index_tokens_loop_filter d tokens : forall e c0,
  let step := fun '(e, word_count) token =>
                (index_word e token d, word_count + 1) in
  (fold_left step tokens (e, c0)).1
  = (fold_left step (List.filter is_indexable tokens) (e, 0)).1
  /\ (fold_left step tokens (e, c0)).2 = c0 + Z.of_nat (length tokens).
Proof.
  intros e c0 step. revert e c0.
  assert (Hfst : forall l e c c', (fold_left step l (e, c)).1 = (fold_left step l (e, c')).1).
  { induction l as [|t l IH]; intros e c c'; cbn [fold_left]; [done|]. apply IH. }
  induction tokens as [|t tokens IH]; intros e c0.
  - cbn. split; [done | lia].
  - cbn [fold_left List.filter]. unfold step at 2 5. cbn beta iota.
    destruct (IH (index_word e t d) (c0 + 1)) as [H1 H2].
    split.
    + destruct (is_indexable t) eqn:Ht.
      * cbn [fold_left]. unfold step at 3. cbn beta iota.
        rewrite H1. apply Hfst.
      * rewrite H1. by rewrite (index_word_short e t d Ht).
    + rewrite H2, length_cons. lia.
Qed.

Lemma index_text_snd e name text : (index_text e name text).2 = doc_count e.
Proof.
  unfold index_text. destruct (index_tokens _ _ _) as [e2 wc].
  cbn [snd add_document doc_count]. lia.
Qed.

Lemma index_text_kept e name text :
  let kept := List.filter is_indexable (tokenize text) in
  let e' := (index_text e name text).1 in
  heap e' = heap (index_tokens (add_document e name) kept (doc_count e)).1
  /\ hash_table e' = hash_table (index_tokens (add_document e name) kept (doc_count e)).1.
Proof.
  intros kept e'. unfold e', kept, index_text, index_tokens.
  replace (doc_count (add_document e name) - 1) with (doc_count e)
    by (cbn [add_document doc_count]; lia).
  destruct (index_tokens_loop_filter (doc_count e)
              (tokenize text) (add_document e name) 0) as [H1 _].
  cbn zeta in H1. rewrite <- H1.
  by destruct (fold_left _ (tokenize text) _) as [e2 wc].
Qed.

Lemma engine_inv_short_absent e L adocs w :
  engine_inv e L adocs -> (length w < 2)%nat ->
  hash_search e w = None /\ trie_search (heap e) (trie_root e) w = None.
Proof.
  intros Hinv Hlen. rewrite <- (hash_search_trie_search _ _ _ _ Hinv).
  destruct (hash_search e w) as [p|] eqn:Hs; [|done].
  destruct (hash_search_valid _ _ _ _ _ Hinv Hs) as (_ & _ & _ & _ & _ & Hl). lia.
Qed.

(** C5: a token whose normalized form has fewer than two characters (be it
    the form of the whole token or of its first 99 bytes, which is the one
    [index_word] computes) leaves the engine untouched, so the trie and the
    lookup index after [index_text] are those obtained from the other
    tokens alone and hold no word shorter than two characters; the
    document's [word_count] is nevertheless set to the number of all tokens
    of the text. *)
Theorem C5_short_tokens_counted_not_indexed e name text :
  reachable e ->
  let e' := (index_text e name text).1 in
  let d := (index_text e name text).2 in
  let kept := List.filter is_indexable (tokenize text) in
  (forall e0 token d0,
     (length (normalize_word token) < 2)%nat
     \/ (length (normalize_word (take (MAX_WORD_LEN - 1) token)) < 2)%nat ->
     index_word e0 token d0 = e0)
  /\ heap e' = heap (index_tokens (add_document e name) kept d).1
  /\ hash_table e' = hash_table (index_tokens (add_document e name) kept d).1
  /\ (forall w, (length w < 2)%nat ->
        hash_search e' w = None /\ trie_search (heap e') (trie_root e') w = None)
  /\ get_document e' d
     = Some {| id := d; filename := name;
               word_count := Z.of_nat (length (tokenize text)) |}.
Proof.
  intros Hr e' d kept.
  destruct (reachable_inv e Hr) as (L & adocs & Hinv & _).
  destruct (index_text_inv e L adocs name text Hinv) as (Hd & Lnew & Hinv').
  fold e' in Hinv'. fold d in Hd.
  split; [|split; [|split; [|split]]].
  - intros e0 token d0 Hlen. apply index_word_short. unfold is_indexable.
    pose proof (normalize_word_take_length (MAX_WORD_LEN - 1) token) as Htake.
    by destruct (Nat.ltb_spec (length (normalize_word (take (MAX_WORD_LEN - 1) token))) 2);
      [|lia].
  - unfold d. rewrite index_text_snd. apply index_text_kept.
  - unfold d. rewrite index_text_snd. apply index_text_kept.
  - intros w Hlen. by eapply engine_inv_short_absent.
  - unfold get_document. rewrite (inv_documents _ _ _ Hinv').
    cbn [documents_of get_document_in id adoc_of a_name a_count].
    rewrite Hd, Z.eqb_refl. done.
Qed.

Lemma C5_short_tokens_counted_not_indexed_witness :
  reachable create_search_engine
  /\ heap (index_text create_search_engine (cstr "d") (cstr "a I")).1
     = heap create_search_engine
  /\ get_document (index_text create_search_engine (cstr "d") (cstr "a I")).1 0
     = Some {| id := 0; filename := cstr "d"; word_count := 2 |}.
Proof.
  split; [apply reachable_create|].
  destruct (C5_short_tokens_counted_not_indexed create_search_engine
              (cstr "d") (cstr "a I") reachable_create) as (_ & H1 & _ & _ & H2).
  split; [exact H1 | exact H2].
Defined.

(** ** Insertion order independence (claim C7) *)


Lemma indexed_decide e L adocs w :
  engine_inv e L adocs -> indexed w adocs \/ ~ indexed w adocs.
Proof.
  intros Hinv. destruct (hash_search e w) as [p|] eqn:Hs.
  - left. by destruct (inv_hash_sound _ _ _ Hinv _ _ Hs).
  - right. intros Hi. destruct (inv_hash_complete _ _ _ Hinv _ Hi) as [p Hp].
    congruence.
Qed.

Lemma freq_result_found e L adocs w normalized :
  engine_inv e L adocs -> normalize_query w = Some normalized ->
  indexed normalized adocs ->
  output_freq_result e w
  = Some {| freq_word := normalized; freq_found := true;
            freq_total := total normalized adocs;
            freq_documents :=
              map (fun doc =>
                     (doc_id doc,
                      doc_filename
                        (get_document_in (documents_of adocs) (doc_id doc))
                        (cstr "unknown"),
                      frequency doc))
                  (occurrences normalized adocs) |}.
Proof.
  intros Hinv Hn Hi. unfold output_freq_result. rewrite Hn. cbn [mbind option_bind].
  destruct (inv_hash_complete _ _ _ Hinv _ Hi) as [p Hs]. rewrite Hs.
  destruct (hash_search_valid _ _ _ _ _ Hinv Hs) as (nd & Hnd & Hl & Ht & _).
  rewrite Hnd. cbn [mbind option_bind]. unfold get_document.
  by rewrite Hl, Ht, (inv_documents _ _ _ Hinv).
Qed.

Lemma freq_result_absent e L adocs w normalized :
  engine_inv e L adocs -> normalize_query w = Some normalized ->
  ~ indexed normalized adocs ->
  output_freq_result e w
  = Some {| freq_word := normalized; freq_found := false;
            freq_total := 0; freq_documents := [] |}.
Proof.
  intros Hinv Hn Hi. unfold output_freq_result. rewrite Hn. cbn [mbind option_bind].
  destruct (hash_search e normalized) as [p|] eqn:Hs; [|done].
  exfalso. apply Hi. by destruct (inv_hash_sound _ _ _ Hinv _ _ Hs).
Qed.


(** ** Multi-keyword search (claims C2 and C3) *)

Lemma entry_count_cons dn l d :
  entry_count (dn :: l) d = (if doc_id dn =? d then 1 else 0) + entry_count l d.
Proof. done. Qed.

Lemma entry_frequency_cons dn l d :
  entry_frequency (dn :: l) d
  = (if doc_id dn =? d then frequency dn else 0) + entry_frequency l d.
Proof. done. Qed.

(** [int] arithmetic: a value in range is kept, and wrapping the partial
    sums gives the wrapped total. *)
Lemma int_wrap_small z : - 2 ^ 31 <= z <= INT_MAX -> int_wrap z = z.
Proof.
  unfold int_wrap, INT_MAX. intros Hz. rewrite Z.mod_small by lia. lia.
Qed.

Lemma int_wrap_range z : - 2 ^ 31 <= int_wrap z <= INT_MAX.
Proof.
  unfold int_wrap, INT_MAX.
  pose proof (Z.mod_pos_bound (z + 2 ^ 31) (2 ^ 32) ltac:(lia)). lia.
Qed.

Lemma int_wrap_add a b : int_wrap (int_wrap a + b) = int_wrap (a + b).
Proof.
  unfold int_wrap. f_equal.
  replace ((a + 2 ^ 31) mod 2 ^ 32 - 2 ^ 31 + b + 2 ^ 31)
    with ((a + 2 ^ 31) mod 2 ^ 32 + b) by lia.
  rewrite Zplus_mod_idemp_l. f_equal. lia.
Qed.

(** The arrays of [search_multi] hold the wrapped value of an exact sum. *)
Lemma holds_zeros n : holds n (replicate n 0) (fun _ => int_wrap 0).
Proof.
  split; [apply length_replicate|]. intros i Hi. by apply lookup_replicate_2.
Qed.

Lemma array_add_holds n arr f i by_ :
  holds n arr (fun j => int_wrap (f j)) -> 0 <= i < Z.of_nat n ->
  exists arr', array_add arr i by_ = Some arr'
    /\ holds n arr'
         (fun j => int_wrap (f j + (if Z.of_nat j =? i then by_ else 0))).
Proof.
  intros [Hlen Hf] Hi. unfold array_add. rewrite Hlen.
  destruct (Z.leb_spec 0 i); [|lia]. destruct (Z.ltb_spec i (Z.of_nat n)); [|lia].
  eexists. split; [done|]. split; [by rewrite length_alter|].
  intros j Hj. destruct (Z.eqb_spec (Z.of_nat j) i) as [Heq|Hne].
  - replace (Z.to_nat i) with j by lia.
    rewrite list_lookup_alter_eq, (Hf j Hj). cbn [fmap option_fmap option_map].
    by rewrite int_wrap_add.
  - rewrite list_lookup_alter_ne by lia. rewrite (Hf j Hj). do 2 f_equal. lia.
Qed.

Lemma holds_ext n arr f g :
  holds n arr f -> (forall i, (i < n)%nat -> f i = g i) -> holds n arr g.
Proof.
  intros [Hlen Hf] Hfg. split; [done|]. intros i Hi. rewrite <- Hfg by done.
  by apply Hf.
Qed.

Lemma accumulate_holds n l : forall scores matches s m,
  Forall (fun dn => 0 <= doc_id dn < Z.of_nat n) l ->
  holds n scores (fun i => int_wrap (s i)) ->
  holds n matches (fun i => int_wrap (m i)) ->
  exists scores' matches',
    accumulate l scores matches = Some (scores', matches')
    /\ holds n scores'
         (fun i => int_wrap (s i + entry_frequency l (Z.of_nat i)))
    /\ holds n matches'
         (fun i => int_wrap (m i + entry_count l (Z.of_nat i))).
Proof.
  induction l as [|dn l IH]; intros scores matches s m Hl Hs Hm.
  - exists scores, matches. split; [done|]. cbn [entry_frequency entry_count foldr].
    split; (eapply holds_ext; [eassumption|]); intros; cbn beta; f_equal; lia.
  - apply Forall_cons in Hl as [Hdn Hl]. cbn [accumulate].
    destruct (array_add_holds _ _ _ _ 1 Hm Hdn) as (matches1 & -> & Hm1).
    destruct (array_add_holds _ _ _ _ (frequency dn) Hs Hdn) as (scores1 & -> & Hs1).
    cbn [mbind option_bind].
    destruct (IH _ _ _ _ Hl Hs1 Hm1) as (scores' & matches' & -> & Hs' & Hm').
    exists scores', matches'. split; [done|].
    split; (eapply holds_ext; [eassumption|]); intros i Hi; cbn beta; f_equal;
      rewrite ?entry_frequency_cons, ?entry_count_cons, (Z.eqb_sym (Z.of_nat i));
      destruct (doc_id dn =? Z.of_nat i); lia.
Qed.

Lemma total_over_cons kw keywords f :
  total_over (kw :: keywords) f = f kw + total_over keywords f.
Proof. done. Qed.

Lemma known_keyword_docs e L adocs kw :
  engine_inv e L adocs -> known e kw ->
  exists normalized node nd,
    normalize_query kw = Some normalized /\ hash_search e normalized = Some node
    /\ heap e !! node = Some nd
    /\ keyword_docs e kw = Some (doc_list nd)
    /\ doc_list nd = occurrences normalized adocs.
Proof.
  intros Hinv (n & node & Hn & Hs).
  destruct (hash_search_valid _ _ _ _ _ Hinv Hs) as (nd & Hnd & Hl & _).
  exists n, node, nd. unfold keyword_docs. rewrite Hn. cbn [mbind option_bind].
  rewrite Hs. cbn [mbind option_bind]. by rewrite Hnd.
Qed.

Lemma search_multi_loop_all_known e L adocs keywords :
  engine_inv e L adocs ->
  forall scores matches s m,
  Forall (known e) keywords ->
  holds (length adocs) scores (fun i => int_wrap (s i)) ->
  holds (length adocs) matches (fun i => int_wrap (m i)) ->
  exists scores' matches',
    search_multi_loop e keywords scores matches = Some (inr (scores', matches'))
    /\ holds (length adocs) scores'
         (fun i => int_wrap
                     (s i + total_over keywords
                              (fun kw => entry_frequency (docs_of_keyword e kw)
                                           (Z.of_nat i))))
    /\ holds (length adocs) matches'
         (fun i => int_wrap
                     (m i + total_over keywords
                              (fun kw => entry_count (docs_of_keyword e kw)
                                           (Z.of_nat i)))).
Proof.
  intros Hinv. induction keywords as [|kw keywords IH]; intros scores matches s m Hk Hs Hm.
  - exists scores, matches. split; [done|]. cbn [total_over foldr].
    split; (eapply holds_ext; [eassumption|]); intros; cbn beta; f_equal; lia.
  - apply Forall_cons in Hk as [Hkw Hk].
    destruct (known_keyword_docs _ _ _ _ Hinv Hkw)
      as (n & node & nd & Hn & Hsearch & Hnd & Hdocs & Hocc).
    cbn [search_multi_loop]. rewrite Hn. cbn [mbind option_bind].
    rewrite Hsearch, Hnd. cbn [mbind option_bind].
    assert (Hrange : Forall (fun dn => 0 <= doc_id dn < Z.of_nat (length adocs))
                            (doc_list nd)).
    { rewrite Hocc. apply occurrences_ids. }
    destruct (accumulate_holds _ _ _ _ _ _ Hrange Hs Hm)
      as (scores1 & matches1 & -> & Hs1 & Hm1).
    cbn [mbind option_bind].
    destruct (IH _ _ _ _ Hk Hs1 Hm1) as (scores' & matches' & -> & Hs' & Hm').
    exists scores', matches'. split; [done|].
    assert (Hd : docs_of_keyword e kw = doc_list nd).
    { unfold docs_of_keyword. by rewrite Hdocs. }
    split; (eapply holds_ext; [eassumption|]); intros i Hi; cbn beta; f_equal;
      rewrite total_over_cons, Hd; lia.
Qed.

Lemma search_multi_loop_unknown e L adocs pre kw post normalized :
  engine_inv e L adocs ->
  forall scores matches s m,
  Forall (known e) pre ->
  normalize_query kw = Some normalized -> hash_search e normalized = None ->
  holds (length adocs) scores (fun i => int_wrap (s i)) ->
  holds (length adocs) matches (fun i => int_wrap (m i)) ->
  search_multi_loop e (pre ++ kw :: post) scores matches = Some (inl normalized).
Proof.
  intros Hinv. induction pre as [|k pre IH]; intros scores matches s m Hk Hn Hnone Hs Hm.
  - cbn [app search_multi_loop]. rewrite Hn. cbn [mbind option_bind].
    by rewrite Hnone.
  - apply Forall_cons in Hk as [Hkw Hk].
    destruct (known_keyword_docs _ _ _ _ Hinv Hkw)
      as (n & node & nd & Hn' & Hsearch & Hnd & Hdocs & Hocc).
    cbn [app search_multi_loop]. rewrite Hn'. cbn [mbind option_bind].
    rewrite Hsearch, Hnd. cbn [mbind option_bind].
    assert (Hrange : Forall (fun dn => 0 <= doc_id dn < Z.of_nat (length adocs))
                            (doc_list nd)).
    { rewrite Hocc. apply occurrences_ids. }
    destruct (accumulate_holds _ _ _ _ _ _ Hrange Hs Hm)
      as (scores1 & matches1 & -> & Hs1 & Hm1).
    cbn [mbind option_bind]. exact (IH _ _ _ _ Hk Hn Hnone Hs1 Hm1).
Qed.

(** The early return of [search_multi], for keywords that fit the buffer
    (fewer than 99 bytes each).  When a keyword has a normalized form
    without entry in the lookup index, and the keywords before it are
    known, [search_multi] returns at that keyword with the not-found
    outcome and reports no document at all; in particular this is the
    outcome whenever every keyword has a normalized form and any of them is
    unknown. *)
Lemma search_multi_unknown_keyword e keywords :
  reachable e ->
  (forall pre kw post normalized,
     keywords = pre ++ kw :: post -> Forall (known e) pre ->
     normalize_query kw = Some normalized -> hash_search e normalized = None ->
     search_multi e keywords = Some (KeywordNotFound normalized))
  /\ (Forall (fun kw => is_Some (normalize_query kw)) keywords ->
      Exists (fun kw => exists normalized,
                normalize_query kw = Some normalized
                /\ hash_search e normalized = None) keywords ->
      exists r, search_multi e keywords = Some r
                /\ reported_documents r = []
                /\ exists kw normalized,
                     kw ∈ keywords /\ normalize_query kw = Some normalized
                     /\ hash_search e normalized = None
                     /\ r = KeywordNotFound normalized).
Proof.
  intros Hr. destruct (reachable_inv e Hr) as (L & adocs & Hinv & _).
  assert (Hfirst : forall pre kw post normalized,
     keywords = pre ++ kw :: post -> Forall (known e) pre ->
     normalize_query kw = Some normalized -> hash_search e normalized = None ->
     search_multi e keywords = Some (KeywordNotFound normalized)).
  { intros pre kw post n -> Hpre Hn Hnone. unfold search_multi.
    rewrite (inv_count _ _ _ Hinv), Nat2Z.id.
    rewrite (search_multi_loop_unknown e L adocs pre kw post n Hinv _ _ _ _
               Hpre Hn Hnone (holds_zeros _) (holds_zeros _)).
    done. }
  split; [exact Hfirst|].
  intros Hall Hex.
  assert (Hsplit : exists pre kw post normalized,
            keywords = pre ++ kw :: post /\ Forall (known e) pre
            /\ normalize_query kw = Some normalized
            /\ hash_search e normalized = None).
  { clear Hfirst. induction keywords as [|k keywords IH]; [by apply Exists_nil in Hex|].
    apply Forall_cons in Hall as [[n Hn] Hall].
    destruct (hash_search e n) as [node|] eqn:Hs.
    - apply Exists_cons in Hex as [(n' & Hn' & Hnone)|Hex]; [congruence|].
      destruct (IH Hall Hex) as (pre & kw & post & n' & -> & Hpre & Hn' & Hnone).
      exists (k :: pre), kw, post, n'. split; [done|].
      split; [|done]. constructor; [by exists n, node | done].
    - by exists [], k, keywords, n. }
  destruct Hsplit as (pre & kw & post & n & Heq & Hpre & Hn & Hnone).
  exists (KeywordNotFound n). split; [by eapply Hfirst|]. split; [done|].
  exists kw, n. split; [|done]. rewrite Heq. apply elem_of_app. right. by left.
Qed.

Example search_multi_unknown_second :
  search_multi small_engine [cstr "ab"; cstr "Nope"; cstr "cd"]
  = Some (KeywordNotFound (cstr "nope")).
Proof.
  apply (proj1 (search_multi_unknown_keyword small_engine
                  [cstr "ab"; cstr "Nope"; cstr "cd"] small_engine_reachable)
               [cstr "ab"] (cstr "Nope") [cstr "cd"] (cstr "nope") eq_refl).
  - constructor; [|constructor].
    exists (cstr "ab"). eexists. split; [reflexivity | vm_compute; reflexivity].
  - reflexivity.
  - vm_compute. reflexivity.
Qed.

(** C3: [search_multi] has no defined result when a keyword of 99 bytes
    is in the list, whatever its normalized form.  The loop copies at most
    99 bytes of the keyword into [normalized] and, unlike [index_word],
    does not write the terminator after them, so [normalize_word] scans
    past the copied bytes.  On the one-document engine the word of 99
    letters [z] is absent from the lookup index, yet neither alone nor
    after a known keyword does it lead to the not-found outcome with an
    empty result. *)
Theorem C3_long_keyword :
  hash_search small_engine (normalize_word (replicate 99 "z"%char)) = None
  /\ search_multi small_engine [replicate 99 "z"%char] = None
  /\ known small_engine (cstr "ab")
  /\ search_multi small_engine [cstr "ab"; replicate 99 "z"%char] = None.
Proof.
  split; [by vm_compute|]. split; [by vm_compute|]. split; [|by vm_compute].
  exists (cstr "ab"). eexists. split; [reflexivity | vm_compute; reflexivity].
Qed.

Lemma entry_count_nodup l d :
  NoDup (map doc_id l) ->
  (entry_count l d = 1 /\ exists dn, dn ∈ l /\ doc_id dn = d)
  \/ (entry_count l d = 0 /\ forall dn, dn ∈ l -> doc_id dn <> d).
Proof.
  induction l as [|x l IH]; intros Hnd.
  - right. split; [done|]. by intros dn ?%elem_of_nil.
  - cbn [map] in Hnd. apply NoDup_cons in Hnd as [Hx Hnd].
    rewrite entry_count_cons.
    destruct (Z.eqb_spec (doc_id x) d) as [Heq|Hne].
    + left. destruct (IH Hnd) as [[_ (dn & Hdn & Hd)]|[H0 _]].
      * exfalso. apply Hx. rewrite Heq, <- Hd. by apply list_elem_of_fmap_2.
      * split; [lia|]. exists x. split; [by left | done].
    + destruct (IH Hnd) as [[H1 (dn & Hdn & Hd)]|[H0 Hall]].
      * left. split; [lia|]. exists dn. split; [by right | done].
      * right. split; [lia|]. intros dn [->|Hdn]%elem_of_cons; [done | by apply Hall].
Qed.

Lemma total_over_indicator keywords f :
  (forall kw, kw ∈ keywords -> f kw = 0 \/ f kw = 1) ->
  0 <= total_over keywords f <= Z.of_nat (length keywords)
  /\ (total_over keywords f = Z.of_nat (length keywords)
      <-> Forall (fun kw => f kw = 1) keywords).
Proof.
  induction keywords as [|kw keywords IH]; intros Hf.
  - cbn. split; [lia|]. split; [constructor | done].
  - rewrite total_over_cons, length_cons.
    destruct IH as [Hb Hiff]; [intros k Hk; apply Hf; by right|].
    pose proof (Hf kw ltac:(by left)) as Hkw.
    split; [lia|]. rewrite Forall_cons, <- Hiff. lia.
Qed.

Lemma omap_seq_sorted {A} (f : nat -> option A) (key : A -> Z) n : forall a,
  (forall i x, f i = Some x -> key x = Z.of_nat i) ->
  StronglySorted Z.lt (map key (omap f (seq a n))).
Proof.
  induction n as [|n IH]; intros a Hf; [constructor|].
  change (omap f (seq a (S n)))
    with (match f a with
          | Some x => x :: omap f (seq (S a) n)
          | None => omap f (seq (S a) n)
          end).
  destruct (f a) as [x|] eqn:Hx; [|by apply IH].
  cbn [map]. constructor; [by apply IH|].
  apply List.Forall_forall. intros k Hk. apply list_elem_of_In in Hk.
  apply list_elem_of_fmap in Hk as (y & -> & Hy).
  apply list_elem_of_omap in Hy as (i & Hi & Hfi).
  apply elem_of_seq in Hi. rewrite (Hf _ _ Hx), (Hf _ _ Hfi). lia.
Qed.

Lemma keyword_docs_report e L adocs kw :
  engine_inv e L adocs -> known e kw ->
  NoDup (map doc_id (docs_of_keyword e kw))
  /\ Forall (fun dn => 1 <= frequency dn) (docs_of_keyword e kw)
  /\ exists r, output_freq_result e kw = Some r
       /\ freq_found r = true
       /\ map (fun entry => (entry.1.1, entry.2)) (freq_documents r)
          = map (fun dn => (doc_id dn, frequency dn)) (docs_of_keyword e kw).
Proof.
  intros Hinv Hk.
  destruct (known_keyword_docs _ _ _ _ Hinv Hk)
    as (n & node & nd & Hn & Hsearch & Hnd & Hdocs & Hocc).
  unfold docs_of_keyword. rewrite Hdocs. cbn [default]. rewrite Hocc.
  split; [apply occurrences_nodup|]. split.
  - apply Forall_forall. intros dn Hdn.
    destruct (occurrences_documents _ _ _ Hdn) as (_ & _ & _ & _ & ?). lia.
  - unfold output_freq_result. rewrite Hn. cbn [mbind option_bind].
    rewrite Hsearch, Hnd. cbn [mbind option_bind]. eexists. split; [done|].
    cbn [freq_found freq_documents]. split; [done|].
    rewrite map_map, Hocc. done.
Qed.

Lemma entry_frequency_nonneg l d :
  Forall (fun dn => 1 <= frequency dn) l -> 0 <= entry_frequency l d.
Proof.
  induction 1 as [|dn l Hdn _ IH]; [done|]. rewrite entry_frequency_cons.
  destruct (doc_id dn =? d); lia.
Qed.

Lemma total_over_nonneg keywords (f : cstring -> Z) :
  (forall kw, kw ∈ keywords -> 0 <= f kw) -> 0 <= total_over keywords f.
Proof.
  induction keywords as [|kw keywords IH]; intros Hf; [done|].
  rewrite total_over_cons.
  pose proof (Hf kw ltac:(by left)).
  assert (0 <= total_over keywords f); [|lia].
  apply IH. intros k Hk. apply Hf. by right.
Qed.

Lemma match_count_range e L adocs keywords d :
  engine_inv e L adocs -> Forall (known e) keywords ->
  0 <= total_over keywords (fun kw => entry_count (docs_of_keyword e kw) d)
    <= Z.of_nat (length keywords).
Proof.
  intros Hinv Hk. apply total_over_indicator. intros kw Hkw.
  destruct (keyword_docs_report _ _ _ _ Hinv (Forall_elem Hk Hkw)) as (Hnd & _).
  destruct (entry_count_nodup _ d Hnd) as [[? _]|[? _]]; [by right | by left].
Qed.

Lemma combined_score_nonneg e L adocs keywords d :
  engine_inv e L adocs -> Forall (known e) keywords ->
  0 <= total_over keywords (fun kw => entry_frequency (docs_of_keyword e kw) d).
Proof.
  intros Hinv Hk. apply total_over_nonneg. intros kw Hkw.
  destruct (keyword_docs_report _ _ _ _ Hinv (Forall_elem Hk Hkw)) as (_ & Hf & _).
  by apply entry_frequency_nonneg.
Qed.

(** The documents shown by [search_multi] for known keywords, when the
    number of keywords is an [int]: the score shown is the [int] that the
    sum of the frequencies wraps to. *)
Lemma search_multi_members e L adocs keywords :
  engine_inv e L adocs -> Forall (known e) keywords ->
  Z.of_nat (length keywords) <= INT_MAX ->
  exists l,
    search_multi e keywords = Some (MultiMatches l)
    /\ StronglySorted Z.lt (map (fun x => x.1.2) l)
    /\ forall name d score,
         (name, d, score) ∈ l <->
         0 <= d < doc_count e
         /\ total_over keywords (fun kw => entry_count (docs_of_keyword e kw) d)
            = Z.of_nat (length keywords)
         /\ score
            = int_wrap (total_over keywords
                          (fun kw => entry_frequency (docs_of_keyword e kw) d))
         /\ exists info, get_document e d = Some info /\ name = filename info.
Proof.
  intros Hinv Hk Hlen. pose proof (inv_count _ _ _ Hinv) as Hcount.
  destruct (search_multi_loop_all_known e L adocs keywords Hinv _ _ _ _ Hk
              (holds_zeros _) (holds_zeros _))
    as (scores & matches & Hloop & [Hsl Hs0] & [Hml Hm0]).
  assert (Hm : forall i, (i < length adocs)%nat ->
            matches !! i
            = Some (total_over keywords
                      (fun kw => entry_count (docs_of_keyword e kw) (Z.of_nat i)))).
  { intros i Hi. rewrite (Hm0 i Hi). cbn beta. rewrite Z.add_0_l. f_equal.
    apply int_wrap_small.
    pose proof (match_count_range e L adocs keywords (Z.of_nat i) Hinv Hk). lia. }
  assert (Hs : forall i, (i < length adocs)%nat ->
            scores !! i
            = Some (int_wrap
                      (total_over keywords
                         (fun kw => entry_frequency (docs_of_keyword e kw)
                                      (Z.of_nat i))))).
  { intros i Hi. rewrite (Hs0 i Hi). cbn beta. by rewrite Z.add_0_l. }
  clear Hs0 Hm0.
  eexists. split.
  { unfold search_multi. rewrite Hcount, Nat2Z.id, Hloop. done. }
  split.
  { unfold display_matches. apply omap_seq_sorted.
    intros i x. destruct (decide _); [|done]. by intros [= <-]. }
  intros name d score. unfold display_matches. rewrite list_elem_of_omap.
  rewrite Hcount, Nat2Z.id. split.
  - intros (i & Hi & Hf). apply elem_of_seq in Hi.
    rewrite (Hm i), (Hs i) in Hf by lia. cbn [default] in Hf.
    destruct (decide (Some _ = Some _)) as [Heq|]; [|done].
    injection Heq as Heq. injection Hf as <- <- <-.
    split; [lia|]. split; [done|]. split; [done|].
    destruct (documents_of_range adocs (Z.of_nat i)) as [info Hinfo]; [lia|].
    exists info. unfold get_document. by rewrite (inv_documents _ _ _ Hinv), Hinfo.
  - intros (Hd & Hmc & -> & info & Hinfo & ->).
    exists (Z.to_nat d). split; [apply elem_of_seq; lia|].
    rewrite (Hm (Z.to_nat d)), (Hs (Z.to_nat d)) by lia.
    rewrite !Z2Nat.id by lia. cbn [default].
    rewrite decide_True by (f_equal; lia).
    rewrite Hinfo. cbn [doc_filename]. do 2 f_equal.
Qed.

(** The AND semantics of [search_multi], for keywords that fit the buffer
    (fewer than 99 bytes each, as every known keyword is) and [int]
    quantities that do not overflow.  When every keyword is a word of the
    lookup index and their number is an [int], [search_multi] returns
    exactly the documents whose match count equals the number of keywords,
    which are the documents listed (with a frequency of at least one) in
    the occurrence list of every keyword; each comes with its file name
    and, as score, the [int] that the sum over the keywords of its
    frequencies wraps to, which is that sum whenever the sum is at most
    [INT_MAX]; and the results are in increasing order of document
    identifier. *)
Lemma search_multi_and_semantics e keywords :
  reachable e -> Forall (known e) keywords ->
  Z.of_nat (length keywords) <= INT_MAX ->
  let match_count d :=
    total_over keywords (fun kw => entry_count (docs_of_keyword e kw) d) in
  let combined_score d :=
    total_over keywords (fun kw => entry_frequency (docs_of_keyword e kw) d) in
  exists l,
    search_multi e keywords = Some (MultiMatches l)
    /\ (forall name d score,
          (name, d, score) ∈ l <->
          0 <= d < doc_count e
          /\ match_count d = Z.of_nat (length keywords)
          /\ score = int_wrap (combined_score d)
          /\ exists info, get_document e d = Some info /\ name = filename info)
    /\ (forall d, combined_score d <= INT_MAX ->
          int_wrap (combined_score d) = combined_score d)
    /\ (forall d, match_count d = Z.of_nat (length keywords) <->
          Forall (fun kw => exists dn, dn ∈ docs_of_keyword e kw
                                       /\ doc_id dn = d /\ 1 <= frequency dn)
                 keywords)
    /\ StronglySorted Z.lt (map (fun x => x.1.2) l)
    /\ Forall (fun kw =>
                 exists r, output_freq_result e kw = Some r
                   /\ map (fun entry => (entry.1.1, entry.2)) (freq_documents r)
                      = map (fun dn => (doc_id dn, frequency dn))
                            (docs_of_keyword e kw))
              keywords.
Proof.
  intros Hr Hk Hlen match_count combined_score.
  destruct (reachable_inv e Hr) as (L & adocs & Hinv & _).
  destruct (search_multi_members e L adocs keywords Hinv Hk Hlen)
    as (l & Hl & Hsorted & Hmem).
  exists l. split; [done|]. split; [exact Hmem|].
  split; [|split; [|split; [done|]]].
  - intros d Hd. apply int_wrap_small.
    pose proof (combined_score_nonneg e L adocs keywords d Hinv Hk).
    unfold combined_score in *. lia.
  - intros d. unfold match_count.
    assert (Hind : forall kw, kw ∈ keywords ->
              entry_count (docs_of_keyword e kw) d = 0
              \/ entry_count (docs_of_keyword e kw) d = 1).
    { intros kw Hkw.
      destruct (keyword_docs_report _ _ _ _ Hinv (Forall_elem Hk Hkw)) as (Hnd & _).
      destruct (entry_count_nodup _ d Hnd) as [[? _]|[? _]]; [by right | by left]. }
    destruct (total_over_indicator keywords _ Hind) as [_ ->].
    rewrite !Forall_forall. split.
    + intros H kw Hkw.
      destruct (keyword_docs_report _ _ _ _ Hinv (Forall_elem Hk Hkw)) as (Hnd & Hf & _).
      destruct (entry_count_nodup _ d Hnd) as [[_ (dn & Hdn & Hd)]|[H0 _]].
      * exists dn. split; [done|]. split; [done|]. by apply (Forall_elem Hf).
      * specialize (H kw Hkw). cbn beta in H. lia.
    + intros H kw Hkw. destruct (H kw Hkw) as (dn & Hdn & Hd & _).
      destruct (keyword_docs_report _ _ _ _ Hinv (Forall_elem Hk Hkw)) as (Hnd & _).
      destruct (entry_count_nodup _ d Hnd) as [[? _]|[_ Hall]]; [done|].
      by destruct (Hall dn Hdn).
  - apply Forall_forall. intros kw Hkw.
    destruct (keyword_docs_report _ _ _ _ Hinv (Forall_elem Hk Hkw))
      as (_ & _ & r & Hr1 & _ & Hr2).
    by exists r.
Qed.

Example search_multi_quick_brown :
  exists l, search_multi demo_engine [cstr "quick"; cstr "brown"]
            = Some (MultiMatches l)
    /\ StronglySorted Z.lt (map (fun x => x.1.2) l).
Proof.
  assert (Hr : reachable demo_engine) by (do 3 apply reachable_index; apply reachable_create).
  assert (Hk : Forall (known demo_engine) [cstr "quick"; cstr "brown"]).
  { repeat constructor.
    - exists (cstr "quick"). eexists. split; [reflexivity | vm_compute; reflexivity].
    - exists (cstr "brown"). eexists. split; [reflexivity | vm_compute; reflexivity]. }
  destruct (search_multi_and_semantics demo_engine
              [cstr "quick"; cstr "brown"] Hr Hk ltac:(by vm_compute))
    as (l & H1 & _ & _ & _ & H2 & _).
  exists l. split; [exact H1 | exact H2].
Qed.

(** A score at [INT_MAX] does not grow by a further occurrence: the [int]
    sum leaves the range. *)
Example score_sum_wraps :
  accumulate [{| doc_id := 0; frequency := 1 |}] [INT_MAX] [0]
  = Some ([- 2 ^ 31], [1]).
Proof. by vm_compute. Qed.

(** C2: [search_multi] has no defined result for a keyword of 99 bytes
    that is present in the lookup index.  [index_word] keeps the first 99
    bytes of a token and terminates them, so the engine that indexed the
    word of 99 letters [a] has that word in its lookup index, with
    document 0 in its occurrence list.  The loop of [search_multi] copies
    the same 99 bytes into [normalized] without writing the terminator
    after them, so [normalize_word] scans past the copied bytes: the
    search for that one present keyword returns no result set, where
    document 0 with score 1 is expected. *)
Theorem C2_long_present_keyword :
  (exists node nd, hash_search long_engine (normalize_word long_word) = Some node
                   /\ heap long_engine !! node = Some nd
                   /\ doc_list nd = [{| doc_id := 0; frequency := 1 |}])
  /\ search_multi long_engine [long_word] = None.
Proof.
  split; [|by vm_compute].
  destruct (hash_search long_engine (normalize_word long_word)) as [node|] eqn:Hs;
    [|by vm_compute in Hs].
  destruct (heap long_engine !! node) as [nd|] eqn:Hnd.
  - exists node, nd. split; [done|]. split; [done|].
    revert Hs Hnd. vm_compute. intros [= <-] [= <-]. reflexivity.
  - revert Hs Hnd. vm_compute. intros [= <-]. discriminate.
Qed.

(** ** Prefix search (claim C4) *)

Lemma lex_lt_app p a b : lex_lt a b -> lex_lt (p ++ a) (p ++ b).
Proof. intros H. induction p as [|c p IH]; [done|]. cbn. right. done. Qed.

Lemma lex_lt_extension p c s : lex_lt p (p ++ c :: s).
Proof.
  rewrite <- (app_nil_r p) at 1. by apply lex_lt_app.
Qed.

Lemma lex_lt_letters p i j s1 s2 :
  (i < j)%nat -> (j < 26)%nat ->
  lex_lt (p ++ letter i :: s1) (p ++ letter j :: s2).
Proof.
  intros Hij Hj. apply lex_lt_app. cbn. left.
  rewrite !char_to_int_letter by lia. lia.
Qed.

Lemma label_ancestor h L q l1 l2 :
  trie_wf h L -> L !! q = Some (l1 ++ l2) -> exists a, L !! a = Some l1.
Proof.
  intros Hwf. revert q. induction l2 as [|c l2 IH] using rev_ind; intros q Hq.
  - rewrite app_nil_r in Hq. by exists q.
  - rewrite app_assoc in Hq.
    destruct (wf_parent _ _ Hwf _ _ _ Hq) as (p & i & Hp & _).
    by eapply IH.
Qed.

Lemma child_of_label h L p lp q c :
  trie_wf h L -> L !! p = Some lp -> L !! q = Some (lp ++ [c]) ->
  exists i, (i < 26)%nat /\ c = letter i /\ edge h p i q.
Proof.
  intros Hwf Hp Hq.
  destruct (wf_parent _ _ Hwf _ _ _ Hq) as (p' & i & Hp' & He & ->).
  assert (p' = p) as ->.
  { eapply (NoDup_lookup L); [apply Hwf | apply Hp' | apply Hp]. }
  exists i. split; [by eapply edge_slot|]. done.
Qed.

Lemma empty_slot_no_words h L p lp nd i q k :
  trie_wf h L -> L !! p = Some lp -> h !! p = Some nd ->
  mjoin (children nd !! i) = None -> (i < 26)%nat ->
  L !! q = Some ((lp ++ [letter i]) ++ k) -> False.
Proof.
  intros Hwf Hp Hnd Hfree Hi Hq.
  destruct (label_ancestor _ _ _ _ _ Hwf Hq) as [a Ha].
  destruct (child_of_label _ _ _ _ _ _ Hwf Hp Ha) as (j & Hj & Hl & n & Hn & Hc).
  apply letter_inj in Hl; [|done..]. subst j.
  rewrite Hnd in Hn. injection Hn as <-. by rewrite Hc in Hfree.
Qed.

Lemma helper_children_listing h L p lp nd rec slots :
  trie_wf h L -> L !! p = Some lp -> h !! p = Some nd ->
  (forall i q, i ∈ slots -> edge h p i q ->
     exists out, rec q (lp ++ [letter i]) = Some out
                 /\ listing h L (lp ++ [letter i]) out) ->
  StronglySorted lt slots -> Forall (fun i => (i < 26)%nat) slots ->
  exists outs,
    helper_children rec nd lp slots = Some outs
    /\ StronglySorted lex_lt (map fst outs)
    /\ forall w f, (w, f) ∈ outs <->
         terminal_word h L w f
         /\ exists i, i ∈ slots /\ (lp ++ [letter i]) `prefix_of` w.
Proof.
  intros Hwf Hp Hnd. induction slots as [|i slots IH]; intros Hrec Hsorted Hrange.
  - exists []. split; [done|]. split; [constructor|].
    intros w f. split; [by intros ?%elem_of_nil|].
    intros (_ & i & Hi & _). by apply elem_of_nil in Hi.
  - apply StronglySorted_cons in Hsorted as [Hlt Hsorted].
    apply Forall_cons in Hrange as [Hi Hrange].
    destruct IH as (outs & Houts & Hso & Hmem); [|done..|].
    { intros j q Hj. apply Hrec. by right. }
    cbn [helper_children]. rewrite Houts.
    destruct (mjoin (children nd !! i)) as [q|] eqn:Hq.
    + assert (He : edge h p i q).
      { exists nd. split; [done|].
        destruct (children nd !! i) as [[r|]|]; simpl in Hq; congruence. }
      destruct (Hrec i q ltac:(by left) He) as (out & -> & Hsout & Hmout).
      cbn [mbind option_bind]. exists (out ++ outs). split; [done|]. split.
      * rewrite map_app. apply StronglySorted_app_2; [|done..].
        intros w1 w2 Hw1 Hw2.
        apply list_elem_of_fmap in Hw1 as ([w1' f1] & -> & Hw1).
        apply list_elem_of_fmap in Hw2 as ([w2' f2] & -> & Hw2).
        apply Hmout in Hw1 as (_ & k1 & ->).
        apply Hmem in Hw2 as (_ & j & Hj & k2 & ->).
        cbn [fst]. rewrite <- !app_assoc. cbn [app].
        apply lex_lt_letters; [by apply (Forall_elem Hlt) | by apply (Forall_elem Hrange)].
      * intros w f. rewrite elem_of_app, Hmout, Hmem. split.
        -- intros [[Ht Hpre]|(Ht & j & Hj & Hpre)].
           ++ split; [done|]. exists i. split; [by left | done].
           ++ split; [done|]. exists j. split; [by right | done].
        -- intros (Ht & j & [->|Hj]%elem_of_cons & Hpre).
           ++ by left.
           ++ right. split; [done|]. by exists j.
    + exists outs. split; [done|]. split; [done|].
      intros w f. rewrite Hmem. split.
      * intros (Ht & j & Hj & Hpre). split; [done|]. exists j. split; [by right | done].
      * intros (Ht & j & [->|Hj]%elem_of_cons & Hpre).
        -- exfalso. destruct Ht as (r & _ & Hr & _). destruct Hpre as [k ->].
           by eapply (empty_slot_no_words h L p lp nd i r k).
        -- split; [done|]. by exists j.
Qed.

Lemma alphabet_sorted : StronglySorted lt alphabet.
Proof.
  unfold alphabet, ALPHABET_SIZE. generalize (Z.to_nat 26). generalize 0%nat.
  intros a n. revert a. induction n as [|n IH]; intros a; cbn [seq]; constructor.
  - apply IH.
  - apply List.Forall_forall. intros x Hx. apply in_seq in Hx. lia.
Qed.

Lemma alphabet_range i : i ∈ alphabet <-> (i < 26)%nat.
Proof. unfold alphabet, ALPHABET_SIZE. rewrite elem_of_seq. lia. Qed.

(** With fuel for the remaining part of the arena, [trie_prefix_helper]
    returns the dictionary-ordered listing of the subtree. *)
Lemma trie_prefix_helper_listing h L :
  trie_wf h L ->
  forall fuel p lp,
    L !! p = Some lp -> (length h - p <= fuel)%nat ->
    exists out, trie_prefix_helper fuel h (Some p) lp = Some out
                /\ listing h L lp out.
Proof.
  intros Hwf. induction fuel as [|fuel IH]; intros p lp Hp Hfuel.
  { apply lookup_lt_Some in Hp. rewrite (wf_length _ _ Hwf) in Hp. lia. }
  destruct (lookup_lt_is_Some_2 h p) as [nd Hnd].
  { rewrite <- (wf_length _ _ Hwf). by eapply lookup_lt_Some. }
  cbn [trie_prefix_helper]. rewrite Hnd. cbn [mbind option_bind].
  destruct (helper_children_listing h L p lp nd
              (fun q => trie_prefix_helper fuel h (Some q)) alphabet Hwf Hp Hnd)
    as (outs & -> & Hso & Hmem).
  { intros i q _ He.
    destruct (wf_child _ _ Hwf _ _ _ He) as (Hlt & lp' & Hp' & Hq).
    rewrite Hp in Hp'. injection Hp' as <-. apply IH; [done | lia]. }
  { apply alphabet_sorted. }
  { apply Forall_forall. intros i. apply alphabet_range. }
  cbn [mbind option_bind]. eexists. split; [done|]. split.
  - rewrite map_app. apply StronglySorted_app_2; [| |done].
    + intros w1 w2 Hw1 Hw2. destruct (is_end nd); [|by apply elem_of_nil in Hw1].
      apply list_elem_of_singleton in Hw1 as ->. cbn [fst].
      apply list_elem_of_fmap in Hw2 as ([w2' f2] & -> & Hw2).
      apply Hmem in Hw2 as (_ & j & _ & k & ->).
      cbn [fst]. rewrite <- app_assoc. apply lex_lt_extension.
    + destruct (is_end nd); repeat constructor.
  - intros w f. rewrite elem_of_app, Hmem. split.
    + intros [Hown|(Ht & j & _ & k & ->)].
      * destruct (is_end nd) eqn:He; [|by apply elem_of_nil in Hown].
        apply list_elem_of_singleton in Hown as [= -> ->].
        split; [by exists p, nd | done].
      * split; [done|]. rewrite <- app_assoc. by eexists.
    + intros (Ht & k & ->). destruct k as [|c k].
      * left. rewrite app_nil_r in *. destruct Ht as (q & nd' & Hq & Hnd' & He & ->).
        assert (q = p) as ->.
        { eapply (NoDup_lookup L); [apply Hwf | apply Hq | apply Hp]. }
        rewrite Hnd in Hnd'. injection Hnd' as <-. rewrite He.
        by apply list_elem_of_singleton.
      * right. split; [done|]. destruct Ht as (q & _ & Hq & _).
        change (lp ++ c :: k) with (lp ++ [c] ++ k) in Hq. rewrite app_assoc in Hq.
        destruct (label_ancestor _ _ _ _ _ Hwf Hq) as [a Ha].
        destruct (child_of_label _ _ _ _ _ _ Hwf Hp Ha) as (i & Hi & -> & _).
        exists i. split; [by apply alphabet_range|].
        exists k. by rewrite <- app_assoc.
Qed.

(** *** The capped traversal is a prefix of the full listing *)

Lemma take_take_app {A} (n : nat) (x c : list A) :
  take n (take n x ++ c) = take n (x ++ c).
Proof.
  destruct (decide (n <= length x)%nat) as [Hle|Hgt].
  - rewrite (take_app_le x c n) by done.
    rewrite take_app_le by (rewrite length_take; lia).
    rewrite take_take. f_equal. lia.
  - by rewrite (take_ge x n) by lia.
Qed.

Lemma take_full_app {A} (n : nat) (x c : list A) :
  length x = n -> take n (x ++ c) = x.
Proof. intros <-. apply take_app_length. Qed.

Lemma count_lt_cap results :
  (count results <? PREFIX_CAP) = true <-> (length (entries results) < cap)%nat.
Proof. unfold count, cap, PREFIX_CAP. rewrite Z.ltb_lt. lia. Qed.

Lemma count_ge_cap results :
  (count results >=? PREFIX_CAP) = true <-> (cap <= length (entries results))%nat.
Proof. unfold count, cap, PREFIX_CAP. rewrite Z.geb_leb, Z.leb_le. lia. Qed.

Lemma collect_children_take rec_c rec_h nd prefix slots :
  (forall q pre res out,
     rec_h q pre = Some out -> (length (entries res) <= cap)%nat ->
     exists res', rec_c q pre res = Some res'
                  /\ entries res' = take cap (entries res ++ out)) ->
  forall res outs,
    helper_children rec_h nd prefix slots = Some outs ->
    (length (entries res) <= cap)%nat ->
    exists res', collect_children rec_c nd prefix slots res = Some res'
                 /\ entries res' = take cap (entries res ++ outs).
Proof.
  intros Hrec. induction slots as [|i slots IH]; intros res outs Hh Hlen.
  - injection Hh as <-. exists res. split; [done|].
    rewrite app_nil_r. by rewrite take_ge.
  - cbn [helper_children collect_children] in *.
    destruct (count res <? PREFIX_CAP) eqn:Hc.
    + destruct (mjoin (children nd !! i)) as [q|]; [|by apply IH].
      destruct (rec_h q (prefix ++ [letter i])) as [out|] eqn:Hout; [|done].
      cbn [mbind option_bind] in Hh.
      destruct (helper_children rec_h nd prefix slots) as [outs'|] eqn:Houts; [|done].
      injection Hh as <-.
      destruct (Hrec _ _ res _ Hout Hlen) as (res1 & -> & Hres1).
      cbn [mbind option_bind].
      destruct (IH res1 outs' eq_refl) as (res' & -> & Hres').
      { rewrite Hres1, length_take. lia. }
      exists res'. split; [done|].
      by rewrite Hres', Hres1, take_take_app, <- app_assoc.
    + exists res. split; [done|]. symmetry. apply take_full_app.
      destruct (Z.ltb_spec (count res) PREFIX_CAP) as [|Hge]; [done|].
      unfold count, cap, PREFIX_CAP in *. lia.
Qed.

Lemma collect_prefix_words_take h fuel : forall node prefix res out,
  trie_prefix_helper fuel h node prefix = Some out ->
  (length (entries res) <= cap)%nat ->
  exists res', collect_prefix_words fuel h node prefix res = Some res'
               /\ entries res' = take cap (entries res ++ out).
Proof.
  induction fuel as [|fuel IH]; intros [p|] prefix res out Hh Hlen.
  - done.
  - injection Hh as <-. exists res. split; [done|].
    rewrite app_nil_r. by rewrite take_ge.
  - cbn [trie_prefix_helper collect_prefix_words] in *.
    destruct (count res >=? PREFIX_CAP) eqn:Hc.
    { exists res. split; [done|]. symmetry. apply take_full_app.
      apply count_ge_cap in Hc. lia. }
    destruct (h !! p) as [nd|]; [|done]. cbn [mbind option_bind] in *.
    destruct (helper_children _ nd prefix alphabet) as [outs|] eqn:Houts; [|done].
    injection Hh as <-.
    assert (Hlt : (length (entries res) < cap)%nat).
    { destruct (Nat.lt_ge_cases (length (entries res)) cap) as [|Hge]; [done|].
      apply count_ge_cap in Hge. congruence. }
    destruct (collect_children_take
                (fun q => collect_prefix_words fuel h (Some q))
                (fun q => trie_prefix_helper fuel h (Some q))
                nd prefix alphabet (fun q pre => IH (Some q) pre)
                (visit_node p nd prefix res) outs Houts)
      as (res' & -> & Hres').
    { unfold visit_node. cbn [entries].
      destruct (is_end nd); rewrite ?length_app; cbn [length]; lia. }
    exists res'. split; [done|]. rewrite Hres'. unfold visit_node. cbn [entries].
    destruct (is_end nd); [by rewrite <- app_assoc | done].
  - injection Hh as <-. exists res. split; [done|].
    rewrite app_nil_r. by rewrite take_ge.
Qed.

(** *** The trace of the capped traversal *)

Lemma traced_refl h L res : traced h L res res.
Proof.
  exists []. rewrite !app_nil_r. split; [done|]. split; [done|].
  split; [done|]. intros; lia.
Qed.

Lemma traced_trans h L r1 r2 r3 :
  traced h L r1 r2 -> traced h L r2 r3 -> traced h L r1 r3.
Proof.
  intros (vs1 & Hv1 & He1 & Hc1 & Hl1) (vs2 & Hv2 & He2 & Hc2 & Hl2).
  exists (vs1 ++ vs2). split; [by rewrite Hv2, Hv1, app_assoc|].
  split; [by rewrite He2, He1, omap_app, app_assoc|]. split.
  - intros Hcap. rewrite (Hc1 Hcap) in *. rewrite app_nil_r in He1.
    rewrite Hc2; [done|]. rewrite He1. lia.
  - intros Hlt Hcap.
    destruct (decide (cap <= length (entries r2))%nat) as [Hge|Hlt2].
    + rewrite (Hc2 Hge), app_nil_r. by apply Hl1.
    + destruct Hl2 as (vs0 & q & -> & Hq); [lia | done |].
      exists (vs1 ++ vs0), q. by rewrite app_assoc.
Qed.

Lemma collect_children_traced h L rec nd prefix slots :
  (forall i q res res', i ∈ slots -> mjoin (children nd !! i) = Some q ->
     rec q (prefix ++ [letter i]) res = Some res' -> traced h L res res') ->
  forall res res',
    collect_children rec nd prefix slots res = Some res' -> traced h L res res'.
Proof.
  induction slots as [|i slots IH]; intros Hrec res res' Hc.
  - injection Hc as <-. apply traced_refl.
  - cbn [collect_children] in Hc.
    destruct (count res <? PREFIX_CAP); [|injection Hc as <-; apply traced_refl].
    assert (Hrec' : forall j q r r', j ∈ slots -> mjoin (children nd !! j) = Some q ->
              rec q (prefix ++ [letter j]) r = Some r' -> traced h L r r').
    { intros j q r r' Hj. apply Hrec. by right. }
    destruct (mjoin (children nd !! i)) as [q|] eqn:Hq; [|by apply IH].
    destruct (rec q (prefix ++ [letter i]) res) as [res1|] eqn:Hres1; [|done].
    cbn [mbind option_bind] in Hc.
    eapply traced_trans; [|by apply IH].
    eapply Hrec; [by left | done | done].
Qed.

Lemma collect_prefix_words_traced h L :
  trie_wf h L ->
  forall fuel p lp res res',
    L !! p = Some lp ->
    collect_prefix_words fuel h (Some p) lp res = Some res' ->
    traced h L res res'.
Proof.
  intros Hwf. induction fuel as [|fuel IH]; intros p lp res res' Hp Hc;
    cbn [collect_prefix_words] in Hc.
  { destruct (count res >=? PREFIX_CAP); [|done].
    injection Hc as <-. apply traced_refl. }
  destruct (count res >=? PREFIX_CAP) eqn:Hcap.
  { injection Hc as <-. apply traced_refl. }
  destruct (h !! p) as [nd|] eqn:Hnd; [|done]. cbn [mbind option_bind] in Hc.
  assert (Hlt : (length (entries res) < cap)%nat).
  { destruct (Nat.lt_ge_cases (length (entries res)) cap) as [|Hge]; [done|].
    apply count_ge_cap in Hge. congruence. }
  apply (traced_trans _ _ _ (visit_node p nd lp res)).
  - exists [p]. unfold visit_node. cbn [visited entries]. split; [done|].
    assert (Hemit : omap (emit h L) [p]
                    = if is_end nd then [(lp, total_freq nd)] else []).
    { cbn. unfold emit. rewrite Hnd, Hp. cbn. by destruct (is_end nd). }
    rewrite Hemit. split; [by destruct (is_end nd); rewrite ?app_nil_r|].
    split; [intros; lia|]. intros _ Hge. exists [], p. split; [done|].
    unfold emit. rewrite Hnd, Hp. cbn.
    destruct (is_end nd); [done|]. lia.
  - eapply collect_children_traced; [|exact Hc].
    intros i q r r' _ Hq. apply IH.
    assert (He : edge h p i q).
    { exists nd. split; [done|].
      destruct (children nd !! i) as [[x|]|]; simpl in Hq; congruence. }
    destruct (wf_child _ _ Hwf _ _ _ He) as (_ & lp' & Hp' & Hlq).
    rewrite Hp in Hp'. by injection Hp' as <-.
Qed.

Lemma emit_Some h L q w f :
  trie_wf h L -> emit h L q = Some (w, f) ->
  is_terminal h q = true /\ trie_search h 0%nat w = Some q
  /\ terminal_word h L w f.
Proof.
  intros Hwf. unfold emit, is_terminal.
  destruct (h !! q) as [nd|] eqn:Hnd; [|done]. cbn [mbind option_bind].
  destruct (L !! q) as [w'|] eqn:Hq; [|done]. cbn [mbind option_bind].
  destruct (is_end nd) eqn:He; [|done]. intros [= <- <-].
  split; [done|]. split; [|by exists q, nd].
  unfold trie_search.
  rewrite (label_descend _ _ _ _ _ _ Hwf (wf_root _ _ Hwf) Hq).
  cbn [mbind option_bind]. rewrite Hnd. cbn [mbind option_bind]. by rewrite He.
Qed.

Lemma emit_None h L q :
  trie_wf h L -> emit h L q = None -> is_terminal h q = false.
Proof.
  intros Hwf. unfold emit, is_terminal.
  destruct (h !! q) as [nd|] eqn:Hnd; [|done]. cbn [mbind option_bind].
  destruct (lookup_lt_is_Some_2 L q) as [w ->].
  { rewrite (wf_length _ _ Hwf). by eapply lookup_lt_Some. }
  cbn [mbind option_bind]. by destruct (is_end nd).
Qed.

Lemma omap_emit_nodes h L vs :
  trie_wf h L ->
  map (fun entry => trie_search h 0%nat entry.1) (omap (emit h L) vs)
  = map Some (List.filter (is_terminal h) vs).
Proof.
  intros Hwf. induction vs as [|q vs IH]; [done|].
  change (omap (emit h L) (q :: vs))
    with (match emit h L q with
          | Some y => y :: omap (emit h L) vs
          | None => omap (emit h L) vs
          end).
  cbn [List.filter].
  destruct (emit h L q) as [[w f]|] eqn:He.
  - destruct (emit_Some _ _ _ _ _ Hwf He) as (-> & Hs & _).
    cbn [map fst]. by rewrite Hs, IH.
  - by rewrite (emit_None _ _ _ Hwf He).
Qed.

Lemma terminal_word_hash_search e L adocs w f :
  engine_inv e L adocs ->
  terminal_word (heap e) L w f <->
  exists q nd, hash_search e w = Some q /\ heap e !! q = Some nd
               /\ f = total_freq nd.
Proof.
  intros Hinv. split.
  - intros (q & nd & Hq & Hnd & He & ->).
    destruct (inv_node _ _ _ Hinv _ _ _ Hq Hnd) as (_ & _ & Hi).
    destruct (inv_hash_complete _ _ _ Hinv w) as [q' Hq']; [by apply Hi|].
    destruct (inv_hash_sound _ _ _ Hinv _ _ Hq') as [Hl _].
    assert (q' = q) as ->.
    { eapply (NoDup_lookup L); [apply Hinv | apply Hl | apply Hq]. }
    by exists q, nd.
  - intros (q & nd & Hs & Hnd & ->).
    destruct (inv_hash_sound _ _ _ Hinv _ _ Hs) as [Hl Hi].
    destruct (inv_node _ _ _ Hinv _ _ _ Hl Hnd) as (_ & _ & He).
    exists q, nd. split; [done|]. split; [done|]. split; [by apply He | done].
Qed.

Lemma cap_value : cap = 100%nat.
Proof. done. Qed.

(** The capped prefix search, for a prefix that fits the buffer (fewer
    than 99 bytes).  [output_prefix_result] lists words of the index that
    start with the normalized prefix, in the order of a depth-first
    pre-order walk with children taken from a to z (dictionary order), at
    most 100 of
    them; a word of the index with that prefix is missing only when 100
    words that come before it were listed; the traversal reads no node
    after the one that fills the 100th slot, and every terminal node it
    reads is reported; and the list is the first 100 lines of the uncapped
    listing of [search_prefix]. *)
Lemma output_prefix_result_spec e prefix normalized :
  reachable e -> normalize_query prefix = Some normalized ->
  exists r,
    output_prefix_result e prefix = Some r
    /\ prefix_normalized r = normalized
    /\ (forall w f, (w, f) ∈ prefix_words r ->
          normalized `prefix_of` w
          /\ exists q nd, hash_search e w = Some q /\ heap e !! q = Some nd
                          /\ f = total_freq nd)
    /\ StronglySorted lex_lt (map fst (prefix_words r))
    /\ (length (prefix_words r) <= 100)%nat
    /\ (forall w, is_Some (hash_search e w) -> normalized `prefix_of` w ->
          w ∈ map fst (prefix_words r)
          \/ (length (prefix_words r) = 100%nat
              /\ forall w', w' ∈ map fst (prefix_words r) -> lex_lt w' w))
    /\ map (fun entry => trie_search (heap e) (trie_root e) entry.1) (prefix_words r)
       = map Some (List.filter (is_terminal (heap e)) (prefix_visited r))
    /\ (length (prefix_words r) = 100%nat ->
        exists vs q, prefix_visited r = vs ++ [q]
                     /\ is_terminal (heap e) q = true)
    /\ match search_prefix e prefix with
       | Some (WordsWithPrefix n lines) =>
           n = normalized /\ prefix_found r = true
           /\ prefix_words r = take 100 lines
       | Some (NoWordsWithPrefix n) =>
           n = normalized /\ prefix_found r = false /\ prefix_words r = []
       | None => False
       end.
Proof.
  intros Hr Hn. destruct (reachable_inv e Hr) as (L & adocs & Hinv & _).
  pose proof (inv_wf _ _ _ Hinv) as Hwf.
  pose proof (inv_root _ _ _ Hinv) as Hroot.
  unfold output_prefix_result, search_prefix, trie_prefix_search.
  rewrite Hn, Hroot. cbn [mbind option_bind].
  destruct (trie_descend (heap e) 0%nat normalized) as [curr|] eqn:Hd.
  - pose proof (descend_label _ _ _ _ _ _ Hwf (wf_root _ _ Hwf) Hd) as Hcurr.
    cbn [app] in Hcurr.
    destruct (trie_prefix_helper_listing _ _ Hwf (length (heap e)) curr normalized
                Hcurr ltac:(lia)) as (lines & Hlines & Hsorted & Hmem).
    destruct (collect_prefix_words_take (heap e) (length (heap e)) (Some curr)
                normalized {| entries := []; visited := [] |} lines Hlines)
      as (res & Hres & Hentries); [cbn; lia|].
    pose proof (collect_prefix_words_traced _ _ Hwf _ _ _ _ _ Hcurr Hres)
      as (vs & Hvis & Hent & _ & Hlast).
    cbn [entries visited app] in Hentries, Hvis, Hent, Hlast.
    rewrite Hres, Hlines. cbn [mbind option_bind fmap option_fmap option_map].
    eexists. split; [done|].
    cbn [prefix_normalized prefix_words prefix_visited prefix_found].
    split; [done|].
    assert (Hsplit : lines = entries res ++ drop cap lines).
    { rewrite Hentries. by rewrite take_drop. }
    split; [|split; [|split; [|split; [|split; [|split]]]]].
    + intros w f Hw.
      assert (Hin : (w, f) ∈ lines).
      { rewrite Hsplit. apply elem_of_app. by left. }
      apply Hmem in Hin as [Ht Hpre]. split; [done|].
      by apply (terminal_word_hash_search e L adocs).
    + rewrite Hsplit, map_app in Hsorted.
      by apply StronglySorted_app_1_l in Hsorted.
    + rewrite Hentries, length_take. rewrite cap_value. lia.
    + intros w [q Hq] Hpre.
      destruct (hash_search_valid _ _ _ _ _ Hinv Hq) as (nd & Hnd & _).
      assert (Hin : (w, total_freq nd) ∈ lines).
      { apply Hmem. split; [|done].
        apply (terminal_word_hash_search e L adocs); [done|]. by exists q, nd. }
      rewrite Hsplit in Hin. apply elem_of_app in Hin as [Hin|Hin].
      * left. apply list_elem_of_fmap. by exists (w, total_freq nd).
      * right. split.
        { rewrite Hentries, length_take, cap_value.
          apply list_elem_of_lookup in Hin as [i Hi].
          apply lookup_lt_Some in Hi. rewrite length_drop in Hi.
          rewrite cap_value in Hi. lia. }
        intros w' Hw'. rewrite Hsplit, map_app in Hsorted.
        eapply (StronglySorted_app_1_elem_of _ _ _ _ _ Hsorted Hw').
        apply list_elem_of_fmap. by exists (w, total_freq nd).
    + rewrite Hent, Hvis. by apply omap_emit_nodes.
    + intros Hlen. destruct Hlast as (vs0 & q & -> & [[w f] Hq]).
      { rewrite cap_value. cbn [length]. lia. }
      { rewrite cap_value. lia. }
      exists vs0, q. rewrite Hvis. split; [done|].
      by destruct (emit_Some _ _ _ _ _ Hwf Hq) as [? _].
    + split; [done|]. split; [done|]. by rewrite Hentries.
  - eexists. split; [done|].
    cbn [prefix_normalized prefix_words prefix_visited prefix_found].
    split; [done|].
    split; [|split; [|split; [|split; [|split; [|split]]]]];
      try done.
    + by intros w f ?%elem_of_nil.
    + constructor.
    + cbn. lia.
    + intros w [q Hq] [k ->]. exfalso.
      destruct (inv_hash_sound _ _ _ Hinv _ _ Hq) as [Hl _].
      destruct (label_ancestor _ _ _ _ _ Hwf Hl) as [a Ha].
      pose proof (label_descend _ _ 0%nat [] normalized a Hwf (wf_root _ _ Hwf) Ha).
      congruence.
Qed.

Example output_prefix_result_small :
  reachable small_engine
  /\ normalize_query (cstr "A") = Some (cstr "a")
  /\ exists r, output_prefix_result small_engine (cstr "A") = Some r
       /\ StronglySorted lex_lt (map fst (prefix_words r))
       /\ (length (prefix_words r) <= 100)%nat.
Proof.
  split; [apply small_engine_reachable|]. split; [reflexivity|].
  destruct (output_prefix_result_spec small_engine (cstr "A") (cstr "a")
              small_engine_reachable eq_refl) as (r & H1 & _ & _ & H2 & H3 & _).
  exists r. split; [exact H1|]. split; [exact H2 | exact H3].
Qed.

(** C4: the prefix search has no defined result for a prefix of 99 bytes.
    [output_prefix_result] and [search_prefix] copy at most 99 bytes of
    the prefix into [normalized] and, unlike [index_word], do not write the
    terminator after them, so [normalize_word] scans past the copied bytes.
    The prefix made of the letter [a] and 98 dashes has the normalized form
    [a], and the one-document engine has the word [ab] in its index, yet the
    search for that prefix returns no list of words. *)
Theorem C4_long_prefix :
  normalize_word long_prefix = cstr "a"
  /\ (exists node, hash_search small_engine (cstr "ab") = Some node)
  /\ output_prefix_result small_engine long_prefix = None
  /\ search_prefix small_engine long_prefix = None
  /\ (exists r, output_prefix_result small_engine (cstr "a") = Some r
                /\ map fst (prefix_words r) = [cstr "ab"]).
Proof.
  split; [by vm_compute|]. split; [|split; [by vm_compute|split; [by vm_compute|]]].
  - destruct (hash_search small_engine (cstr "ab")) as [node|] eqn:Hs;
      [by exists node | by vm_compute in Hs].
  - destruct (output_prefix_result small_engine (cstr "a")) as [r|] eqn:Hr;
      [|by vm_compute in Hr].
    exists r. split; [done|]. revert Hr. vm_compute. by intros [= <-].
Qed.

(** ** Tokenization *)

Lemma skip_delims_length s : (length (skip_delims s) <= length s)%nat.
Proof.
  induction s as [|c s IH]; simpl; [lia|]. destruct (is_delim c); simpl; lia.
Qed.

Lemma span_token_length s :
  (length (span_token s).2 <= length s)%nat.
Proof.
  induction s as [|c s IH]; simpl; [lia|].
  destruct (is_delim c); simpl; [lia|].
  destruct (span_token s) as [tok save]. simpl in *. lia.
Qed.

Lemma span_token_cons_length c s :
  (length (span_token (c :: s)).2 <= length s)%nat.
Proof.
  pose proof (span_token_length s) as H. cbn [span_token].
  destruct (is_delim c); [done|]. by destruct (span_token s).
Qed.

Lemma strtok_shorter s token save :
  strtok s = Some (token, save) -> (length save < length s)%nat.
Proof.
  unfold strtok. pose proof (skip_delims_length s) as Hs.
  destruct (skip_delims s) as [|c s1] eqn:Hsk; [done|].
  intros H.
  assert (Hspan : span_token (c :: s1) = (token, save)) by congruence.
  clear H. pose proof (span_token_cons_length c s1) as Hl.
  rewrite Hspan in Hl. cbn [snd length] in *. lia.
Qed.

(** The loop stops by itself: any fuel above the length of the text gives
    the same tokens. *)
Lemma strtok_loop_fuel fuel1 : forall fuel2 s,
  (length s < fuel1)%nat -> (length s < fuel2)%nat ->
  strtok_loop fuel1 s = strtok_loop fuel2 s.
Proof.
  induction fuel1 as [|fuel1 IH]; intros [|fuel2] s H1 H2; try lia.
  cbn [strtok_loop]. destruct (strtok s) as [[token save]|] eqn:Ht; [|done].
  apply strtok_shorter in Ht. f_equal. apply IH; lia.
Qed.

Lemma tokenize_fuel fuel text :
  (length text < fuel)%nat -> strtok_loop fuel text = tokenize text.
Proof. intros H. apply strtok_loop_fuel; [done | lia]. Qed.

Lemma skip_delims_head s c s1 :
  skip_delims s = c :: s1 -> is_delim c = false.
Proof.
  induction s as [|x s IH]; simpl; [done|].
  destruct (is_delim x) eqn:Hx; [done|]. by intros [= <- _].
Qed.

Lemma span_token_clean s :
  Forall (fun c => is_delim c = false) (span_token s).1.
Proof.
  induction s as [|c s IH]; simpl; [constructor|].
  destruct (is_delim c) eqn:Hc; simpl; [constructor|].
  destruct (span_token s) as [tok save]. simpl in *. by constructor.
Qed.

Lemma strtok_token s token save :
  strtok s = Some (token, save) ->
  token <> [] /\ Forall (fun c => is_delim c = false) token.
Proof.
  unfold strtok. destruct (skip_delims s) as [|c s1] eqn:Hsk; [done|].
  intros H.
  assert (Hspan : span_token (c :: s1) = (token, save)) by congruence.
  clear H. pose proof (span_token_clean (c :: s1)) as Hclean.
  rewrite Hspan in Hclean. split; [|done].
  cbn [span_token] in Hspan. rewrite (skip_delims_head _ _ _ Hsk) in Hspan.
  destruct (span_token s1). by injection Hspan as <- _.
Qed.

(** Every token is a non-empty run of characters without separator. *)
Lemma tokenize_tokens text :
  Forall (fun token => token <> [] /\ Forall (fun c => is_delim c = false) token)
         (tokenize text).
Proof.
  unfold tokenize. generalize (S (length text)). intros fuel. revert text.
  induction fuel as [|fuel IH]; intros text; cbn [strtok_loop]; [constructor|].
  destruct (strtok text) as [[token save]|] eqn:Ht; [|constructor].
  constructor; [by eapply strtok_token | apply IH].
Qed.

(** ** The recursion depth of the prefix traversals *)

Lemma helper_children_mono rec1 rec2 nd prefix slots :
  (forall q pre out, rec1 q pre = Some out -> rec2 q pre = Some out) ->
  forall outs, helper_children rec1 nd prefix slots = Some outs ->
               helper_children rec2 nd prefix slots = Some outs.
Proof.
  intros Hrec. induction slots as [|i slots IH]; intros outs; cbn [helper_children];
    [done|].
  destruct (mjoin (children nd !! i)) as [q|]; [|apply IH].
  destruct (rec1 q (prefix ++ [letter i])) as [out|] eqn:Hout; [|done].
  rewrite (Hrec _ _ _ Hout). cbn [mbind option_bind].
  destruct (helper_children rec1 nd prefix slots) as [outs'|]; [|done].
  by rewrite (IH outs' eq_refl).
Qed.

(** More fuel never changes a result of [trie_prefix_helper]. *)
Lemma trie_prefix_helper_mono h fuel : forall fuel' node prefix out,
  (fuel <= fuel')%nat ->
  trie_prefix_helper fuel h node prefix = Some out ->
  trie_prefix_helper fuel' h node prefix = Some out.
Proof.
  induction fuel as [|fuel IH]; intros fuel' [p|] prefix out Hle.
  - done.
  - by destruct fuel'.
  - destruct fuel' as [|fuel']; [lia|]. cbn [trie_prefix_helper].
    generalize alphabet. intros slots.
    destruct (h !! p) as [nd|]; cbn [mbind option_bind]; [|discriminate].
    intros H.
    destruct (helper_children (fun q => trie_prefix_helper fuel h (Some q))
                nd prefix slots) as [outs|] eqn:Houts; [|discriminate H].
    rewrite (helper_children_mono _ (fun q => trie_prefix_helper fuel' h (Some q))
               nd prefix slots (fun q pre o => IH fuel' (Some q) pre o ltac:(lia))
               outs Houts).
    exact H.
  - by destruct fuel'.
Qed.

Lemma collect_children_mono rec1 rec2 nd prefix slots :
  (forall q pre res res', rec1 q pre res = Some res' -> rec2 q pre res = Some res') ->
  forall res res', collect_children rec1 nd prefix slots res = Some res' ->
                   collect_children rec2 nd prefix slots res = Some res'.
Proof.
  intros Hrec. induction slots as [|i slots IH]; intros res res';
    cbn [collect_children]; [done|].
  destruct (count res <? PREFIX_CAP); [|done].
  destruct (mjoin (children nd !! i)) as [q|]; [|apply IH].
  destruct (rec1 q (prefix ++ [letter i]) res) as [res1|] eqn:Hres1; [|done].
  rewrite (Hrec _ _ _ _ Hres1). cbn [mbind option_bind]. apply IH.
Qed.

(** More fuel never changes a result of [collect_prefix_words]. *)
Lemma collect_prefix_words_mono h fuel : forall fuel' node prefix res res',
  (fuel <= fuel')%nat ->
  collect_prefix_words fuel h node prefix res = Some res' ->
  collect_prefix_words fuel' h node prefix res = Some res'.
Proof.
  induction fuel as [|fuel IH]; intros fuel' [p|] prefix res res' Hle;
    cbn [collect_prefix_words].
  - destruct fuel'; cbn [collect_prefix_words]; by destruct (count res >=? PREFIX_CAP).
  - by destruct fuel'.
  - destruct fuel' as [|fuel']; [lia|]. cbn [collect_prefix_words].
    generalize alphabet. intros slots.
    destruct (count res >=? PREFIX_CAP); [exact (fun H => H)|].
    destruct (h !! p) as [nd|]; cbn [mbind option_bind]; [|discriminate].
    apply collect_children_mono. intros q pre r r'. apply IH. lia.
  - by destruct fuel'.
Qed.

(** ** The scenario of the demo *)

Example demo_word_frequency_quick :
  output_freq_result one_document (cstr "quick")
  = Some {| freq_word := cstr "quick"; freq_found := true; freq_total := 2;
            freq_documents := [(0, cstr "doc1", 2)] |}.
Proof. vm_compute. reflexivity. Qed.

Example demo_word_frequency_python :
  output_freq_result one_document (cstr "python")
  = Some {| freq_word := cstr "python"; freq_found := false; freq_total := 0;
            freq_documents := [] |}.
Proof. vm_compute. reflexivity. Qed.

Example demo_prefix_qu :
  prefix_words <$> output_prefix_result one_document (cstr "qu")
  = Some [(cstr "quick", 2)].
Proof. vm_compute. reflexivity. Qed.

Example demo_multi_quick_brown :
  search_multi one_document [cstr "quick"; cstr "brown"]
  = Some (MultiMatches [(cstr "doc1", 0, 3)]).
Proof. vm_compute. reflexivity. Qed.

Example demo_token_count :
  word_count <$> get_document one_document 0 = Some 16.
Proof. vm_compute. reflexivity. Qed.

Example demo_single_letters :
  let e := (index_text create_search_engine (cstr "d") (cstr "a I")).1 in
  heap e = [create_trie_node] /\ word_count <$> get_document e 0 = Some 2.
Proof. vm_compute. split; reflexivity. Qed.

(** A query word of 99 bytes or more has no defined normalized form. *)
Example long_query_undefined :
  normalize_query (replicate 99 "z"%char) = None
  /\ output_freq_result one_document (replicate 99 "z"%char) = None.
Proof. vm_compute. split; reflexivity. Qed.

Lemma strip_skip_delims s : strip_delims (skip_delims s) = strip_delims s.
Proof.
  induction s as [|c s IH]; [done|]. cbn [skip_delims strip_delims List.filter].
  destruct (is_delim c) eqn:Hc; cbn [negb]; [exact IH|].
  cbn [List.filter]. by rewrite Hc.
Qed.

Lemma strip_span_token s :
  strip_delims s = (span_token s).1 ++ strip_delims (span_token s).2.
Proof.
  induction s as [|c s IH]; [done|]. cbn [span_token strip_delims List.filter].
  destruct (is_delim c); cbn [negb fst snd app]; [done|].
  destruct (span_token s) as [tok save]. cbn [fst snd] in *.
  cbn [app]. f_equal. exact IH.
Qed.

Lemma strtok_loop_concat fuel : forall s,
  (length s < fuel)%nat -> concat (strtok_loop fuel s) = strip_delims s.
Proof.
  induction fuel as [|fuel IH]; intros s Hlen; [lia|].
  cbn [strtok_loop]. destruct (strtok s) as [[token save]|] eqn:Ht.
  - pose proof (strtok_shorter _ _ _ Ht) as Hshort.
    cbn [concat]. rewrite IH by lia.
    unfold strtok in Ht. rewrite <- (strip_skip_delims s).
    destruct (skip_delims s) as [|c s1]; [done|].
    assert (Hspan : span_token (c :: s1) = (token, save)) by congruence.
    rewrite (strip_span_token (c :: s1)), Hspan. done.
  - unfold strtok in Ht. rewrite <- (strip_skip_delims s).
    by destruct (skip_delims s).
Qed.

(** The tokens, put end to end, are the text without its separators. *)
Lemma tokenize_concat text : concat (tokenize text) = strip_delims text.
Proof. apply strtok_loop_concat. lia. Qed.

Example tokenize_example :
  tokenize (cstr "  a, I.. hello (world)x")
  = [cstr "a"; cstr "I"; cstr "hello"; cstr "world"; cstr "x"].
Proof. vm_compute. reflexivity. Qed.

(** * Further properties of the code *)

(** ** Normalization and tokenization *)

Lemma normalize_word_app w1 w2 :
  normalize_word (w1 ++ w2) = normalize_word w1 ++ normalize_word w2.
Proof.
  induction w1 as [|c w1 IH]; [done|]. cbn [app normalize_word].
  destruct (isalpha c); [|exact IH]. cbn [app]. by rewrite IH.
Qed.

Lemma normalize_word_filter w :
  normalize_word w = map tolower (List.filter isalpha w).
Proof.
  induction w as [|c w IH]; [done|]. cbn [normalize_word List.filter].
  destruct (isalpha c); [|exact IH]. cbn [map]. by rewrite IH.
Qed.

Lemma normalize_word_length w : (length (normalize_word w) <= length w)%nat.
Proof.
  induction w as [|c w IH]; [done|]. cbn [normalize_word].
  destruct (isalpha c); cbn [length]; lia.
Qed.

(** X1: [normalize_word] keeps the letters of the word, in order and in
    lower case, and drops every other character.  Its result consists of
    the letters a-z only, is never longer than the word, is left alone by
    a second normalization, and a word of lower-case letters is its own
    normal form. *)
Theorem X1_normalize_word_canonical w :
  normalize_word w = map tolower (List.filter isalpha w)
  /\ Forall (fun c => is_lower c = true) (normalize_word w)
  /\ (length (normalize_word w) <= length w)%nat
  /\ normalize_word (normalize_word w) = normalize_word w
  /\ (Forall (fun c => is_lower c = true) w <-> normalize_word w = w)
  /\ forall w', normalize_word (w ++ w') = normalize_word w ++ normalize_word w'.
Proof.
  split; [apply normalize_word_filter|].
  split; [apply normalize_word_lower|].
  split; [apply normalize_word_length|].
  split; [apply normalize_word_idempotent|].
  split; [|intros w'; apply normalize_word_app].
  split; [apply normalize_word_fixed|].
  intros <-. apply normalize_word_lower.
Qed.

Lemma tokenize_nil : tokenize [] = [].
Proof. reflexivity. Qed.

Lemma strtok_loop_S fuel s :
  strtok_loop (S fuel) s
  = match strtok s with
    | None => []
    | Some (token, save) => token :: strtok_loop fuel save
    end.
Proof. reflexivity. Qed.

Lemma strtok_delim c s : is_delim c = true -> strtok (c :: s) = strtok s.
Proof. intros Hc. unfold strtok. cbn [skip_delims]. by rewrite Hc. Qed.

Lemma strtok_letter c s :
  is_delim c = false ->
  strtok (c :: s) = Some (c :: (span_token s).1, (span_token s).2).
Proof.
  intros Hc. unfold strtok. cbn [skip_delims]. rewrite Hc.
  cbn [span_token]. rewrite Hc. by destruct (span_token s).
Qed.

Lemma tokenize_delim c s : is_delim c = true -> tokenize (c :: s) = tokenize s.
Proof.
  intros Hc. unfold tokenize at 1. rewrite strtok_loop_S, strtok_delim by done.
  rewrite <- strtok_loop_S. apply tokenize_fuel. cbn [length]. lia.
Qed.

Lemma tokenize_letter c s :
  is_delim c = false ->
  tokenize (c :: s) = (c :: (span_token s).1) :: tokenize (span_token s).2.
Proof.
  intros Hc. unfold tokenize at 1. rewrite strtok_loop_S, strtok_letter by done.
  f_equal. apply tokenize_fuel.
  pose proof (span_token_length s). cbn [length]. lia.
Qed.

Lemma span_token_app a :
  (Forall (fun c => is_delim c = false) a
   /\ span_token a = (a, [])
   /\ forall c b, is_delim c = true -> span_token (a ++ c :: b) = (a, b))
  \/ (exists tok save,
        span_token a = (tok, save) /\ (length save < length a)%nat
        /\ forall rest, span_token (a ++ rest) = (tok, save ++ rest)).
Proof.
  induction a as [|x a IH].
  - left. split; [constructor|]. split; [done|].
    intros c b Hc. cbn [app span_token]. by rewrite Hc.
  - cbn [app span_token]. destruct (is_delim x) eqn:Hx.
    + right. exists [], a. split; [done|]. split; [cbn [length]; lia | done].
    + destruct IH as [(Hall & Hs & Happ)|(tok & save & Hs & Hlen & Happ)].
      * left. split; [by constructor|]. rewrite Hs. split; [done|].
        intros c b Hc. by rewrite (Happ c b Hc).
      * right. exists (x :: tok), save. rewrite Hs.
        split; [done|]. split; [cbn [length]; lia|].
        intros rest. by rewrite Happ.
Qed.

Lemma tokenize_split_len n : forall a c b,
  (length a < n)%nat -> is_delim c = true ->
  tokenize (a ++ c :: b) = tokenize a ++ tokenize b.
Proof.
  induction n as [|n IH]; intros a c b Hlen Hc; [lia|].
  destruct a as [|x a].
  - cbn [app]. by rewrite tokenize_delim.
  - cbn [app]. cbn [length] in Hlen. destruct (is_delim x) eqn:Hx.
    + rewrite !tokenize_delim by done. apply IH; [lia | done].
    + rewrite !tokenize_letter by done.
      destruct (span_token_app a) as [(Hall & Hs & Happ)|(tok & save & Hs & Hl & Happ)].
      * rewrite (Happ c b Hc), Hs. cbn [fst snd]. by rewrite tokenize_nil.
      * rewrite Happ, Hs. cbn [fst snd]. cbn [app]. f_equal.
        apply IH; [lia | done].
Qed.

Lemma tokenize_split a c b :
  is_delim c = true -> tokenize (a ++ c :: b) = tokenize a ++ tokenize b.
Proof. apply (tokenize_split_len (S (length a))). lia. Qed.

Lemma span_token_no_delim t :
  Forall (fun c => is_delim c = false) t -> span_token t = (t, []).
Proof.
  induction 1 as [|c t Hc _ IH]; [done|].
  cbn [span_token]. by rewrite Hc, IH.
Qed.

Lemma tokenize_single t :
  t <> [] -> Forall (fun c => is_delim c = false) t -> tokenize t = [t].
Proof.
  intros Hne Hall. destruct t as [|c t]; [done|].
  apply Forall_cons in Hall as [Hc Hall]. rewrite tokenize_letter by done.
  rewrite (span_token_no_delim t Hall). cbn [fst snd]. by rewrite tokenize_nil.
Qed.

(** X2: the [strtok] loop cuts a text into its maximal nonempty runs of
    characters that are not separators, in order: no token is empty or
    contains a separator, a separator-free nonempty text is one token, and
    the tokens of a text are those of the part before a separator followed
    by those of the part after it.  The tokens put end to end are the
    text without its separators. *)
Theorem X2_tokenize_characterisation :
  tokenize [] = []
  /\ (forall t, t <> [] -> Forall (fun c => is_delim c = false) t ->
        tokenize t = [t])
  /\ (forall a c b, is_delim c = true ->
        tokenize (a ++ c :: b) = tokenize a ++ tokenize b)
  /\ (forall text,
        Forall (fun token => token <> []
                             /\ Forall (fun c => is_delim c = false) token)
               (tokenize text))
  /\ (forall text, concat (tokenize text) = strip_delims text).
Proof.
  split; [apply tokenize_nil|]. split; [apply tokenize_single|].
  split; [apply tokenize_split|]. split; [apply tokenize_tokens|].
  apply tokenize_concat.
Qed.

(** ** Documents *)

Lemma documents_of_lookup adocs d a :
  0 <= d -> rev adocs !! Z.to_nat d = Some a ->
  get_document_in (documents_of adocs) d
  = Some {| id := d; filename := a_name a; word_count := a_count a |}.
Proof.
  induction adocs as [|x older IH]; intros Hd Hl; [done|].
  cbn [documents_of get_document_in id]. cbn [rev] in Hl.
  pose proof (lookup_lt_Some _ _ _ Hl) as Hlt.
  rewrite length_app, length_rev in Hlt. cbn [length] in Hlt.
  destruct (Z.eqb_spec (Z.of_nat (length older)) d) as [<-|Hne].
  - rewrite Nat2Z.id in Hl.
    rewrite lookup_app_r in Hl by (rewrite length_rev; lia).
    rewrite length_rev, Nat.sub_diag in Hl. by injection Hl as <-.
  - rewrite lookup_app_l in Hl by (rewrite length_rev; lia). by apply IH.
Qed.

Lemma documents_of_lookup_none adocs d :
  d < 0 \/ Z.of_nat (length adocs) <= d ->
  get_document_in (documents_of adocs) d = None.
Proof.
  induction adocs as [|x older IH]; intros Hd; [done|].
  cbn [documents_of get_document_in id]. cbn [length] in Hd.
  destruct (Z.eqb_spec (Z.of_nat (length older)) d) as [<-|Hne]; [lia|].
  apply IH. lia.
Qed.

Lemma corpus_rev_lookup inputs k name text :
  rev inputs !! k = Some (name, text) ->
  rev (corpus inputs) !! k = Some (adoc_of name text).
Proof.
  intros H. unfold corpus. rewrite <- map_rev.
  rewrite list_lookup_fmap, H. done.
Qed.

Lemma corpus_length inputs : length (corpus inputs) = length inputs.
Proof. unfold corpus. apply length_map. Qed.

(** X3: document identifiers are the positions in the order of indexing.
    [get_document] finds the [d]-th indexed document, with its name and
    its number of tokens, exactly for [0 <= d < doc_count]; for any other
    identifier it returns [NULL], and [output_index_result] then prints
    the name "unknown" and a word count of 0. *)
Theorem X3_document_lookup_by_id inputs d :
  let e := engine_of inputs in
  doc_count e = Z.of_nat (length inputs)
  /\ (forall name text,
        0 <= d -> rev inputs !! Z.to_nat d = Some (name, text) ->
        get_document e d
        = Some {| id := d; filename := name;
                  word_count := Z.of_nat (length (tokenize text)) |}
        /\ output_index_result e d
           = {| index_doc_id := d; index_filename := name;
                index_word_count := Z.of_nat (length (tokenize text)) |})
  /\ (d < 0 \/ doc_count e <= d ->
        get_document e d = None
        /\ output_index_result e d
           = {| index_doc_id := d; index_filename := cstr "unknown";
                index_word_count := 0 |}).
Proof.
  intros e. destruct (engine_of_inv inputs) as (L & Hinv). fold e in Hinv.
  pose proof (inv_count _ _ _ Hinv) as Hcount. rewrite corpus_length in Hcount.
  pose proof (inv_documents _ _ _ Hinv) as Hdocs.
  split; [done|]. split.
  - intros name text Hd Hl.
    assert (Hget : get_document e d
                   = Some {| id := d; filename := name;
                             word_count := Z.of_nat (length (tokenize text)) |}).
    { unfold get_document. rewrite Hdocs.
      apply (documents_of_lookup _ _ (adoc_of name text) Hd).
      by apply corpus_rev_lookup. }
    split; [done|]. unfold output_index_result. by rewrite Hget.
  - intros Hd.
    assert (Hget : get_document e d = None).
    { unfold get_document. rewrite Hdocs. apply documents_of_lookup_none.
      rewrite corpus_length. lia. }
    split; [done|]. unfold output_index_result. by rewrite Hget.
Qed.

Lemma documents_of_ids_rev adocs :
  map id (documents_of adocs) = rev (map Z.of_nat (seq 0 (length adocs))).
Proof.
  induction adocs as [|x older IH]; [done|].
  cbn [documents_of map id length]. rewrite seq_S, map_app, rev_app_distr.
  cbn [map rev app]. by rewrite IH.
Qed.

(** X4: [list_documents] prints one line per indexed document, the most
    recently indexed first, with the name given at indexing and the number
    of tokens of its text; the identifiers run down from [doc_count - 1] to
    0 and the total printed last is the number of lines. *)
Theorem X4_list_documents inputs :
  let lines := (list_documents (engine_of inputs)).1 in
  map (fun line => (line.1.2, line.2)) lines
  = map (fun '(name, text) => (name, Z.of_nat (length (tokenize text)))) inputs
  /\ map (fun line => line.1.1) lines
     = rev (map Z.of_nat (seq 0 (length inputs)))
  /\ (list_documents (engine_of inputs)).2 = Z.of_nat (length lines).
Proof.
  intros lines. destruct (engine_of_inv inputs) as (L & Hinv).
  pose proof (inv_count _ _ _ Hinv) as Hcount. rewrite corpus_length in Hcount.
  pose proof (inv_documents _ _ _ Hinv) as Hdocs.
  unfold lines, list_documents. cbn [fst snd]. rewrite Hdocs, !map_map.
  split; [|split].
  - unfold corpus. clear. induction inputs as [|[name text] older IH]; [done|].
    cbn [map documents_of]. by rewrite IH.
  - cbn [fst snd]. change (fun x : Document => id x) with id.
    by rewrite documents_of_ids_rev, corpus_length.
  - by rewrite length_map, documents_of_length, corpus_length.
Qed.

(** ** Occurrence lists *)

Lemma incr_occurrence_Some_frequency l d l' :
  incr_occurrence l d = Some l' ->
  (forall d', entry_frequency l' d'
              = entry_frequency l d' + (if d' =? d then 1 else 0))
  /\ map doc_id l' = map doc_id l
  /\ 0 < entry_count l d.
Proof.
  revert l'. induction l as [|n next IH]; intros l'; [done|].
  cbn [incr_occurrence].
  pose proof (fun x => proj1 (Z.eqb_eq x d)) as Heq.
  destruct (Z.eqb_spec (doc_id n) d) as [Hd|Hd].
  - intros [= <-]. split; [|split; [done|]].
    + intros d'. rewrite !entry_frequency_cons. cbn [doc_id frequency].
      rewrite Hd. rewrite (Z.eqb_sym d d').
      destruct (d' =? d); lia.
    + rewrite entry_count_cons, Hd, Z.eqb_refl.
      assert (0 <= entry_count next d); [|lia].
      clear. induction next as [|x next IH]; [done|].
      rewrite entry_count_cons. destruct (doc_id x =? d); lia.
  - destruct (incr_occurrence next d) as [l0|] eqn:Hi; [|done].
    intros [= <-]. destruct (IH l0 eq_refl) as (H1 & H2 & H3).
    split; [|split].
    + intros d'. rewrite !entry_frequency_cons, H1. lia.
    + cbn [map]. by rewrite H2.
    + rewrite entry_count_cons.
      destruct (Z.eqb_spec (doc_id n) d); [done|]. lia.
Qed.

Lemma incr_occurrence_None_count l d :
  incr_occurrence l d = None -> entry_count l d = 0 /\ d ∉ map doc_id l.
Proof.
  induction l as [|n next IH]; [intros _; split; [done | apply not_elem_of_nil]|].
  cbn [incr_occurrence]. destruct (Z.eqb_spec (doc_id n) d) as [Hd|Hd]; [done|].
  destruct (incr_occurrence next d) as [l0|] eqn:Hi; [done|]. intros _.
  destruct (IH eq_refl) as [H1 H2]. split.
  - rewrite entry_count_cons.
    destruct (Z.eqb_spec (doc_id n) d); [done|]. lia.
  - cbn [map]. rewrite not_elem_of_cons. split; [congruence | done].
Qed.

(** X5: [add_doc_occurrence] counts one more occurrence for the document
    and for the word as a whole, whatever the list held before: the
    frequency of [d] grows by one, that of every other document is
    unchanged, [total_freq] grows by one, and a document gets a new list
    node only when it has none, so identifiers stay distinct in the
    list.  The node's children and end mark are not touched. *)
Theorem X5_add_doc_occurrence_counts nd d :
  let nd' := add_doc_occurrence nd d in
  total_freq nd' = total_freq nd + 1
  /\ (forall d', entry_frequency (doc_list nd') d'
                 = entry_frequency (doc_list nd) d' + (if d' =? d then 1 else 0))
  /\ (0 < entry_count (doc_list nd) d ->
        map doc_id (doc_list nd') = map doc_id (doc_list nd))
  /\ (entry_count (doc_list nd) d = 0 ->
        doc_list nd' = {| doc_id := d; frequency := 1 |} :: doc_list nd)
  /\ (NoDup (map doc_id (doc_list nd)) -> NoDup (map doc_id (doc_list nd')))
  /\ children nd' = children nd /\ is_end nd' = is_end nd.
Proof.
  intros nd'. unfold nd', add_doc_occurrence.
  destruct (incr_occurrence (doc_list nd) d) as [l|] eqn:Hi;
    cbn [total_freq doc_list children is_end].
  - destruct (incr_occurrence_Some_frequency _ _ _ Hi) as (H1 & H2 & H3).
    split; [done|]. split; [done|]. split; [done|].
    split; [lia|]. split; [by rewrite H2 | done].
  - destruct (incr_occurrence_None_count _ _ Hi) as [H1 H2].
    split; [done|]. split.
    { intros d'. rewrite entry_frequency_cons. cbn [doc_id frequency].
      rewrite (Z.eqb_sym d d'). lia. }
    split; [lia|]. split; [done|]. split; [|done].
    intros Hnd. cbn [map doc_id]. by constructor.
Qed.

(** ** Insertion and lookup in the trie *)

Lemma trie_insert_loop_letters w : forall h curr,
  trie_insert_loop h curr w = trie_insert_loop h curr (List.filter is_lower w).
Proof.
  induction w as [|c w IH]; intros h curr; [done|].
  cbn [trie_insert_loop List.filter]. rewrite idx_in_range.
  destruct (is_lower c) eqn:Hc; cbn [negb]; [|apply IH].
  cbn [trie_insert_loop]. rewrite idx_in_range, Hc. cbn [negb].
  destruct (child h curr (char_to_int c - 97)); apply IH.
Qed.

Lemma filter_is_lower w :
  Forall (fun c => is_lower c = true) (List.filter is_lower w).
Proof.
  apply Forall_forall. intros c Hc. apply list_elem_of_In in Hc.
  by apply filter_In in Hc as [_ Hc].
Qed.

Lemma filter_is_lower_id w :
  Forall (fun c => is_lower c = true) w -> List.filter is_lower w = w.
Proof.
  induction 1 as [|c w Hc _ IH]; [done|].
  cbn [List.filter]. by rewrite Hc, IH.
Qed.

Lemma trie_search_Some h L w p :
  trie_wf h L ->
  trie_search h 0 w = Some p <->
  L !! p = Some w /\ exists nd, h !! p = Some nd /\ is_end nd = true.
Proof.
  intros Hwf. pose proof (wf_root _ _ Hwf) as Hroot. unfold trie_search. split.
  - destruct (trie_descend h 0 w) as [q|] eqn:Hd; [|done].
    cbn [mbind option_bind].
    destruct (h !! q) as [nd|] eqn:Hq; [|done]. cbn [mbind option_bind].
    destruct (is_end nd) eqn:He; [|done]. intros [= <-].
    split; [|by exists nd].
    by apply (descend_label h L 0%nat [] w q Hwf Hroot).
  - intros (Hl & nd & Hnd & He).
    rewrite (label_descend h L 0%nat [] w p Hwf Hroot Hl).
    cbn [mbind option_bind]. rewrite Hnd. cbn [mbind option_bind]. by rewrite He.
Qed.

(** X6: inserting a word into a well-formed trie and looking it up.
    [trie_insert] skips the characters that are not lower-case letters,
    so the word is stored under its letters: [trie_search] finds the
    returned node under that spelling, and under the original spelling
    only if the two coincide.  The lookup of every other word is as
    before, the node's end mark is set and its count for the document has
    grown by one. *)
Theorem X6_trie_insert_then_search h L w d :
  trie_wf h L ->
  let letters := List.filter is_lower w in
  let h' := (trie_insert h 0 w d).1 in
  let node := (trie_insert h 0 w d).2 in
  trie_search h' 0 letters = Some node
  /\ (w <> letters -> trie_search h' 0 w = None)
  /\ (forall w', w' <> letters -> trie_search h' 0 w' = trie_search h 0 w')
  /\ (forall p, trie_search h 0 letters = Some p -> p = node)
  /\ exists nd',
       h' !! node = Some nd' /\ is_end nd' = true
       /\ forall d',
            entry_frequency (doc_list nd') d'
            = match h !! node with
              | Some nd => entry_frequency (doc_list nd) d'
              | None => 0
              end + (if d' =? d then 1 else 0).
Proof.
  intros Hwf letters h' node.
  pose proof (wf_root _ _ Hwf) as Hroot.
  pose proof (trie_insert_loop_spec (List.filter is_lower w) h L 0%nat [] Hwf
                Hroot (filter_is_lower w)) as (Lnew & Hwf1 & Hlab & Hlen & Hold & Hnew).
  rewrite <- (trie_insert_loop_letters w h 0%nat) in Hwf1, Hlab, Hlen, Hold, Hnew.
  cbn [app] in Hlab. fold letters in Hlab.
  unfold h', node, trie_insert.
  destruct (trie_insert_loop h 0 w) as [h1 q] eqn:Hloop. cbn [fst snd] in *.
  set (f := fun nd => add_doc_occurrence (set_is_end nd) d).
  assert (Hwf' : trie_wf (alter f q h1) (L ++ Lnew)).
  { apply alter_data_wf; [done|]. intros nd. apply add_doc_occurrence_children. }
  assert (exists nd1, h1 !! q = Some nd1) as [nd1 Hnd1].
  { apply lookup_lt_is_Some. rewrite <- (wf_length _ _ Hwf1).
    by eapply lookup_lt_Some. }
  assert (Hq' : alter f q h1 !! q = Some (f nd1)).
  { by rewrite list_lookup_alter_eq, Hnd1. }
  assert (Hend : is_end (f nd1) = true).
  { unfold f. by rewrite add_doc_occurrence_is_end. }
  assert (Hfound : trie_search (alter f q h1) 0 letters = Some q).
  { apply (trie_search_Some _ _ _ _ Hwf'). split; [done|]. by exists (f nd1). }
  assert (Hframe : forall w' p, w' <> letters ->
            trie_search (alter f q h1) 0 w' = Some p <-> trie_search h 0 w' = Some p).
  { intros w' p Hne.
    rewrite (trie_search_Some _ _ _ _ Hwf'), (trie_search_Some _ _ _ _ Hwf).
    split.
    - intros (Hl & nd & Hnd & He).
      assert (Hpq : q <> p) by (intros ->; congruence).
      rewrite list_lookup_alter_ne in Hnd by done.
      destruct (decide (p < length h)%nat) as [Hlt|Hge].
      + destruct (lookup_lt_is_Some_2 h p Hlt) as [nd0 Hnd0].
        destruct (Hold _ _ Hnd0) as (nd2 & Hnd2 & Hs1 & _).
        rewrite Hnd in Hnd2. injection Hnd2 as <-.
        rewrite lookup_app_l in Hl by (rewrite (wf_length _ _ Hwf); done).
        split; [done|]. exists nd0. split; [done | congruence].
      + destruct (Hnew p nd) as (Hs1 & _); [lia | done |].
        cbn [create_trie_node is_end] in Hs1. congruence.
    - intros (Hl & nd & Hnd & He).
      split; [by apply lookup_app_l_Some|].
      destruct (Hold _ _ Hnd) as (nd2 & Hnd2 & Hs1 & _).
      destruct (decide (q = p)) as [->|Hpq].
      + exists (f nd1). by split.
      + exists nd2. rewrite list_lookup_alter_ne by done. split; [done | congruence]. }
  split; [done|]. split; [|split; [|split]].
  - intros Hne. destruct (trie_search (alter f q h1) 0 w) as [p|] eqn:Hs; [|done].
    exfalso. apply Hne. symmetry. apply filter_is_lower_id.
    unfold trie_search in Hs.
    destruct (trie_descend (alter f q h1) 0 w) as [p'|] eqn:Hd; [|done].
    by apply descend_lower in Hd.
  - intros w' Hne.
    destruct (trie_search (alter f q h1) 0 w') as [p|] eqn:Hs.
    + symmetry. by apply (Hframe w' p Hne).
    + destruct (trie_search h 0 w') as [p|] eqn:Hs0; [|done].
      apply (Hframe w' p Hne) in Hs0. congruence.
  - intros p Hp. apply (trie_search_Some _ _ _ _ Hwf) in Hp as (Hl & _).
    pose proof (lookup_app_l_Some _ Lnew _ _ Hl) as Hl'.
    exact (NoDup_lookup _ _ _ _ (wf_nodup _ _ Hwf1) Hl' Hlab).
  - exists (f nd1). split; [done|]. split; [done|]. intros d'.
    unfold f. unfold add_doc_occurrence.
    assert (Hdl : doc_list nd1
                  = match h !! q with Some nd => doc_list nd | None => [] end).
    { destruct (h !! q) as [nd|] eqn:Hq0.
      - destruct (Hold _ _ Hq0) as (nd2 & Hnd2 & _ & Hs2 & _). congruence.
      - apply lookup_ge_None in Hq0.
        destruct (Hnew q nd1) as (_ & Hs2 & _); [lia | done | done]. }
    assert (Hold_freq : entry_frequency (doc_list nd1) d'
                        = match h !! q with
                          | Some nd => entry_frequency (doc_list nd) d'
                          | None => 0
                          end).
    { rewrite Hdl. by destruct (h !! q). }
    rewrite <- Hold_freq. cbn [set_is_end doc_list].
    destruct (incr_occurrence (doc_list nd1) d) as [l|] eqn:Hi; cbn [doc_list].
    + by destruct (incr_occurrence_Some_frequency _ _ _ Hi) as (H1 & _).
    + rewrite entry_frequency_cons. cbn [doc_id frequency].
      rewrite (Z.eqb_sym d d'). lia.
Qed.

Lemma empty_trie_wf : trie_wf [create_trie_node] [[]].
Proof. exact (inv_wf _ _ _ create_search_engine_inv). Qed.

Lemma X6_trie_insert_then_search_witness :
  trie_wf [create_trie_node] [[]]
  /\ trie_search (trie_insert [create_trie_node] 0 (cstr "a1b") 7).1 0 (cstr "ab")
     = Some (trie_insert [create_trie_node] 0 (cstr "a1b") 7).2
  /\ trie_search (trie_insert [create_trie_node] 0 (cstr "a1b") 7).1 0 (cstr "a1b")
     = None.
Proof.
  split; [exact empty_trie_wf|].
  pose proof (X6_trie_insert_then_search [create_trie_node] [[]] (cstr "a1b") 7
                empty_trie_wf) as (H1 & H2 & _).
  split; [exact H1|]. apply H2. discriminate.
Defined.

(** ** Exact word statistics *)

Lemma total_corpus w inputs : total w (corpus inputs) = total_hits w inputs.
Proof.
  induction inputs as [|[name text] older IH]; [done|].
  cbn [corpus map total total_hits adoc_of a_words]. unfold word_hits.
  f_equal. exact IH.
Qed.

Lemma total_nonneg w adocs : 0 <= total w adocs.
Proof.
  induction adocs as [|d older IH]; [done|]. cbn [total].
  pose proof (occ_nonneg w (a_words d)). lia.
Qed.

Lemma total_pos_indexed w adocs : 0 < total w adocs <-> indexed w adocs.
Proof.
  induction adocs as [|d older IH].
  - split; [cbn [total]; lia|]. intros (d & Hd & _). by apply elem_of_nil in Hd.
  - cbn [total]. rewrite indexed_cons, <- IH, <- occ_pos_elem.
    pose proof (occ_nonneg w (a_words d)). pose proof (total_nonneg w older). lia.
Qed.

Lemma search_line_older a older w :
  map (search_line (documents_of (a :: older))) (occurrences w older)
  = map (search_line (documents_of older)) (occurrences w older).
Proof.
  pose proof (occurrences_ids w older) as Hids.
  induction Hids as [|dn l Hdn _ IH]; [done|]. cbn [map]. rewrite IH. f_equal.
  unfold search_line. cbn [documents_of get_document_in id].
  destruct (Z.eqb_spec (Z.of_nat (length older)) (doc_id dn)); [lia | done].
Qed.

Lemma expected_results_corpus w inputs :
  map (search_line (documents_of (corpus inputs))) (occurrences w (corpus inputs))
  = expected_results w inputs.
Proof.
  induction inputs as [|[name text] older IH]; [done|].
  change (corpus ((name, text) :: older)) with (adoc_of name text :: corpus older).
  cbn [occurrences expected_results]. rewrite map_app, search_line_older, IH.
  f_equal. rewrite corpus_length. cbn [adoc_of a_words]. fold (word_hits w text).
  destruct (0 <? word_hits w text); [|done]. cbn [map]. f_equal.
  unfold search_line. cbn [doc_id frequency documents_of get_document_in id].
  rewrite corpus_length, Z.eqb_refl. done.
Qed.

(** X7: the keyword search reports exact counts.  On the engine built
    from the given texts, [output_search_result] finds a query word
    (shorter than 99 bytes) exactly when some token was indexed under its
    normal form; it then gives the total number of such tokens and, for
    each document that has one, most recently indexed first, the
    document's identifier and name, the number of such tokens in it and
    its number of tokens. *)
Theorem X7_search_result_exact inputs w :
  (length w < MAX_WORD_LEN - 1)%nat ->
  let n := normalize_word w in
  output_search_result (engine_of inputs) w
  = Some (if 0 <? total_hits n inputs
          then {| search_keyword_word := n; search_found := true;
                  search_total := Some (total_hits n inputs);
                  search_results := expected_results n inputs |}
          else {| search_keyword_word := n; search_found := false;
                  search_total := None; search_results := [] |}).
Proof.
  intros Hlen n. destruct (engine_of_inv inputs) as (L & Hinv).
  unfold output_search_result. rewrite (normalize_query_defined w Hlen). fold n.
  cbn [mbind option_bind]. rewrite <- total_corpus.
  destruct (Z.ltb_spec 0 (total n (corpus inputs))) as [Hpos|Hnot].
  - apply total_pos_indexed in Hpos.
    destruct (inv_hash_complete _ _ _ Hinv _ Hpos) as [q Hq]. rewrite Hq.
    destruct (hash_search_valid _ _ _ _ _ Hinv Hq) as (nd & Hnd & Hl & Ht & _).
    rewrite Hnd. cbn [mbind option_bind]. rewrite Hl, Ht. do 2 f_equal.
    rewrite <- expected_results_corpus. unfold get_document.
    by rewrite (inv_documents _ _ _ Hinv).
  - destruct (hash_search (engine_of inputs) n) as [q|] eqn:Hq; [|done].
    apply (inv_hash_sound _ _ _ Hinv) in Hq as [_ Hq].
    apply total_pos_indexed in Hq. lia.
Qed.

Lemma X7_search_result_exact_witness :
  (length (cstr "AB!") < MAX_WORD_LEN - 1)%nat
  /\ output_search_result (engine_of [(cstr "d0", cstr "ab cd ab, x")]) (cstr "AB!")
     = Some {| search_keyword_word := cstr "ab"; search_found := true;
               search_total := Some 2;
               search_results := [(0, cstr "d0", 2, 4)] |}.
Proof.
  assert (H : (length (cstr "AB!") < MAX_WORD_LEN - 1)%nat) by (vm_compute; lia).
  split; [exact H|].
  exact (X7_search_result_exact [(cstr "d0", cstr "ab cd ab, x")] (cstr "AB!") H).
Defined.

Lemma map_ext_Forall {A B} (f g : A -> B) (l : list A) :
  Forall (fun x => f x = g x) l -> map f l = map g l.
Proof. induction 1 as [|x l Hx _ IH]; [done|]. cbn [map]. by rewrite Hx, IH. Qed.

(** X8: the four reports on a word agree.  In every reachable state,
    [search_keyword] and [show_word_frequency] of searchEngine.c and
    [output_freq_result] of searchCLI.c report the same word, the same
    total and the same documents with the same frequencies as
    [output_search_result]; every listed document has a record, so the
    placeholder names are never printed, and the term frequency is the
    quotient of the listed frequency by the listed word count. *)
Theorem X8_reports_agree e w :
  reachable e ->
  match output_search_result e w with
  | Some r =>
      output_freq_result e w
      = Some {| freq_word := search_keyword_word r;
                freq_found := search_found r;
                freq_total := default 0 (search_total r);
                freq_documents :=
                  map (fun x => (x.1.1.1, x.1.1.2, x.1.2)) (search_results r) |}
      /\ search_keyword e w
         = Some (if search_found r
                 then KeywordHits (search_keyword_word r)
                        (default 0 (search_total r))
                        (map (fun x => (x.1.1.2, x.1.1.1, x.1.2)) (search_results r))
                 else NoResults (search_keyword_word r))
      /\ show_word_frequency e w
         = Some (if search_found r
                 then WordStats (search_keyword_word r)
                        (default 0 (search_total r))
                        (map (fun x => (x.1.1.2, x.1.2, TF_quotient x.1.2 x.2))
                             (search_results r))
                 else WordNotFound (search_keyword_word r))
  | None =>
      output_freq_result e w = None /\ search_keyword e w = None
      /\ show_word_frequency e w = None
  end.
Proof.
  intros Hr. destruct (reachable_inv e Hr) as (L & adocs & Hinv & Hc).
  unfold output_search_result, output_freq_result, search_keyword,
    show_word_frequency.
  destruct (normalize_query w) as [n|]; cbn [mbind option_bind]; [|done].
  destruct (hash_search e n) as [q|] eqn:Hq; [|done].
  destruct (hash_search_valid _ _ _ _ _ Hinv Hq) as (nd & Hnd & Hl & Ht & _).
  rewrite Hnd. cbn [mbind option_bind search_found search_keyword_word
                    search_total search_results default].
  rewrite !map_map.
  assert (Hall : Forall (fun dn => exists info,
                           get_document e (doc_id dn) = Some info
                           /\ 0 < frequency dn <= word_count info) (doc_list nd)).
  { rewrite Hl. apply Forall_forall. intros dn Hdn.
    exact (occurrence_word_count _ _ _ _ _ Hinv Hc Hdn). }
  split; [|split].
  - do 2 f_equal.
  - do 2 f_equal. apply map_ext_Forall.
    eapply Forall_impl; [exact Hall|]. intros dn (info & Hget & _).
    cbn [fst snd]. by rewrite Hget.
  - do 2 f_equal. apply map_ext_Forall.
    eapply Forall_impl; [exact Hall|]. intros dn (info & Hget & Hpos).
    cbn [fst snd]. rewrite Hget. cbn [doc_filename term_frequency].
    destruct (Z.eqb_spec (word_count info) 0); [lia | done].
Qed.

Lemma X8_reports_agree_witness :
  reachable small_engine
  /\ search_keyword small_engine (cstr "AB")
     = Some (KeywordHits (cstr "ab") 2 [(cstr "d0", 0, 2)])
  /\ show_word_frequency small_engine (cstr "AB")
     = Some (WordStats (cstr "ab") 2 [(cstr "d0", 2, TF_quotient 2 4)]).
Proof.
  split; [exact small_engine_reachable|].
  pose proof (X8_reports_agree small_engine (cstr "AB") small_engine_reachable) as H.
  vm_compute in H. destruct H as (_ & H1 & H2). split; [exact H1 | exact H2].
Defined.

Lemma occurrences_names_older a older w (unknown : cstring) :
  map (fun doc => (doc_id doc,
                   doc_filename (get_document_in (documents_of (a :: older))
                                                 (doc_id doc)) unknown,
                   frequency doc)) (occurrences w older)
  = map (fun doc => (doc_id doc,
                     doc_filename (get_document_in (documents_of older)
                                                   (doc_id doc)) unknown,
                     frequency doc)) (occurrences w older).
Proof.
  apply map_ext_Forall. eapply Forall_impl; [apply occurrences_ids|].
  intros dn Hdn. cbn beta in *. cbn [documents_of get_document_in id].
  destruct (Z.eqb_spec (Z.of_nat (length older)) (doc_id dn)); [lia | done].
Qed.

(** X9: what indexing one more text adds to a word's statistics.  After
    [index_text], [output_freq_result] reports for every query word
    (shorter than 99 bytes) the total it reported before plus the number
    of tokens of the new text indexed under that word, and the same
    documents as before, preceded by the new document when it has such a
    token.  Nothing that was found is lost and no earlier count
    changes. *)
Theorem X9_index_text_adds_counts e name text w :
  reachable e -> (length w < MAX_WORD_LEN - 1)%nat ->
  let n := normalize_word w in
  let e' := (index_text e name text).1 in
  exists r,
    output_freq_result e w = Some r
    /\ output_freq_result e' w
       = Some {| freq_word := n;
                 freq_found := freq_found r || (0 <? word_hits n text);
                 freq_total := freq_total r + word_hits n text;
                 freq_documents :=
                   (if 0 <? word_hits n text
                    then [(doc_count e, name, word_hits n text)] else [])
                   ++ freq_documents r |}.
Proof.
  intros Hr Hlen n e'. destruct (reachable_inv e Hr) as (L & adocs & Hinv & _).
  destruct (index_text_inv _ _ _ name text Hinv) as (_ & Lnew & Hinv'). fold e' in Hinv'.
  pose proof (normalize_query_defined w Hlen) as Hn. fold n in Hn.
  set (a := adoc_of name text) in *.
  assert (Hhits : occ n (a_words a) = word_hits n text) by done.
  assert (Hnew : output_freq_result e' w
            = Some {| freq_word := n;
                      freq_found := 0 <? total n (a :: adocs);
                      freq_total := total n (a :: adocs);
                      freq_documents :=
                        map (fun doc =>
                               (doc_id doc,
                                doc_filename
                                  (get_document_in (documents_of (a :: adocs))
                                                   (doc_id doc)) (cstr "unknown"),
                                frequency doc))
                            (occurrences n (a :: adocs)) |}).
  { destruct (indexed_decide _ _ _ n Hinv') as [Hi|Hi].
    - rewrite (freq_result_found _ _ _ _ _ Hinv' Hn Hi).
      apply total_pos_indexed in Hi. apply Z.ltb_lt in Hi. by rewrite Hi.
    - rewrite (freq_result_absent _ _ _ _ _ Hinv' Hn Hi).
      destruct (not_indexed_occurrences _ _ Hi) as [-> ->]. done. }
  assert (Hold : output_freq_result e w
            = Some {| freq_word := n;
                      freq_found := 0 <? total n adocs;
                      freq_total := total n adocs;
                      freq_documents :=
                        map (fun doc =>
                               (doc_id doc,
                                doc_filename
                                  (get_document_in (documents_of adocs)
                                                   (doc_id doc)) (cstr "unknown"),
                                frequency doc))
                            (occurrences n adocs) |}).
  { destruct (indexed_decide _ _ _ n Hinv) as [Hi|Hi].
    - rewrite (freq_result_found _ _ _ _ _ Hinv Hn Hi).
      apply total_pos_indexed in Hi. apply Z.ltb_lt in Hi. by rewrite Hi.
    - rewrite (freq_result_absent _ _ _ _ _ Hinv Hn Hi).
      destruct (not_indexed_occurrences _ _ Hi) as [-> ->]. done. }
  eexists. split; [exact Hold|]. rewrite Hnew.
  cbn [freq_found freq_total freq_documents total occurrences].
  rewrite map_app, occurrences_names_older, Hhits.
  pose proof (total_nonneg n adocs) as Ht.
  pose proof (occ_nonneg n (omap indexed_form (tokenize text))) as Hh.
  fold (word_hits n text) in Hh.
  f_equal. f_equal.
  - destruct (Z.ltb_spec 0 (total n adocs)), (Z.ltb_spec 0 (word_hits n text)),
      (Z.ltb_spec 0 (word_hits n text + total n adocs)); cbn [orb]; done || lia.
  - lia.
  - f_equal. destruct (0 <? word_hits n text); [|done]. cbn [map]. f_equal.
    cbn [doc_id frequency documents_of get_document_in id].
    rewrite Z.eqb_refl. cbn [doc_filename filename].
    by rewrite (inv_count _ _ _ Hinv).
Qed.

Lemma X9_index_text_adds_counts_witness :
  reachable small_engine
  /\ (length (cstr "ab") < MAX_WORD_LEN - 1)%nat
  /\ output_freq_result
       (index_text small_engine (cstr "d1") (cstr "Ab. ab? zz")).1 (cstr "ab")
     = Some {| freq_word := cstr "ab"; freq_found := true; freq_total := 4;
               freq_documents := [(1, cstr "d1", 2); (0, cstr "d0", 2)] |}.
Proof.
  assert (H : (length (cstr "ab") < MAX_WORD_LEN - 1)%nat) by (vm_compute; lia).
  split; [exact small_engine_reachable|]. split; [exact H|].
  destruct (X9_index_text_adds_counts small_engine (cstr "d1") (cstr "Ab. ab? zz")
              (cstr "ab") small_engine_reachable H) as (r & Hold & Hnew).
  vm_compute in Hold. injection Hold as <-. exact Hnew.
Defined.

(** ** The vocabulary of the index and the shape of the trie *)

Lemma indexed_form_bounds token w :
  indexed_form token = Some w ->
  Forall (fun c => is_lower c = true) w
  /\ (2 <= length w <= MAX_WORD_LEN - 1)%nat.
Proof.
  unfold indexed_form. generalize (MAX_WORD_LEN - 1)%nat. intros m.
  destruct (Nat.ltb_spec (length (normalize_word (take m token))) 2)
    as [|Hlen]; [done|].
  intros [= <-]. split; [apply normalize_word_lower|]. split; [done|].
  pose proof (normalize_word_length (take m token)) as H1.
  rewrite length_take in H1. lia.
Qed.

Lemma hash_search_bounds e w p :
  reachable e -> hash_search e w = Some p ->
  Forall (fun c => is_lower c = true) w
  /\ (2 <= length w <= MAX_WORD_LEN - 1)%nat.
Proof.
  intros Hr Hs. apply reachable_engine_of in Hr as [inputs ->].
  destruct (engine_of_inv inputs) as (L & Hinv).
  pose proof (inv_hash_sound _ _ _ Hinv _ _ Hs) as [_ Hi].
  apply indexed_corpus in Hi as (name & text & token & _ & _ & Hf).
  exact (indexed_form_bounds _ _ Hf).
Qed.

(** X10: the vocabulary of the index.  In every reachable state a word
    found by [hash_search] (equivalently by [trie_search]) consists of
    lower-case letters only, has at least 2 and at most 99 of them, and is
    its own normal form. *)
Theorem X10_index_vocabulary e w p :
  reachable e -> hash_search e w = Some p ->
  Forall (fun c => is_lower c = true) w
  /\ (2 <= length w <= MAX_WORD_LEN - 1)%nat
  /\ normalize_word w = w
  /\ trie_search (heap e) (trie_root e) w = Some p.
Proof.
  intros Hr Hs. destruct (hash_search_bounds e w p Hr Hs) as [Hlow Hlen].
  destruct (reachable_inv e Hr) as (L & adocs & Hinv & _).
  split; [done|]. split; [done|]. split; [by apply normalize_word_fixed|].
  by rewrite <- (hash_search_trie_search _ _ _ w Hinv).
Qed.

Lemma X10_index_vocabulary_witness :
  reachable small_engine
  /\ hash_search small_engine (cstr "ab") = Some 2%nat
  /\ (2 <= length (cstr "ab") <= MAX_WORD_LEN - 1)%nat.
Proof.
  assert (H : hash_search small_engine (cstr "ab") = Some 2%nat)
    by (vm_compute; reflexivity).
  split; [exact small_engine_reachable|]. split; [exact H|].
  exact (proj1 (proj2 (X10_index_vocabulary small_engine (cstr "ab") 2%nat
                         small_engine_reachable H))).
Defined.

(** The walk of [trie_insert] adds nodes on the path of the word only. *)
Lemma trie_insert_loop_labels w : forall h L curr lp,
  trie_wf h L -> L !! curr = Some lp ->
  Forall (fun c => is_lower c = true) w ->
  exists Lnew,
    trie_wf (trie_insert_loop h curr w).1 (L ++ Lnew)
    /\ (L ++ Lnew) !! (trie_insert_loop h curr w).2 = Some (lp ++ w)
    /\ heap_extends h (trie_insert_loop h curr w).1
    /\ Forall (fun l => l `prefix_of` lp ++ w) Lnew.
Proof.
  induction w as [|c w IH]; intros h L curr lp Hwf Hcurr Hlow.
  - exists []. rewrite !app_nil_r. simpl.
    split; [done|]. split; [done|]. split; [apply heap_extends_refl | constructor].
  - apply Forall_cons in Hlow as [Hc Hlow].
    cbn [trie_insert_loop]. rewrite idx_in_range, Hc. cbn [negb].
    destruct (child h curr (char_to_int c - 97)) as [q|] eqn:Hq.
    + apply child_edge in Hq.
      destruct (wf_child _ _ Hwf _ _ _ Hq) as (_ & lp' & Hp' & Hlq).
      rewrite Hcurr in Hp'. injection Hp' as <-.
      rewrite letter_slot in Hlq by done.
      destruct (IH h L q _ Hwf Hlq Hlow) as (Lnew & H1 & H2 & H3 & H4).
      exists Lnew. rewrite <- (app_assoc lp [c] w) in H2, H4. done.
    + assert (exists nd, h !! curr = Some nd) as [nd Hnd].
      { apply lookup_lt_is_Some. rewrite <- (wf_length _ _ Hwf).
        by eapply lookup_lt_Some. }
      assert (Hfree : mjoin (children nd !! slot c) = None).
      { unfold child in Hq. rewrite Hnd in Hq. done. }
      pose proof (slot_range _ Hc) as Hi.
      pose proof (add_child_wf h L curr lp nd (slot c) Hwf Hcurr Hnd Hi Hfree) as Hwf'.
      pose proof (add_child_extends h curr nd (slot c) Hnd Hi) as Hext.
      rewrite letter_slot in Hwf' by done.
      assert (Hnew : (L ++ [lp ++ [c]]) !! length h = Some (lp ++ [c])).
      { rewrite <- (wf_length _ _ Hwf). by rewrite list_lookup_middle. }
      destruct (IH _ _ _ _ Hwf' Hnew Hlow) as (Lnew & H1 & H2 & H3 & H4).
      exists ([lp ++ [c]] ++ Lnew). rewrite (app_assoc L [lp ++ [c]] Lnew).
      rewrite <- (app_assoc lp [c] w) in H2, H4.
      split; [exact H1|]. split; [exact H2|].
      split; [eapply heap_extends_trans; [exact Hext | exact H3]|].
      apply Forall_app. split; [|exact H4].
      constructor; [|constructor]. exists w. by rewrite <- app_assoc.
Qed.

Lemma index_word_shape e L token d :
  trie_shape e L -> exists Lnew, trie_shape (index_word e token d) (L ++ Lnew).
Proof.
  intros (Hwf & Hroot & Hlive). unfold index_word.
  set (n := normalize_word (take (MAX_WORD_LEN - 1) token)).
  destruct (length n <? 2)%nat.
  { exists []. by rewrite app_nil_r. }
  assert (Hlow : Forall (fun c => is_lower c = true) n) by apply normalize_word_lower.
  pose proof (wf_root _ _ Hwf) as HL0.
  destruct (trie_insert_loop_labels n (heap e) L 0%nat [] Hwf HL0 Hlow)
    as (Lnew & Hwf1 & Hlab & (Hlen & Hold & Hnew) & Hpre).
  cbn [app] in Hlab, Hpre. exists Lnew.
  unfold trie_insert. rewrite Hroot.
  destruct (trie_insert_loop (heap e) 0 n) as [h1 q] eqn:Hloop. cbn [fst snd] in *.
  set (f := fun nd => add_doc_occurrence (set_is_end nd) d).
  unfold trie_shape.
  destruct (hash_insert_fields (set_heap e (alter f q h1)) n q) as (-> & -> & _).
  cbn [set_heap heap trie_root].
  assert (exists nd1, h1 !! q = Some nd1) as [nd1 Hnd1].
  { apply lookup_lt_is_Some. rewrite <- (wf_length _ _ Hwf1).
    by eapply lookup_lt_Some. }
  assert (Hq' : alter f q h1 !! q = Some (f nd1)).
  { by rewrite list_lookup_alter_eq, Hnd1. }
  assert (Hend : is_end (f nd1) = true).
  { unfold f. by rewrite add_doc_occurrence_is_end. }
  split; [|split; [done|]].
  - apply alter_data_wf; [done|]. intros nd. apply add_doc_occurrence_children.
  - intros r l Hl. destruct (decide (r < length L)%nat) as [Hlt|Hge].
    + rewrite lookup_app_l in Hl by done.
      destruct (Hlive r l Hl) as [->|(t & s & nd & Ht & Hnd & He)]; [by left|].
      right. exists t, s.
      destruct (Hold _ _ Hnd) as (nd2 & Hnd2 & Hs1 & _).
      destruct (decide (q = t)) as [->|Hne].
      * exists (f nd1). split; [by apply lookup_app_l_Some|]. by split.
      * exists nd2. split; [by apply lookup_app_l_Some|].
        rewrite list_lookup_alter_ne by done. split; [done | congruence].
    + rewrite lookup_app_r in Hl by lia.
      apply list_elem_of_lookup_2 in Hl.
      destruct (Forall_elem Hpre Hl) as [s Hs].
      right. exists q, s, (f nd1). rewrite <- Hs. by split.
Qed.

Lemma index_tokens_shape d tokens : forall e L c0,
  trie_shape e L ->
  exists Lnew,
    trie_shape (fold_left (fun '(e, word_count) token =>
                             (index_word e token d, word_count + 1))
                          tokens (e, c0)).1 (L ++ Lnew).
Proof.
  induction tokens as [|t tokens IH]; intros e L c0 Hs.
  - exists []. by rewrite app_nil_r.
  - cbn [fold_left]. destruct (index_word_shape e L t d Hs) as (L1 & H1).
    destruct (IH _ _ (c0 + 1) H1) as (L2 & H2).
    exists (L1 ++ L2). by rewrite app_assoc.
Qed.

Lemma index_text_shape e L name text :
  trie_shape e L -> exists Lnew, trie_shape (index_text e name text).1 (L ++ Lnew).
Proof.
  intros Hs. unfold index_text, index_tokens.
  assert (H1 : trie_shape (add_document e name) L) by exact Hs.
  destruct (index_tokens_shape (doc_count (add_document e name) - 1)
              (tokenize text) _ L 0 H1) as (Lnew & H2).
  exists Lnew.
  destruct (fold_left _ (tokenize text) (add_document e name, 0)) as [e2 wc].
  exact H2.
Qed.

Lemma reachable_shape e : reachable e -> exists L, trie_shape e L.
Proof.
  induction 1 as [|e name text _ (L & IH)].
  - exists [[]]. split; [exact empty_trie_wf|]. split; [done|].
    intros q l Hl. left. destruct q; [by injection Hl as <- | done].
  - destruct (index_text_shape e L name text IH) as (Lnew & H). by eexists.
Qed.

(** X11: the trie has no dead branch and no path longer than a word.
    In every reachable state, a path that can be followed from the root
    has at most 99 characters, all lower-case letters, and, unless it is
    empty, it can be continued to a word of the index.  So the 100-byte
    prefix buffers of the traversals always hold the path and its
    terminator. *)
Theorem X11_trie_paths e s p :
  reachable e -> trie_descend (heap e) (trie_root e) s = Some p ->
  (length s <= MAX_WORD_LEN - 1)%nat
  /\ Forall (fun c => is_lower c = true) s
  /\ (s <> [] ->
      exists s' t, trie_search (heap e) (trie_root e) (s ++ s') = Some t
                   /\ hash_search e (s ++ s') = Some t).
Proof.
  intros Hr Hd. destruct (reachable_shape e Hr) as (L & Hwf & Hroot & Hlive).
  destruct (reachable_inv e Hr) as (L' & adocs & Hinv & _).
  assert (Hext : s <> [] ->
          exists s' t, trie_search (heap e) (trie_root e) (s ++ s') = Some t
                       /\ hash_search e (s ++ s') = Some t).
  { intros Hne. rewrite Hroot in Hd.
    pose proof (descend_label _ _ _ _ _ _ Hwf (wf_root _ _ Hwf) Hd) as Hl.
    cbn [app] in Hl.
    destruct (Hlive _ _ Hl) as [->|(t & s' & nd & Ht & Hnd & He)]; [done|].
    exists s', t.
    assert (Hts : trie_search (heap e) (trie_root e) (s ++ s') = Some t).
    { rewrite Hroot. apply (trie_search_Some _ _ _ _ Hwf). split; [done|].
      by exists nd. }
    split; [done|]. by rewrite (hash_search_trie_search _ _ _ (s ++ s') Hinv). }
  split; [|split; [by eapply descend_lower | done]].
  destruct s as [|c s]; [cbn [length]; lia|].
  destruct Hext as (s' & t & _ & Hh); [done|].
  destruct (hash_search_bounds e _ t Hr Hh) as [_ Hlen].
  rewrite length_app in Hlen. lia.
Qed.

Lemma X11_trie_paths_witness :
  reachable small_engine
  /\ trie_descend (heap small_engine) (trie_root small_engine) (cstr "a") = Some 1%nat
  /\ exists s' t, hash_search small_engine (cstr "a" ++ s') = Some t.
Proof.
  assert (H : trie_descend (heap small_engine) (trie_root small_engine) (cstr "a")
              = Some 1%nat) by (vm_compute; reflexivity).
  split; [exact small_engine_reachable|]. split; [exact H|].
  destruct (X11_trie_paths small_engine (cstr "a") 1%nat small_engine_reachable H)
    as (_ & _ & Hext).
  destruct Hext as (s' & t & _ & Hh); [discriminate|]. by exists s', t.
Defined.

(** ** Prefix search *)

Lemma descend_of_indexed e L adocs n w t :
  engine_inv e L adocs -> n `prefix_of` w -> hash_search e w = Some t ->
  is_Some (trie_descend (heap e) (trie_root e) n).
Proof.
  intros Hinv [k ->] Hs.
  rewrite (hash_search_trie_search _ _ _ _ Hinv) in Hs. unfold trie_search in Hs.
  rewrite trie_descend_app in Hs.
  destruct (trie_descend (heap e) (trie_root e) n) as [p|]; [by eexists | done].
Qed.

(** The uncapped listing below a node reached by a path, in terms of the
    lookup index. *)
Lemma listing_below e L adocs n curr :
  engine_inv e L adocs ->
  trie_descend (heap e) (trie_root e) n = Some curr ->
  exists out,
    trie_prefix_helper (length (heap e)) (heap e) (Some curr) n = Some out
    /\ StronglySorted lex_lt (map fst out)
    /\ forall w f, (w, f) ∈ out <->
         n `prefix_of` w
         /\ exists q nd, hash_search e w = Some q /\ heap e !! q = Some nd
                         /\ f = total_freq nd.
Proof.
  intros Hinv Hd. pose proof (inv_wf _ _ _ Hinv) as Hwf.
  rewrite (inv_root _ _ _ Hinv) in Hd.
  pose proof (descend_label _ _ _ _ _ _ Hwf (wf_root _ _ Hwf) Hd) as Hl.
  cbn [app] in Hl.
  destruct (trie_prefix_helper_listing _ _ Hwf (length (heap e)) curr n Hl)
    as (out & Hout & Hsorted & Hmem); [lia|].
  exists out. split; [done|]. split; [done|]. intros w f.
  rewrite Hmem, (terminal_word_hash_search _ _ _ _ _ Hinv). tauto.
Qed.

(** X12: the prefix search of searchEngine.c, for a prefix shorter than
    99 bytes, lists every indexed word that starts with the normalized
    prefix, each once, in dictionary order and with its exact total
    count, without any cap.  It reports that there are no such words
    only for a nonempty prefix with which no indexed word starts, and its
    listing is empty only for the empty prefix on an index without
    words. *)
Theorem X12_search_prefix_lists_all inputs prefix n :
  normalize_query prefix = Some n ->
  let e := engine_of inputs in
  match search_prefix e prefix with
  | Some (WordsWithPrefix n' lines) =>
      n' = n
      /\ StronglySorted lex_lt (map fst lines)
      /\ (forall w f, (w, f) ∈ lines <->
            n `prefix_of` w /\ 0 < total_hits w inputs /\ f = total_hits w inputs)
      /\ (lines = [] -> n = [] /\ forall w, total_hits w inputs = 0)
  | Some (NoWordsWithPrefix n') =>
      n' = n /\ n <> []
      /\ forall w, n `prefix_of` w -> total_hits w inputs = 0
  | None => False
  end.
Proof.
  intros Hn e. destruct (engine_of_inv inputs) as (L & Hinv). fold e in Hinv.
  assert (Hr : reachable e) by (apply reachable_engine_of; by exists inputs).
  assert (Hzero : forall w, hash_search e w = None -> total_hits w inputs = 0).
  { intros w Hs. rewrite <- total_corpus.
    destruct (Z.ltb_spec 0 (total w (corpus inputs))) as [Hpos|Hle].
    - apply total_pos_indexed in Hpos.
      destruct (inv_hash_complete _ _ _ Hinv _ Hpos) as [q Hq]. congruence.
    - pose proof (total_nonneg w (corpus inputs)). lia. }
  unfold search_prefix. rewrite Hn. cbn [mbind option_bind].
  unfold trie_prefix_search.
  destruct (trie_descend (heap e) (trie_root e) n) as [curr|] eqn:Hd.
  - destruct (listing_below e L _ n curr Hinv Hd) as (out & -> & Hsorted & Hmem).
    cbn [fmap option_fmap option_map].
    assert (Hmem' : forall w f, (w, f) ∈ out <->
              n `prefix_of` w /\ 0 < total_hits w inputs /\ f = total_hits w inputs).
    { intros w f. rewrite Hmem, <- total_corpus. split.
      - intros (Hp & q & nd & Hq & Hnd & ->). split; [done|].
        destruct (hash_search_valid _ _ _ _ _ Hinv Hq) as (nd' & Hnd' & _ & Ht & _).
        rewrite Hnd in Hnd'. injection Hnd' as <-. rewrite Ht. split; [|done].
        apply total_pos_indexed. by apply (inv_hash_sound _ _ _ Hinv w q).
      - intros (Hp & Hpos & ->). split; [done|].
        apply total_pos_indexed in Hpos.
        destruct (inv_hash_complete _ _ _ Hinv _ Hpos) as [q Hq].
        destruct (hash_search_valid _ _ _ _ _ Hinv Hq) as (nd & Hnd & _ & Ht & _).
        by exists q, nd. }
    split; [done|]. split; [done|]. split; [done|].
    intros ->.
    assert (Hnone : forall w, n `prefix_of` w -> total_hits w inputs = 0).
    { intros w Hp. destruct (Z.ltb_spec 0 (total_hits w inputs)) as [Hpos|Hle].
      - assert (Hin : (w, total_hits w inputs) ∈ @nil (cstring * Z))
          by (by apply Hmem').
        by apply elem_of_nil in Hin.
      - rewrite <- total_corpus in *. pose proof (total_nonneg w (corpus inputs)). lia. }
    destruct n as [|c n].
    + split; [done|]. intros w. apply Hnone. by exists w.
    + exfalso.
      destruct (reachable_shape e Hr) as (L2 & Hwf2 & Hroot2 & Hlive2).
      rewrite Hroot2 in Hd.
      pose proof (descend_label _ _ _ _ _ _ Hwf2 (wf_root _ _ Hwf2) Hd) as Hl.
      cbn [app] in Hl.
      destruct (Hlive2 _ _ Hl) as [?|(t & s' & nd & Ht & Hnd & He)]; [done|].
      assert (Hts : trie_search (heap e) (trie_root e) ((c :: n) ++ s') = Some t).
      { rewrite Hroot2. apply (trie_search_Some _ _ _ _ Hwf2). split; [done|].
        by exists nd. }
      rewrite <- (hash_search_trie_search _ _ _ _ Hinv) in Hts.
      pose proof (Hnone ((c :: n) ++ s')) as H0.
      rewrite <- total_corpus in H0.
      apply (inv_hash_sound _ _ _ Hinv) in Hts as [_ Hi].
      apply total_pos_indexed in Hi. rewrite H0 in Hi; [lia|]. by exists s'.
  - split; [done|]. split.
    + intros ->. cbn [trie_descend] in Hd. done.
    + intros w Hp. apply Hzero.
      destruct (hash_search e w) as [t|] eqn:Hs; [|done].
      destruct (descend_of_indexed _ _ _ _ _ _ Hinv Hp Hs) as [x Hx]. congruence.
Qed.

Lemma X12_search_prefix_lists_all_witness :
  normalize_query (cstr "C") = Some (cstr "c")
  /\ search_prefix (engine_of [(cstr "d0", cstr "ab cd ab, x")]) (cstr "C")
     = Some (WordsWithPrefix (cstr "c") [(cstr "cd", 1)]).
Proof.
  split; [reflexivity|].
  pose proof (X12_search_prefix_lists_all [(cstr "d0", cstr "ab cd ab, x")]
                (cstr "C") (cstr "c") eq_refl) as H.
  cbv zeta in H.
  destruct (search_prefix (engine_of [(cstr "d0", cstr "ab cd ab, x")]) (cstr "C"))
    as [[n'|n' lines]|] eqn:Hs; [| |done].
  - exfalso. vm_compute in Hs. discriminate.
  - destruct H as (-> & _). vm_compute in Hs. injection Hs as <-. reflexivity.
Defined.

(** X13: the [found] flag of the prefix search of searchCLI.c.  For a
    prefix shorter than 99 bytes,
    [output_prefix_result] answers [found: true] exactly when the
    normalized prefix is empty or some indexed word starts with it, and it
    lists at least one word exactly when some indexed word starts with the
    prefix: [found: true] with an empty list is the answer to the empty
    prefix on an empty index only. *)
Theorem X13_prefix_found_flag e prefix n :
  reachable e -> normalize_query prefix = Some n ->
  exists r,
    output_prefix_result e prefix = Some r
    /\ (prefix_found r = true <->
        n = [] \/ exists w, n `prefix_of` w /\ is_Some (hash_search e w))
    /\ (prefix_words r <> [] <->
        exists w, n `prefix_of` w /\ is_Some (hash_search e w))
    /\ (prefix_found r = false -> prefix_words r = []).
Proof.
  intros Hr Hn. destruct (reachable_inv e Hr) as (L & adocs & Hinv & _).
  unfold output_prefix_result. rewrite Hn. cbn [mbind option_bind].
  destruct (trie_descend (heap e) (trie_root e) n) as [curr|] eqn:Hd.
  - destruct (listing_below e L _ n curr Hinv Hd) as (out & Hout & Hsorted & Hmem).
    destruct (collect_prefix_words_take (heap e) (length (heap e)) (Some curr) n
                {| entries := []; visited := [] |} out Hout)
      as (res & -> & Hres); [cbn [entries length]; lia|].
    cbn [mbind option_bind entries app] in *. eexists. split; [done|].
    cbn [prefix_found prefix_words]. rewrite Hres.
    assert (Hne : take cap out <> [] <->
                  exists w, n `prefix_of` w /\ is_Some (hash_search e w)).
    { split.
      - destruct out as [|[w f] out]; [by rewrite take_nil|]. intros _.
        destruct (proj1 (Hmem w f)) as (Hp & q & nd & Hq & _); [left|].
        exists w. split; [done | by eexists].
      - intros (w & Hp & q & Hq).
        destruct (hash_search_valid _ _ _ _ _ Hinv Hq) as (nd & Hnd & _).
        assert (Hin : (w, total_freq nd) ∈ out).
        { apply Hmem. split; [done|]. by exists q, nd. }
        destruct out as [|x out]; [by apply elem_of_nil in Hin|].
        rewrite cap_value. done. }
    split; [|split; [done | done]].
    split; [|done]. intros _.
    destruct n as [|c n]; [by left|]. right. apply Hne.
    destruct (reachable_shape e Hr) as (L2 & Hwf2 & Hroot2 & Hlive2).
    rewrite Hroot2 in Hd.
    pose proof (descend_label _ _ _ _ _ _ Hwf2 (wf_root _ _ Hwf2) Hd) as Hl.
    cbn [app] in Hl.
    destruct (Hlive2 _ _ Hl) as [?|(t & s' & nd & Ht & Hnd & He)]; [done|].
    assert (Hts : trie_search (heap e) (trie_root e) ((c :: n) ++ s') = Some t).
    { rewrite Hroot2. apply (trie_search_Some _ _ _ _ Hwf2). split; [done|].
      by exists nd. }
    rewrite <- (hash_search_trie_search _ _ _ _ Hinv) in Hts.
    assert (Hin : ((c :: n) ++ s', total_freq nd) ∈ out).
    { apply Hmem. split; [by exists s'|]. by exists t, nd. }
    destruct out as [|x out]; [by apply elem_of_nil in Hin|].
    rewrite cap_value. done.
  - eexists. split; [done|]. cbn [prefix_found prefix_words].
    assert (Hnone : ~ exists w, n `prefix_of` w /\ is_Some (hash_search e w)).
    { intros (w & Hp & t & Hs).
      destruct (descend_of_indexed _ _ _ _ _ _ Hinv Hp Hs) as [x Hx]. congruence. }
    split; [|split; [|done]].
    + split; [done|]. intros [->|H]; [|done]. cbn [trie_descend] in Hd. done.
    + split; [done|]. intros H. by destruct Hnone.
Qed.

Lemma X13_prefix_found_flag_witness :
  reachable small_engine
  /\ normalize_query (cstr "zz") = Some (cstr "zz")
  /\ exists r, output_prefix_result small_engine (cstr "zz") = Some r
               /\ prefix_words r = [].
Proof.
  split; [exact small_engine_reachable|]. split; [reflexivity|].
  destruct (X13_prefix_found_flag small_engine (cstr "zz") (cstr "zz")
              small_engine_reachable eq_refl) as (r & Hr & _ & _ & Hempty).
  exists r. split; [exact Hr|]. apply Hempty.
  vm_compute in Hr. by injection Hr as <-.
Defined.

(** ** Indexing a file *)

Lemma c_string_no_NUL buf : NUL ∉ buf -> c_string buf = buf.
Proof.
  induction buf as [|c buf IH]; [done|]. intros Hn.
  apply not_elem_of_cons in Hn as [Hc Hn]. cbn [c_string].
  destruct (decide (c = NUL)); [congruence|]. by rewrite IH.
Qed.

Lemma read_line_spec n : forall s buf rest,
  read_line n s = (buf, rest) ->
  s = buf ++ rest /\ (length buf <= n)%nat
  /\ ((exists b, buf = b ++ [newline] /\ newline ∉ b)
      \/ ((newline ∉ buf) /\ (rest = [] \/ length buf = n))).
Proof.
  induction n as [|n IH]; intros s buf rest.
  - cbn [read_line]. intros [= <- <-]. split; [done|]. split; [done|].
    right. split; [apply not_elem_of_nil | by right].
  - destruct s as [|c s]; cbn [read_line].
    + intros [= <- <-]. split; [done|]. split; [cbn [length]; lia|].
      right. split; [apply not_elem_of_nil | by left].
    + destruct (decide (c = newline)) as [->|Hc].
      * intros [= <- <-]. split; [done|]. split; [cbn [length]; lia|].
        left. exists []. split; [done | apply not_elem_of_nil].
      * destruct (read_line n s) as [buf' rest'] eqn:Hr. intros [= <- <-].
        destruct (IH _ _ _ Hr) as (-> & Hlen & Hcase).
        split; [done|]. split; [cbn [length]; lia|].
        destruct Hcase as [(b & -> & Hb)|(Hb & Hrest)].
        -- left. exists (c :: b). split; [done|].
           apply not_elem_of_cons. by split.
        -- right. split; [apply not_elem_of_cons; by split|].
           destruct Hrest as [->|<-]; [by left | by right].
Qed.

Lemma read_line_progress n c s : (read_line (S n) (c :: s)).1 <> [].
Proof.
  cbn [read_line]. destruct (decide (c = newline)); [done|].
  by destruct (read_line n s).
Qed.

Lemma short_lines_suffix n a s : short_lines n (a ++ s) -> short_lines n s.
Proof.
  intros H x l b -> Hl. apply (H (a ++ x) l b); [|done]. by rewrite <- app_assoc.
Qed.

Lemma short_lines_of_length n s : (length s <= n)%nat -> short_lines n s.
Proof.
  intros Hlen a l b -> _. rewrite !length_app in Hlen. lia.
Qed.

Lemma is_delim_newline : is_delim newline = true.
Proof. reflexivity. Qed.

Lemma tokenize_app_nil_delim a c : is_delim c = true -> tokenize (a ++ [c]) = tokenize a.
Proof. intros Hc. by rewrite tokenize_split, tokenize_nil, app_nil_r. Qed.

(** One [fgets] chunk of a text with short lines: its tokens are the
    first tokens of the text. *)
Lemma fgets_tokens size s line rest :
  NUL ∉ s -> short_lines (size - 1) s ->
  fgets size s = Some (line, rest) ->
  tokenize s = tokenize line ++ tokenize rest
  /\ (length rest < length s \/ size <= 1)%nat
  /\ (NUL ∉ rest) /\ short_lines (size - 1) rest.
Proof.
  intros Hnul Hshort. unfold fgets. destruct s as [|c s]; [done|].
  destruct (read_line (size - 1) (c :: s)) as [buf rest'] eqn:Hr.
  intros [= <- <-].
  destruct (read_line_spec _ _ _ _ Hr) as (Hs & Hlen & Hcase).
  assert (Hnb : (NUL ∉ buf) /\ (NUL ∉ rest')).
  { rewrite Hs in Hnul. by apply not_elem_of_app in Hnul. }
  destruct Hnb as [Hnb Hnr]. rewrite (c_string_no_NUL _ Hnb).
  assert (Hprog : (length rest' < length (c :: s) \/ size <= 1)%nat).
  { destruct (size - 1)%nat as [|m] eqn:Hm; [right; lia|]. left.
    pose proof (read_line_progress m c s) as Hp. rewrite Hr in Hp. cbn [fst] in Hp.
    rewrite Hs, length_app. destruct buf; [done|]. cbn [length]. lia. }
  split; [|split; [done|split; [done|]]].
  - rewrite Hs. destruct Hcase as [(b & -> & Hb)|(Hb & [->|Hfull])].
    + rewrite <- app_assoc. cbn [app].
      rewrite tokenize_split by apply is_delim_newline.
      by rewrite tokenize_app_nil_delim by apply is_delim_newline.
    + by rewrite app_nil_r, tokenize_nil, app_nil_r.
    + destruct rest' as [|x rest'].
      { by rewrite app_nil_r, tokenize_nil, app_nil_r. }
      destruct (decide (x = newline)) as [->|Hx].
      * rewrite tokenize_split by apply is_delim_newline.
        by rewrite (tokenize_delim newline rest') by apply is_delim_newline.
      * exfalso. pose proof (Hshort [] (buf ++ [x]) rest') as Hbad.
        rewrite length_app in Hbad. cbn [length app] in Hbad.
        assert ((length buf + 1 <= size - 1)%nat); [|lia].
        apply Hbad.
        -- rewrite Hs. by rewrite <- app_assoc.
        -- apply not_elem_of_app. split; [done|].
           apply not_elem_of_cons. split; [congruence | apply not_elem_of_nil].
  - rewrite Hs in Hshort. by apply short_lines_suffix in Hshort.
Qed.

Lemma index_lines_tokens d fuel : forall e file word_count,
  NUL ∉ file -> short_lines (MAX_LINE_LEN - 1) file ->
  (length file <= fuel)%nat ->
  index_lines fuel e file d word_count
  = fold_left (fun '(e, word_count) token => (index_word e token d, word_count + 1))
              (tokenize file) (e, word_count).
Proof.
  induction fuel as [|fuel IH]; intros e file wc Hnul Hshort Hlen.
  - destruct file; [done | cbn [length] in Hlen; lia].
  - cbn [index_lines].
    destruct (fgets MAX_LINE_LEN file) as [[line rest]|] eqn:Hf.
    + destruct (fgets_tokens _ _ _ _ Hnul Hshort Hf) as (Ht & Hprog & Hnr & Hsr).
      rewrite Ht, fold_left_app. unfold index_line.
      destruct (fold_left _ (tokenize line) (e, wc)) as [e' wc'].
      apply IH; [done | done |].
      destruct Hprog as [Hprog|Hprog]; [lia|]. unfold MAX_LINE_LEN in Hprog. lia.
    + unfold fgets in Hf. destruct file as [|c file]; [done|].
      by destruct (read_line (MAX_LINE_LEN - 1) (c :: file)).
Qed.

(** X14: indexing a file.  When the file cannot be opened,
    [index_document] returns -1 and leaves the engine as it was: no
    document is registered.  Otherwise, for a file without NUL bytes in
    which no run of more than 1023 bytes is free of newlines, the line by
    line reading changes nothing: the engine and the identifier are those
    of [index_text] on the whole content. *)
Theorem X14_index_document e filename content :
  NUL ∉ content -> short_lines (MAX_LINE_LEN - 1) content ->
  index_document e filename None = (e, -1)
  /\ index_document e filename (Some content) = index_text e filename content.
Proof.
  intros Hnul Hshort. split; [done|].
  unfold index_document, index_text, index_tokens.
  by rewrite (index_lines_tokens _ (length content) _ content 0 Hnul Hshort).
Qed.

Lemma X14_index_document_witness :
  (NUL ∉ cstr "ab cd" ++ newline :: cstr "ab, x")
  /\ short_lines (MAX_LINE_LEN - 1) (cstr "ab cd" ++ newline :: cstr "ab, x")
  /\ (index_document create_search_engine (cstr "f.txt")
        (Some (cstr "ab cd" ++ newline :: cstr "ab, x"))).2 = 0.
Proof.
  assert (H1 : NUL ∉ cstr "ab cd" ++ newline :: cstr "ab, x").
  { intros H. apply list_elem_of_In in H. vm_compute in H.
    repeat (destruct H as [H|H]; [discriminate H|]). exact H. }
  assert (H2 : short_lines (MAX_LINE_LEN - 1) (cstr "ab cd" ++ newline :: cstr "ab, x")).
  { apply short_lines_of_length. vm_compute. lia. }
  split; [exact H1|]. split; [exact H2|].
  rewrite (proj2 (X14_index_document create_search_engine (cstr "f.txt") _ H1 H2)).
  reflexivity.
Defined.
(** The bound of 1023 bytes is tight: a line of 1024 letters is read in
    two pieces and counted as two tokens. *)
Example index_document_long_line :
  let content := replicate 1024 "a"%char in
  word_count <$> get_document
                   (index_document create_search_engine (cstr "f") (Some content)).1 0
  = Some 2
  /\ word_count <$> get_document
                      (index_text create_search_engine (cstr "f") content).1 0
     = Some 1.
Proof. vm_compute. split; reflexivity. Qed.

(** ** Memory cleanup *)

Lemma free_children_spec h L p lp nd rec slots :
  trie_wf h L -> L !! p = Some lp -> h !! p = Some nd ->
  rec None = Some [] ->
  (forall i q, i ∈ slots -> edge h p i q ->
     exists l, rec (Some q) = Some l /\ NoDup l
               /\ forall r, r ∈ l <-> exists s, L !! r = Some ((lp ++ [letter i]) ++ s)) ->
  NoDup slots -> Forall (fun i => (i < 26)%nat) slots ->
  exists l,
    free_children rec nd slots = Some l /\ NoDup l
    /\ forall r, r ∈ l <->
         exists i s, i ∈ slots /\ L !! r = Some ((lp ++ [letter i]) ++ s).
Proof.
  intros Hwf Hp Hnd Hnone. induction slots as [|i slots IH]; intros Hrec Hnd_s Hlt.
  - exists []. split; [done|]. split; [constructor|]. intros r. split.
    + intros H. by apply elem_of_nil in H.
    + intros (i & s & Hi & _). by apply elem_of_nil in Hi.
  - apply NoDup_cons in Hnd_s as [Hi_new Hnd_s].
    apply Forall_cons in Hlt as [Hi Hlt].
    destruct IH as (l2 & Hl2 & Hnd2 & Hmem2); [|done|done|].
    { intros j q Hj. apply Hrec. by right. }
    cbn [free_children]. rewrite Hl2.
    destruct (mjoin (children nd !! i)) as [q|] eqn:Hq.
    + assert (Hedge : edge h p i q).
      { exists nd. split; [done|].
        destruct (children nd !! i) as [[x|]|]; by inversion Hq. }
      destruct (Hrec i q) as (l1 & Hl1 & Hnd1 & Hmem1); [by left | done |].
      rewrite Hl1. cbn [mbind option_bind]. exists (l1 ++ l2).
      split; [done|]. split.
      * apply NoDup_app. split; [done|]. split; [|done].
        intros r Hr1 Hr2. apply Hmem1 in Hr1 as (s1 & Hs1).
        apply Hmem2 in Hr2 as (j & s2 & Hj & Hs2).
        rewrite Hs1 in Hs2. injection Hs2 as Heq.
        rewrite <- !app_assoc in Heq. apply app_inv_head in Heq.
        cbn [app] in Heq. injection Heq as Heq _.
        apply letter_inj in Heq; [|done|by apply (Forall_elem Hlt)].
        congruence.
      * intros r. rewrite elem_of_app, Hmem1, Hmem2. split.
        -- intros [(s & Hs)|(j & s & Hj & Hs)].
           ++ exists i, s. split; [by left | done].
           ++ exists j, s. split; [by right | done].
        -- intros (j & s & Hj & Hs). apply elem_of_cons in Hj as [->|Hj].
           ++ left. by exists s.
           ++ right. by exists j, s.
    + rewrite Hnone. cbn [mbind option_bind app]. exists l2.
      split; [done|]. split; [done|]. intros r. rewrite Hmem2. split.
      * intros (j & s & Hj & Hs). exists j, s. split; [by right | done].
      * intros (j & s & Hj & Hs). apply elem_of_cons in Hj as [->|Hj].
        -- exfalso. exact (empty_slot_no_words _ _ _ _ _ _ _ _ Hwf Hp Hnd Hq Hi Hs).
        -- by exists j, s.
Qed.

Lemma free_trie_spec h L :
  trie_wf h L ->
  forall fuel p lp,
    L !! p = Some lp -> (length h - p <= fuel)%nat ->
    exists l0,
      free_trie fuel h (Some p) = Some (l0 ++ [p]) /\ NoDup (l0 ++ [p])
      /\ forall r, r ∈ l0 ++ [p] <-> exists s, L !! r = Some (lp ++ s).
Proof.
  intros Hwf. induction fuel as [|fuel IH]; intros p lp Hp Hfuel.
  - apply lookup_lt_Some in Hp. rewrite (wf_length _ _ Hwf) in Hp. lia.
  - assert (exists nd, h !! p = Some nd) as [nd Hnd].
    { apply lookup_lt_is_Some. rewrite <- (wf_length _ _ Hwf).
      by eapply lookup_lt_Some. }
    cbn [free_trie]. rewrite Hnd. cbn [mbind option_bind].
    destruct (free_children_spec h L p lp nd (free_trie fuel h) alphabet
                Hwf Hp Hnd) as (l0 & Hl0 & Hnd0 & Hmem0).
    + by destruct fuel.
    + intros i q Hi Hedge.
      destruct (wf_child _ _ Hwf _ _ _ Hedge) as (Hlt & lp' & Hp' & Hq).
      rewrite Hp in Hp'. injection Hp' as <-.
      destruct (IH q _ Hq) as (lq & H1 & H2 & H3); [lia|].
      exists (lq ++ [q]). done.
    + apply NoDup_seq.
    + apply Forall_forall. intros i. apply alphabet_range.
    + rewrite Hl0. cbn [mbind option_bind]. exists l0. split; [done|].
      assert (Hp0 : p ∉ l0).
      { intros Hin. apply Hmem0 in Hin as (i & s & _ & Hs).
        rewrite Hp in Hs. injection Hs as Hs.
        apply (f_equal length) in Hs. rewrite !length_app in Hs.
        cbn [length] in Hs. lia. }
      split.
      * apply NoDup_app. split; [done|]. split; [|apply NoDup_singleton].
        intros r Hr Hr'. apply list_elem_of_singleton in Hr' as ->. done.
      * intros r. rewrite elem_of_app, Hmem0, list_elem_of_singleton. split.
        -- intros [(i & s & _ & Hs)| ->].
           ++ exists (letter i :: s). by rewrite <- app_assoc in Hs.
           ++ exists []. by rewrite app_nil_r.
        -- intros ([|c s] & Hs).
           ++ right. rewrite app_nil_r in Hs.
              exact (NoDup_lookup _ _ _ _ (wf_nodup _ _ Hwf) Hs Hp).
           ++ left.
              replace (lp ++ c :: s) with ((lp ++ [c]) ++ s) in Hs
                by (by rewrite <- app_assoc).
              destruct (label_ancestor _ _ _ _ _ Hwf Hs) as (a & Ha).
              destruct (child_of_label _ _ _ _ _ _ Hwf Hp Ha) as (i & Hi & -> & _).
              exists i, s. split; [by apply alphabet_range | done].
Qed.

(** X15: the cleanup frees every trie node exactly once.  In every
    reachable state [free_trie], started at the root with room for the
    whole arena, returns, and the nodes it has passed to [free] are all
    the nodes ever allocated, none of them twice, the root last.  The
    hash table entries point into the trie, but [free_search_engine] frees
    only the entries themselves. *)
Theorem X15_free_each_node_once e :
  reachable e ->
  exists fr l0,
    free_search_engine e = Some fr
    /\ freed_nodes fr = l0 ++ [trie_root e]
    /\ NoDup (freed_nodes fr)
    /\ (forall p, p ∈ freed_nodes fr <-> (p < length (heap e))%nat)
    /\ Permutation (freed_nodes fr) (seq 0 (length (heap e)))
    /\ freed_documents fr = documents e.
Proof.
  intros Hr. destruct (reachable_inv e Hr) as (L & adocs & Hinv & _).
  pose proof (inv_wf _ _ _ Hinv) as Hwf.
  pose proof (inv_root _ _ _ Hinv) as Hroot.
  destruct (free_trie_spec _ _ Hwf (length (heap e)) 0%nat [] (wf_root _ _ Hwf))
    as (l0 & Hfree & Hnd & Hmem); [lia|].
  unfold free_search_engine. rewrite Hroot, Hfree. cbn [mbind option_bind].
  eexists _, l0. split; [reflexivity|]. cbn [freed_nodes freed_documents].
  assert (Hall : forall p, p ∈ l0 ++ [0%nat] <-> (p < length (heap e))%nat).
  { intros p. rewrite Hmem, <- (wf_length _ _ Hwf). cbn [app]. split.
    - intros (s & Hs). by eapply lookup_lt_Some.
    - intros Hlt. destruct (lookup_lt_is_Some_2 L p Hlt) as [s Hs]. by exists s. }
  split; [done|]. split; [exact Hnd|]. split; [exact Hall|]. split; [|done].
  apply list.NoDup_Permutation; [exact Hnd | apply NoDup_seq |].
  intros p. rewrite Hall, elem_of_seq. lia.
Qed.

Lemma X15_free_each_node_once_witness :
  reachable small_engine
  /\ exists fr, free_search_engine small_engine = Some fr
                /\ freed_nodes fr = [2; 1; 4; 3; 0]%nat.
Proof.
  split; [exact small_engine_reachable|].
  destruct (X15_free_each_node_once small_engine small_engine_reachable)
    as (fr & l0 & Hfr & _).
  exists fr. split; [exact Hfr|].
  vm_compute in Hfr. by injection Hfr as <-.
Defined.

(** ** JSON escaping *)

Lemma json_escape_loop_bound str : forall j max_len,
  j + Z.of_nat (length (json_escape_loop str j max_len)) <= Z.max j (max_len - 1).
Proof.
  induction str as [|c str IH]; intros j max_len; cbn [json_escape_loop].
  - cbn [length]. lia.
  - destruct (Z.ltb_spec j (max_len - 2)); [|cbn [length]; lia].
    destruct (needs_escape c); cbn [length].
    + specialize (IH (j + 2) max_len). lia.
    + specialize (IH (j + 1) max_len). lia.
Qed.

(** X16: [json_escape] stays inside its output buffer.  For a buffer of
    [max_len >= 1] bytes the escaped string is shorter than [max_len], so
    that the string and its terminator fit; with [max_len <= 2] nothing
    but the terminator is stored. *)
Theorem X16_json_escape_fits str max_len :
  1 <= max_len ->
  Z.of_nat (length (json_escape str max_len)) + 1 <= max_len
  /\ (max_len <= 2 -> json_escape str max_len = []).
Proof.
  intros Hm. unfold json_escape.
  pose proof (json_escape_loop_bound str 0 max_len) as H. split; [lia|].
  intros Hle. destruct str as [|c str]; [done|]. cbn [json_escape_loop].
  by destruct (Z.ltb_spec 0 (max_len - 2)); [lia|].
Qed.

Lemma X16_json_escape_fits_witness :
  1 <= 6 /\ Z.of_nat (length (json_escape (cstr "a\b\c\d") 6)) + 1 <= 6.
Proof.
  assert (H : 1 <= 6) by lia. split; [exact H|].
  exact (proj1 (X16_json_escape_fits (cstr "a\b\c\d") 6 H)).
Defined.

Lemma escape_all_cons c s : escape_all (c :: s) = escape_char c ++ escape_all s.
Proof. reflexivity. Qed.

Lemma json_unescape_escape_char c r :
  json_unescape (escape_char c ++ r) = c :: json_unescape r.
Proof.
  unfold escape_char. destruct (needs_escape c) eqn:Hc; cbn [app json_unescape].
  - by rewrite decide_True.
  - unfold needs_escape in Hc. apply orb_false_iff in Hc as [_ Hc].
    apply bool_decide_eq_false in Hc. by rewrite decide_False.
Qed.

Lemma json_unescape_escape_all s : json_unescape (escape_all s) = s.
Proof.
  induction s as [|c s IH]; [done|].
  by rewrite escape_all_cons, json_unescape_escape_char, IH.
Qed.

Lemma json_escape_loop_prefix str : forall j max_len,
  exists k,
    (k <= length str)%nat
    /\ json_escape_loop str j max_len = escape_all (take k str)
    /\ ((k < length str)%nat ->
        max_len - 2 <= j + Z.of_nat (length (json_escape_loop str j max_len))).
Proof.
  induction str as [|c str IH]; intros j max_len; cbn [json_escape_loop].
  - exists 0%nat. split; [done|]. split; [done|]. cbn [length]. lia.
  - destruct (Z.ltb_spec j (max_len - 2)) as [Hj|Hj].
    + unfold escape_char. destruct (needs_escape c) eqn:Hc.
      * destruct (IH (j + 2) max_len) as (k & Hk & Heq & Hstop).
        exists (S k). split; [cbn [length]; lia|]. split.
        -- cbn [take]. rewrite escape_all_cons. unfold escape_char.
           rewrite Hc, Heq. done.
        -- intros Hlt. cbn [length] in *. lia.
      * destruct (IH (j + 1) max_len) as (k & Hk & Heq & Hstop).
        exists (S k). split; [cbn [length]; lia|]. split.
        -- cbn [take]. rewrite escape_all_cons. unfold escape_char.
           rewrite Hc, Heq. done.
        -- intros Hlt. cbn [length] in *. lia.
    + exists 0%nat. split; [cbn [length]; lia|]. split; [done|].
      intros _. cbn [length]. lia.
Qed.

Lemma json_escape_loop_full str : forall j max_len,
  j + Z.of_nat (length (escape_all str)) <= max_len - 2 ->
  json_escape_loop str j max_len = escape_all str.
Proof.
  induction str as [|c str IH]; intros j max_len; [done|].
  rewrite escape_all_cons, length_app. cbn [json_escape_loop]. unfold escape_char.
  destruct (needs_escape c); cbn [length app]; intros Hlen.
  - destruct (Z.ltb_spec j (max_len - 2)); [|lia].
    rewrite IH by lia. done.
  - destruct (Z.ltb_spec j (max_len - 2)); [|lia].
    rewrite IH by lia. done.
Qed.

(** X17: what [json_escape] stores.  The output is the escaped form of
    a prefix of the input: every double quote and backslash of that prefix
    is preceded by a backslash, every other character is copied as it is,
    and an escape pair is never cut in two.  Reading the output back
    gives that prefix.  Nothing is cut off when the whole escaped string
    is at most [max_len - 2] long, and when something is cut off the
    output holds at least [max_len - 2] characters. *)
Theorem X17_json_escape_prefix str max_len :
  exists k,
    (k <= length str)%nat
    /\ json_escape str max_len = escape_all (take k str)
    /\ json_unescape (json_escape str max_len) = take k str
    /\ ((k < length str)%nat ->
        max_len - 2 <= Z.of_nat (length (json_escape str max_len)))
    /\ (Z.of_nat (length (escape_all str)) <= max_len - 2 ->
        json_escape str max_len = escape_all str
        /\ json_unescape (json_escape str max_len) = str).
Proof.
  unfold json_escape.
  destruct (json_escape_loop_prefix str 0 max_len) as (k & Hk & Heq & Hstop).
  exists k. split; [done|]. split; [done|].
  split; [by rewrite Heq, json_unescape_escape_all|].
  split; [intros Hlt; specialize (Hstop Hlt); lia|].
  intros Hlen. rewrite json_escape_loop_full by lia.
  split; [done | apply json_unescape_escape_all].
Qed.

(** ** The command line *)

Import searchCLI.

Lemma read_stdin_take fuel : forall all_text stdin,
  NUL ∉ stdin -> (length stdin <= fuel)%nat ->
  strlen all_text <= MAX_TEXT_LEN - 1 ->
  read_stdin fuel all_text stdin
  = all_text ++ take (Z.to_nat (MAX_TEXT_LEN - 1 - strlen all_text)) stdin.
Proof.
  unfold strlen.
  induction fuel as [|fuel IH]; intros all_text stdin Hnul Hfuel Hlen.
  - destruct stdin; [|cbn [length] in Hfuel; lia].
    by rewrite take_nil, app_nil_r.
  - cbn [read_stdin]. unfold fgets. destruct stdin as [|c s].
    { by rewrite take_nil, app_nil_r. }
    destruct (read_line (searchCLI.MAX_LINE_LEN - 1) (c :: s)) as [buf rest] eqn:Hr.
    destruct (read_line_spec _ _ _ _ Hr) as (Hs & _ & _).
    pose proof (read_line_progress 4094 c s) as Hp.
    change (S 4094) with (searchCLI.MAX_LINE_LEN - 1)%nat in Hp.
    rewrite Hr in Hp. cbn [fst] in Hp.
    assert (Hnb : (NUL ∉ buf) /\ (NUL ∉ rest)).
    { rewrite Hs in Hnul. by apply not_elem_of_app in Hnul. }
    destruct Hnb as [Hnb Hnr]. rewrite (c_string_no_NUL _ Hnb).
    assert (Hlb : (0 < length buf)%nat) by (destruct buf; [done | cbn [length]; lia]).
    assert (Hlr : (length rest <= fuel)%nat).
    { apply (f_equal length) in Hs. rewrite length_app in Hs.
      cbn [length] in Hs, Hfuel. lia. }
    unfold strncat, strlen.
    replace (MAX_TEXT_LEN - Z.of_nat (length all_text) - 1)
      with (MAX_TEXT_LEN - 1 - Z.of_nat (length all_text)) by lia.
    set (m := Z.to_nat (MAX_TEXT_LEN - 1 - Z.of_nat (length all_text))) in *.
    rewrite IH; [|done|done|].
    + rewrite Hs, <- app_assoc. f_equal. rewrite take_app, length_app, length_take.
      f_equal. f_equal. lia.
    + rewrite length_app, length_take. lia.
Qed.

Ltac decide_commands :=
  repeat match goal with
    | |- context [bool_decide (?a = ?b)] =>
        (rewrite (bool_decide_eq_true_2 (a = b)) by reflexivity)
        || (rewrite (bool_decide_eq_false_2 (a = b)) by discriminate)
    end;
  cbn [andb].

(** X18: the query commands of searchCLI.  For a standard input without
    NUL bytes, [freq], [search] and [prefix] index the first 65535 bytes of
    the input as the single document "uploaded_doc" of a fresh engine, and
    print what [output_freq_result], [output_search_result] and
    [output_prefix_result] give for the first argument on that engine,
    with exit status 0; further arguments are ignored. *)
Theorem X18_main_query_commands prog arg rest stdin :
  NUL ∉ stdin ->
  let e := engine_of [(cstr "uploaded_doc", take (Z.to_nat (MAX_TEXT_LEN - 1)) stdin)] in
  main (prog :: cstr "freq" :: arg :: rest) stdin
  = (fun r => (FreqOutput r, 0)) <$> output_freq_result e arg
  /\ main (prog :: cstr "search" :: arg :: rest) stdin
     = (fun r => (SearchOutput r, 0)) <$> output_search_result e arg
  /\ main (prog :: cstr "prefix" :: arg :: rest) stdin
     = (fun r => (PrefixWords r, 0)) <$> output_prefix_result e arg.
Proof.
  intros Hnul e.
  assert (Hread : read_stdin (length stdin) [] stdin = take (Z.to_nat (MAX_TEXT_LEN - 1)) stdin).
  { rewrite read_stdin_take; [|done|done|unfold strlen, MAX_TEXT_LEN; cbn [length]; lia].
    unfold strlen. cbn [app length]. by rewrite Z.sub_0_r. }
  unfold main. cbn [length Nat.ltb Nat.leb lookup list_lookup mbind option_bind].
  rewrite Hread. subst e. cbn [engine_of]. split; [|split]; decide_commands.
  - by destruct (output_freq_result _ arg).
  - by destruct (output_search_result _ arg).
  - by destruct (output_prefix_result _ arg).
Qed.

Lemma not_NUL_short_text : NUL ∉ cstr "ab cd ab, x".
Proof.
  intros H. apply list_elem_of_In in H. vm_compute in H.
  repeat (destruct H as [H|H]; [discriminate H|]). exact H.
Qed.

Lemma X18_main_query_commands_witness :
  (NUL ∉ cstr "ab cd ab, x")
  /\ main [cstr "searchCLI"; cstr "freq"; cstr "AB"] (cstr "ab cd ab, x")
     = Some (FreqOutput {| freq_word := cstr "ab"; freq_found := true;
                           freq_total := 2;
                           freq_documents := [(0, cstr "uploaded_doc", 2)] |}, 0).
Proof.
  split; [exact not_NUL_short_text|].
  destruct (X18_main_query_commands (cstr "searchCLI") (cstr "AB") []
              (cstr "ab cd ab, x") not_NUL_short_text) as (H & _).
  rewrite H. vm_compute. reflexivity.
Defined.

Lemma spaced_cons arg args : spaced (arg :: args) = " "%char :: arg ++ spaced args.
Proof. reflexivity. Qed.

Lemma join_args_later args : forall text i,
  (3 < i)%nat ->
  strlen text + strlen (spaced args) < MAX_TEXT_LEN ->
  join_args text i args = Some (text ++ spaced args).
Proof.
  unfold strlen.
  induction args as [|arg args IH]; intros text i Hi Hlen.
  - cbn [join_args]. by rewrite app_nil_r.
  - rewrite spaced_cons in *. cbn [length] in Hlen. rewrite length_app in Hlen.
    cbn [join_args]. destruct (Nat.ltb_spec 3 i) as [_|]; [|lia].
    unfold strcat, strlen. cbn [length cstr String.list_ascii_of_string].
    destruct (Z.ltb_spec (Z.of_nat (length text) + Z.of_nat 1) MAX_TEXT_LEN)
      as [_|]; [|lia].
    cbn [mbind option_bind]. unfold strncat, strlen.
    rewrite take_ge by (rewrite length_app; cbn [length]; lia).
    rewrite IH; [|lia|rewrite !length_app; cbn [length]; lia].
    f_equal. rewrite <- !app_assoc. done.
Qed.

Lemma join_args_first arg args :
  strlen (arg ++ spaced args) < MAX_TEXT_LEN ->
  join_args [] 3 (arg :: args) = Some (arg ++ spaced args).
Proof.
  unfold strlen. intros Hlen. rewrite length_app in Hlen. cbn [join_args].
  destruct (Nat.ltb_spec 3 3) as [|_]; [lia|]. cbn [mbind option_bind].
  unfold strncat, strlen. cbn [app length].
  rewrite take_ge by lia. apply join_args_later; [lia | unfold strlen; lia].
Qed.

Lemma is_delim_space : is_delim " "%char = true.
Proof. reflexivity. Qed.

Lemma tokenize_spaced args : forall text,
  tokenize (text ++ spaced args) = tokenize text ++ concat (map tokenize args).
Proof.
  induction args as [|arg args IH]; intros text.
  - cbn [spaced map concat]. by rewrite !app_nil_r.
  - rewrite spaced_cons, tokenize_split by apply is_delim_space.
    cbn [map concat]. by rewrite IH.
Qed.

Lemma index_text_fresh_document name text :
  get_document (index_text create_search_engine name text).1 0
  = Some {| id := 0; filename := name;
            word_count := Z.of_nat (length (tokenize text)) |}.
Proof.
  destruct (index_text_inv _ _ _ name text create_search_engine_inv) as (_ & L & Hinv).
  unfold get_document. by rewrite (inv_documents _ _ _ Hinv).
Qed.

(** X19: the [index_text] command of searchCLI.  When the arguments
    after the name, joined by single spaces, fit the text buffer (fewer
    than 65536 bytes with the separating spaces), the command indexes the
    joined text in a fresh engine and prints document 0 with the given
    name; the word count printed is the number of tokens of all the
    arguments together.  Standard input is not read. *)
Theorem X19_main_index_text prog name arg args stdin :
  strlen (arg ++ spaced args) < MAX_TEXT_LEN ->
  main (prog :: cstr "index_text" :: name :: arg :: args) stdin
  = Some (IndexOutput
            {| index_doc_id := 0; index_filename := name;
               index_word_count :=
                 Z.of_nat (length (concat (map tokenize (arg :: args)))) |}, 0).
Proof.
  intros Hlen. unfold main.
  cbn [length Nat.ltb Nat.leb lookup list_lookup mbind option_bind drop].
  decide_commands. rewrite (join_args_first arg args Hlen).
  cbn [mbind option_bind].
  pose proof (index_text_snd create_search_engine name (arg ++ spaced args)) as Hid.
  pose proof (index_text_fresh_document name (arg ++ spaced args)) as Hdoc.
  destruct (index_text create_search_engine name (arg ++ spaced args)) as [e d].
  cbn [fst snd] in *. cbn [create_search_engine doc_count] in Hid. subst d.
  unfold output_index_result. rewrite Hdoc. cbn [doc_filename filename word_count].
  by rewrite tokenize_spaced.
Qed.

Lemma X19_main_index_text_witness :
  strlen (cstr "ab cd" ++ spaced [cstr "ab,"; cstr "x"]) < MAX_TEXT_LEN
  /\ main [cstr "searchCLI"; cstr "index_text"; cstr "notes";
           cstr "ab cd"; cstr "ab,"; cstr "x"] []
     = Some (IndexOutput {| index_doc_id := 0; index_filename := cstr "notes";
                            index_word_count := 4 |}, 0).
Proof.
  assert (H : strlen (cstr "ab cd" ++ spaced [cstr "ab,"; cstr "x"])
              < MAX_TEXT_LEN) by reflexivity.
  split; [exact H|].
  rewrite (X19_main_index_text (cstr "searchCLI") (cstr "notes") (cstr "ab cd")
             [cstr "ab,"; cstr "x"] [] H).
  vm_compute. reflexivity.
Defined.

(** X20: errors and exit status of searchCLI.  With fewer than two
    arguments [main] prints the usage error and exits with status 1.  A
    command other than [index_text], [freq], [search] and [prefix] is
    reported as unknown with status 1, and so is [index_text] given a name
    but no text.  Whenever [main] returns, the status is 0 for a command
    that was carried out and 1 otherwise. *)
Theorem X20_main_exit_status argv stdin :
  ((length argv < 3)%nat -> main argv stdin = Some (UsageError, 1))
  /\ (forall prog cmd arg rest,
        argv = prog :: cmd :: arg :: rest ->
        cmd <> cstr "index_text" -> cmd <> cstr "freq" ->
        cmd <> cstr "search" -> cmd <> cstr "prefix" ->
        main argv stdin = Some (UnknownCommand cmd, 1))
  /\ (forall prog name,
        argv = [prog; cstr "index_text"; name] ->
        main argv stdin = Some (UnknownCommand (cstr "index_text"), 1))
  /\ (forall out code,
        main argv stdin = Some (out, code) ->
        (code = 0 <-> accepted argv)
        /\ (code = 1 <->
            out = UsageError \/ exists cmd, out = UnknownCommand cmd)
        /\ (code = 0 \/ code = 1)).
Proof.
  split; [|split; [|split]].
  - intros Hlen. unfold main.
    by destruct (Nat.ltb_spec (length argv) 3) as [_|]; [|lia].
  - intros prog cmd arg rest -> H1 H2 H3 H4. unfold main.
    cbn [length Nat.ltb Nat.leb lookup list_lookup mbind option_bind].
    by rewrite !bool_decide_eq_false_2 by done.
  - intros prog name ->. unfold main.
    cbn [length Nat.ltb Nat.leb lookup list_lookup mbind option_bind].
    decide_commands. done.
  - intros out code. unfold main, accepted.
    destruct (Nat.ltb_spec (length argv) 3) as [Hlt|Hge].
    { intros [= <- <-]. split; [|split; [|by right]].
      - split; [done|]. intros (cmd & _ & [[_ ?]|[_ ?]]); lia.
      - split; [by left | done]. }
    destruct argv as [|prog [|cmd [|arg rest]]]; cbn [length] in Hge; try lia.
    cbn [lookup list_lookup mbind option_bind].
    destruct (decide (cmd = cstr "index_text")) as [->|Hc1].
    { rewrite bool_decide_eq_true_2 by done. cbn [andb].
      destruct rest as [|a rest].
      - cbn [length Nat.leb]. decide_commands. intros [= <- <-].
        split; [|split; [|by right]].
        + split; [done|]. intros (cmd & [= <-] & [[_ ?]|[[?|[?|?]] _]]);
            [cbn [length] in *; lia | done | done | done].
        + split; [|done]. intros _. right. by eexists.
      - cbn [length Nat.leb drop].
        destruct (join_args [] 3 (a :: rest)) as [text|]; [|done].
        cbn [mbind option_bind].
        destruct (index_text create_search_engine arg text) as [e d].
        intros [= <- <-]. split; [|split; [|by left]].
        + split; [|done]. intros _. eexists. split; [done|]. left.
          split; [done | cbn [length]; lia].
        + split; [done|]. by intros [?|[? ?]]. }
    rewrite (bool_decide_eq_false_2 (cmd = cstr "index_text")) by done. cbn [andb].
    assert (Hacc : forall c, cmd = c ->
              (c = cstr "freq" \/ c = cstr "search" \/ c = cstr "prefix") ->
              exists cmd0, Some cmd = Some cmd0
                /\ ((cmd0 = cstr "index_text" /\ (4 <= S (S (S (length rest))))%nat)
                    \/ ((cmd0 = cstr "freq" \/ cmd0 = cstr "search"
                         \/ cmd0 = cstr "prefix")
                        /\ (3 <= S (S (S (length rest))))%nat))).
    { intros c -> Hc. exists c. split; [done|]. right. split; [done | lia]. }
    destruct (decide (cmd = cstr "freq")) as [Hc2|Hc2].
    { rewrite bool_decide_eq_true_2 by done.
      destruct (output_freq_result _ arg); [|done]. intros [= <- <-].
      split; [|split; [|by left]].
      - split; [|done]. intros _. apply (Hacc _ Hc2). by left.
      - split; [done|]. by intros [?|[? ?]]. }
    rewrite bool_decide_eq_false_2 by done.
    destruct (decide (cmd = cstr "search")) as [Hc3|Hc3].
    { rewrite bool_decide_eq_true_2 by done.
      destruct (output_search_result _ arg); [|done]. intros [= <- <-].
      split; [|split; [|by left]].
      - split; [|done]. intros _. apply (Hacc _ Hc3). right. by left.
      - split; [done|]. by intros [?|[? ?]]. }
    rewrite bool_decide_eq_false_2 by done.
    destruct (decide (cmd = cstr "prefix")) as [Hc4|Hc4].
    { rewrite bool_decide_eq_true_2 by done.
      destruct (output_prefix_result _ arg); [|done]. intros [= <- <-].
      split; [|split; [|by left]].
      - split; [|done]. intros _. apply (Hacc _ Hc4). right. by right.
      - split; [done|]. by intros [?|[? ?]]. }
    rewrite bool_decide_eq_false_2 by done. intros [= <- <-].
    split; [|split; [|by right]].
    + split; [done|].
      intros (c & [= <-] & [[? _]|[[?|[?|?]] _]]); done.
    + split; [|done]. intros _. right. by eexists.
Qed.

(** ** Multi-keyword search *)

Lemma total_over_perm (f : cstring -> Z) ks ks' :
  Permutation ks ks' -> total_over ks f = total_over ks' f.
Proof.
  induction 1 as [|k l l' _ IH|k1 k2 l|l1 l2 l3 _ IH1 _ IH2].
  - done.
  - rewrite !total_over_cons. lia.
  - rewrite !total_over_cons. lia.
  - congruence.
Qed.

Lemma holds_unique n arr arr' f g :
  holds n arr f -> holds n arr' g -> (forall i, (i < n)%nat -> f i = g i) ->
  arr = arr'.
Proof.
  intros [Hl1 Hf] [Hl2 Hg] Hfg. apply list_eq. intros i.
  destruct (decide (i < n)%nat) as [Hi|Hi].
  - by rewrite (Hf i Hi), (Hg i Hi), Hfg.
  - rewrite !lookup_ge_None_2 by lia. done.
Qed.

(** X21: the order of the keywords does not matter.  In every
    reachable state, for keywords that are all words of the lookup
    index, [search_multi] on a rearranged keyword list reports the same
    documents with the same scores, in the same order. *)
Theorem X21_search_multi_keyword_order e keywords keywords' :
  reachable e -> Forall (known e) keywords -> Permutation keywords keywords' ->
  search_multi e keywords' = search_multi e keywords
  /\ exists l, search_multi e keywords = Some (MultiMatches l).
Proof.
  intros Hr Hk Hperm. destruct (reachable_inv e Hr) as (L & adocs & Hinv & _).
  assert (Hk' : Forall (known e) keywords') by (by rewrite <- Hperm).
  pose proof (inv_count _ _ _ Hinv) as Hcount.
  destruct (search_multi_loop_all_known e L adocs keywords Hinv _ _ _ _ Hk
              (holds_zeros _) (holds_zeros _))
    as (scores & matches & Hloop & Hs & Hm).
  destruct (search_multi_loop_all_known e L adocs keywords' Hinv _ _ _ _ Hk'
              (holds_zeros _) (holds_zeros _))
    as (scores' & matches' & Hloop' & Hs' & Hm').
  assert (Hse : scores = scores').
  { apply (holds_unique _ _ _ _ _ Hs Hs'). intros i _.
    by rewrite (total_over_perm _ _ _ Hperm). }
  assert (Hme : matches = matches').
  { apply (holds_unique _ _ _ _ _ Hm Hm'). intros i _.
    by rewrite (total_over_perm _ _ _ Hperm). }
  subst scores' matches'.
  unfold search_multi. rewrite Hcount, Nat2Z.id, Hloop, Hloop'.
  cbn [mbind option_bind]. rewrite (Permutation_length Hperm).
  split; [done | by eexists].
Qed.

Lemma X21_search_multi_keyword_order_witness :
  reachable demo_engine
  /\ Forall (known demo_engine) [cstr "quick"; cstr "brown"]
  /\ search_multi demo_engine [cstr "brown"; cstr "quick"]
     = search_multi demo_engine [cstr "quick"; cstr "brown"].
Proof.
  assert (Hr : reachable demo_engine) by (repeat constructor).
  assert (Hk : Forall (known demo_engine) [cstr "quick"; cstr "brown"]).
  { repeat constructor.
    - exists (cstr "quick"). eexists. split; [reflexivity|]. vm_compute. reflexivity.
    - exists (cstr "brown"). eexists. split; [reflexivity|]. vm_compute. reflexivity. }
  split; [exact Hr|]. split; [exact Hk|].
  exact (proj1 (X21_search_multi_keyword_order demo_engine
                  [cstr "quick"; cstr "brown"] [cstr "brown"; cstr "quick"]
                  Hr Hk (perm_swap _ _ _))).
Defined.

(** ** The hash table on its own *)

(** X22: insertion and lookup in the hash table.  For a table of
    [HASH_SIZE] buckets, [hash_search] after [hash_insert] finds the word:
    with the node it was already mapped to if there was a mapping, with
    the new node otherwise.  The lookup of every other word is unchanged,
    also of the words that share the bucket, and the trie and the
    documents are not touched. *)
Theorem X22_hash_insert_then_search e w node :
  table_ok e ->
  hash_search (hash_insert e w node) w = Some (default node (hash_search e w))
  /\ (forall w', w' <> w ->
        hash_search (hash_insert e w node) w' = hash_search e w')
  /\ (forall w', hash_func w' = hash_func w -> w' <> w ->
        hash_search (hash_insert e w node) w' = hash_search e w'
        /\ hash_search (hash_insert e w node) w <> None)
  /\ table_ok (hash_insert e w node)
  /\ heap (hash_insert e w node) = heap e
  /\ documents (hash_insert e w node) = documents e.
Proof.
  intros Hok.
  assert (Hw : hash_search (hash_insert e w node) w
               = Some (default node (hash_search e w))).
  { destruct (hash_search e w) as [p|] eqn:Hs.
    - by rewrite (hash_search_insert_present _ _ _ _ Hs).
    - by apply hash_search_insert_absent. }
  split; [done|]. split; [|split; [|split; [|split]]].
  - intros w' Hne. by apply hash_search_insert_other.
  - intros w' _ Hne. split; [by apply hash_search_insert_other|]. by rewrite Hw.
  - by apply hash_insert_table_ok.
  - apply hash_insert_fields.
  - apply hash_insert_fields.
Qed.

Lemma X22_hash_insert_then_search_witness :
  table_ok create_search_engine
  /\ hash_search (hash_insert create_search_engine (cstr "ab") 5%nat) (cstr "ab")
     = Some 5%nat.
Proof.
  assert (H : table_ok create_search_engine)
    by exact (inv_table _ _ _ create_search_engine_inv).
  split; [exact H|].
  destruct (X22_hash_insert_then_search create_search_engine (cstr "ab") 5%nat H)
    as (Hs & _).
  rewrite Hs. vm_compute. reflexivity.
Defined.

(** ** The empty engine *)

Lemma hash_search_empty w : hash_search create_search_engine w = None.
Proof.
  unfold hash_search, bucket. cbn [create_search_engine hash_table].
  destruct (replicate (Z.to_nat HASH_SIZE) [] !! Z.to_nat (hash_func w))
    as [b|] eqn:Hb; [|done].
  apply lookup_replicate in Hb as [-> _]. done.
Qed.

Lemma trie_descend_empty c s :
  trie_descend [create_trie_node] 0 (c :: s) = None.
Proof.
  cbn [trie_descend]. destruct (_ || _); [done|].
  unfold child. cbn [lookup list_lookup mbind option_bind].
  destruct (children create_trie_node !! Z.to_nat (char_to_int c - 97))
    as [x|] eqn:Hx; [|done].
  unfold create_trie_node in Hx. cbn [children] in Hx.
  apply lookup_replicate in Hx as [-> _]. done.
Qed.

(** X23: queries on an engine in which nothing was indexed.  Every word
    is reported as not found by the four word reports, a multi-keyword
    search stops at its first keyword, the document list is empty, and a
    prefix search finds nothing; only for a prefix without any letter
    does the prefix search of searchCLI.c answer [found: true], with an
    empty list of words. *)
Theorem X23_empty_engine w :
  (length w < MAX_WORD_LEN - 1)%nat ->
  let e := create_search_engine in
  let n := normalize_word w in
  output_freq_result e w
  = Some {| freq_word := n; freq_found := false; freq_total := 0;
            freq_documents := [] |}
  /\ output_search_result e w
     = Some {| search_keyword_word := n; search_found := false;
               search_total := None; search_results := [] |}
  /\ search_keyword e w = Some (NoResults n)
  /\ show_word_frequency e w = Some (WordNotFound n)
  /\ (forall keywords, search_multi e (w :: keywords) = Some (KeywordNotFound n))
  /\ search_multi e [] = Some (MultiMatches [])
  /\ list_documents e = ([], 0)
  /\ (exists r, output_prefix_result e w = Some r
                /\ prefix_words r = []
                /\ (prefix_found r = true <-> n = []))
  /\ search_prefix e w
     = Some (if decide (n = []) then WordsWithPrefix n []
             else NoWordsWithPrefix n).
Proof.
  intros Hlen e n. pose proof (normalize_query_defined w Hlen) as Hn. fold n in Hn.
  unfold output_freq_result, output_search_result, search_keyword,
    show_word_frequency, search_multi, output_prefix_result, search_prefix,
    trie_prefix_search.
  cbn [search_multi_loop]. rewrite Hn. cbn [mbind option_bind].
  unfold e. rewrite hash_search_empty.
  do 7 (split; [done|]).
  cbn [create_search_engine heap trie_root length].
  destruct n as [|c n].
  - split; [|done]. eexists. split; [vm_compute; reflexivity|]. by split.
  - rewrite trie_descend_empty. split; [|done].
    eexists. split; [done|]. by split.
Qed.

Lemma X23_empty_engine_witness :
  (length (cstr "42") < MAX_WORD_LEN - 1)%nat
  /\ exists r, output_prefix_result create_search_engine (cstr "42") = Some r
               /\ prefix_found r = true /\ prefix_words r = [].
Proof.
  assert (H : (length (cstr "42") < MAX_WORD_LEN - 1)%nat) by (vm_compute; lia).
  split; [exact H|].
  destruct (X23_empty_engine (cstr "42") H)
    as (_ & _ & _ & _ & _ & _ & _ & (r & Hr & Hw & Hf) & _).
  exists r. split; [exact Hr|]. split; [|exact Hw]. apply Hf. reflexivity.
Defined.

(** ** Adding a keyword to a multi-keyword search *)

Lemma total_over_app ks kw (f : cstring -> Z) :
  total_over (ks ++ [kw]) f = total_over ks f + f kw.
Proof.
  induction ks as [|k ks IH]; [cbn; lia|].
  cbn [app]. rewrite !total_over_cons, IH. lia.
Qed.

Lemma entry_frequency_nodup l dn :
  NoDup (map doc_id l) -> dn ∈ l -> entry_frequency l (doc_id dn) = frequency dn.
Proof.
  induction l as [|x l IH]; intros Hnd Hin; [by apply elem_of_nil in Hin|].
  cbn [map] in Hnd. apply NoDup_cons in Hnd as [Hx Hnd].
  rewrite entry_frequency_cons. apply elem_of_cons in Hin as [->|Hin].
  - rewrite Z.eqb_refl.
    assert (H0 : entry_frequency l (doc_id x) = 0); [|lia].
    clear IH Hnd. induction l as [|y l IH]; [done|].
    rewrite entry_frequency_cons. cbn [map] in Hx.
    apply not_elem_of_cons in Hx as [Hy Hx].
    destruct (Z.eqb_spec (doc_id y) (doc_id x)); [congruence|].
    rewrite IH by done. lia.
  - destruct (Z.eqb_spec (doc_id x) (doc_id dn)) as [Heq|Hne].
    + exfalso. apply Hx. rewrite Heq. by apply list_elem_of_fmap_2.
    + rewrite IH by done. lia.
Qed.

(** X24: one more keyword narrows the result.  In every reachable
    state, for known keywords whose number with one more is still an
    [int], the documents that [search_multi] reports for the keywords
    followed by one more keyword are exactly those it reports for the
    keywords alone that also occur in the occurrence list of the new
    keyword; the score of each is the [int] sum of its former score and
    its frequency there, so no document is added, and every remaining
    score for which that sum is at most [INT_MAX] is the exact sum and is
    larger than before. *)
Theorem X24_search_multi_one_more_keyword e keywords kw :
  reachable e -> Forall (known e) keywords -> known e kw ->
  Z.of_nat (length (keywords ++ [kw])) <= INT_MAX ->
  exists l l',
    search_multi e keywords = Some (MultiMatches l)
    /\ search_multi e (keywords ++ [kw]) = Some (MultiMatches l')
    /\ (forall name d score',
          (name, d, score') ∈ l' <->
          exists score dn,
            (name, d, score) ∈ l /\ dn ∈ docs_of_keyword e kw
            /\ doc_id dn = d /\ score' = int_wrap (score + frequency dn))
    /\ (forall name d score',
          (name, d, score') ∈ l' ->
          exists score dn,
            (name, d, score) ∈ l /\ dn ∈ docs_of_keyword e kw /\ doc_id dn = d
            /\ (score + frequency dn <= INT_MAX ->
                score' = score + frequency dn /\ score < score')).
Proof.
  intros Hr Hk Hkw Hlen. destruct (reachable_inv e Hr) as (L & adocs & Hinv & _).
  assert (Hk' : Forall (known e) (keywords ++ [kw])).
  { apply Forall_app. split; [done | by constructor]. }
  assert (Hlen0 : Z.of_nat (length keywords) <= INT_MAX).
  { rewrite length_app in Hlen. cbn [length] in Hlen. lia. }
  destruct (search_multi_members e L adocs keywords Hinv Hk Hlen0)
    as (l & Hl & _ & Hmem).
  destruct (search_multi_members e L adocs _ Hinv Hk' Hlen)
    as (l' & Hl' & _ & Hmem').
  destruct (keyword_docs_report _ _ _ _ Hinv Hkw) as (Hnd & Hfreq & _).
  assert (Hiff : forall name d score',
            (name, d, score') ∈ l' <->
            exists score dn,
              (name, d, score) ∈ l /\ dn ∈ docs_of_keyword e kw
              /\ doc_id dn = d /\ score' = int_wrap (score + frequency dn)).
  { intros name d score'. rewrite Hmem'. rewrite !total_over_app, length_app.
    cbn [length].
    pose proof (match_count_range e L adocs keywords d Hinv Hk) as Hb.
    split.
    - intros (Hd & Hmc & -> & Hinfo).
      destruct (entry_count_nodup _ d Hnd) as [[H1 (dn & Hdn & Hid)]|[H0 _]]; [|lia].
      exists (int_wrap (total_over keywords
                          (fun k => entry_frequency (docs_of_keyword e k) d))), dn.
      split; [|split; [done|split; [done|]]].
      + apply Hmem. split; [done|]. split; [lia|]. by split.
      + subst d. by rewrite int_wrap_add, (entry_frequency_nodup _ _ Hnd Hdn).
    - intros (score & dn & Hin & Hdn & Hid & ->).
      apply Hmem in Hin as (Hd & Hmc & -> & Hinfo).
      destruct (entry_count_nodup _ d Hnd) as [[H1 _]|[_ Hall]];
        [|by destruct (Hall dn Hdn)].
      split; [done|]. split; [lia|]. split; [|done].
      subst d. by rewrite int_wrap_add, (entry_frequency_nodup _ _ Hnd Hdn). }
  exists l, l'. split; [done|]. split; [done|]. split; [done|].
  intros name d score' Hin.
  apply Hiff in Hin as (score & dn & Hin & Hdn & Hid & ->).
  exists score, dn. split; [done|]. split; [done|]. split; [done|].
  intros Hsum.
  pose proof (Forall_elem Hfreq Hdn) as Hpos. cbn beta in Hpos.
  apply Hmem in Hin as (_ & _ & -> & _).
  pose proof (int_wrap_range
                (total_over keywords
                   (fun k => entry_frequency (docs_of_keyword e k) d))) as Hrange.
  rewrite int_wrap_small by lia. lia.
Qed.

Lemma X24_search_multi_one_more_keyword_witness :
  reachable demo_engine
  /\ Forall (known demo_engine) [cstr "quick"]
  /\ known demo_engine (cstr "brown")
  /\ Z.of_nat (length ([cstr "quick"] ++ [cstr "brown"])) <= INT_MAX
  /\ exists l', search_multi demo_engine [cstr "quick"; cstr "brown"]
                = Some (MultiMatches l').
Proof.
  assert (Hr : reachable demo_engine) by (repeat constructor).
  assert (Hq : known demo_engine (cstr "quick")).
  { exists (cstr "quick"). eexists. split; [reflexivity|]. vm_compute. reflexivity. }
  assert (Hb : known demo_engine (cstr "brown")).
  { exists (cstr "brown"). eexists. split; [reflexivity|]. vm_compute. reflexivity. }
  assert (Hlen : Z.of_nat (length ([cstr "quick"] ++ [cstr "brown"])) <= INT_MAX)
    by (by vm_compute).
  split; [exact Hr|]. split; [by constructor|]. split; [exact Hb|].
  split; [exact Hlen|].
  destruct (X24_search_multi_one_more_keyword demo_engine [cstr "quick"]
              (cstr "brown") Hr (Forall_cons_2 _ _ _ Hq (Forall_nil_2 _)) Hb Hlen)
    as (l & l' & _ & Hl' & _).
  by exists l'.
Defined.

(** ** The [freq] command, end to end *)

Lemma freq_result_engine_of inputs w :
  (length w < MAX_WORD_LEN - 1)%nat ->
  let n := normalize_word w in
  output_freq_result (engine_of inputs) w
  = Some {| freq_word := n;
            freq_found := 0 <? total_hits n inputs;
            freq_total := total_hits n inputs;
            freq_documents :=
              map (fun x => (x.1.1.1, x.1.1.2, x.1.2)) (expected_results n inputs) |}.
Proof.
  intros Hlen n. destruct (engine_of_inv inputs) as (L & Hinv).
  pose proof (normalize_query_defined w Hlen) as Hn. fold n in Hn.
  rewrite <- total_corpus, <- expected_results_corpus, map_map.
  destruct (indexed_decide _ _ _ n Hinv) as [Hi|Hi].
  - rewrite (freq_result_found _ _ _ _ _ Hinv Hn Hi).
    apply total_pos_indexed in Hi. apply Z.ltb_lt in Hi. by rewrite Hi.
  - rewrite (freq_result_absent _ _ _ _ _ Hinv Hn Hi).
    destruct (not_indexed_occurrences _ _ Hi) as [-> ->]. done.
Qed.

(** X25: the [freq] command of searchCLI, from the input bytes to the
    printed numbers.  For a standard input without NUL bytes and a word
    shorter than 99 bytes, the command prints the normal form of the word
    and the number of tokens, among the first 65535 bytes of the input,
    that are indexed under that normal form: [found] is true exactly when
    this number is positive, and the only document listed is then
    "uploaded_doc" with identifier 0 and that number as frequency. *)
Theorem X25_main_freq_counts prog w rest stdin :
  NUL ∉ stdin -> (length w < MAX_WORD_LEN - 1)%nat ->
  let n := normalize_word w in
  let hits := word_hits n (take (Z.to_nat (MAX_TEXT_LEN - 1)) stdin) in
  main (prog :: cstr "freq" :: w :: rest) stdin
  = Some (FreqOutput
            {| freq_word := n; freq_found := 0 <? hits; freq_total := hits;
               freq_documents :=
                 if 0 <? hits then [(0, cstr "uploaded_doc", hits)] else [] |},
          0).
Proof.
  intros Hnul Hlen n hits.
  assert (Hread : read_stdin (length stdin) [] stdin
                  = take (Z.to_nat (MAX_TEXT_LEN - 1)) stdin).
  { rewrite read_stdin_take;
      [|done|done|unfold strlen, MAX_TEXT_LEN; cbn [length]; lia].
    unfold strlen. cbn [app length]. by rewrite Z.sub_0_r. }
  unfold main. cbn [length Nat.ltb Nat.leb lookup list_lookup mbind option_bind].
  rewrite Hread. decide_commands.
  pose proof (freq_result_engine_of
                [(cstr "uploaded_doc", take (Z.to_nat (MAX_TEXT_LEN - 1)) stdin)]
                w Hlen) as Hfreq.
  cbn [engine_of] in Hfreq. rewrite Hfreq. cbn [mbind option_bind].
  cbn [total_hits expected_results length]. fold n. fold hits.
  rewrite Z.add_0_r, app_nil_r. do 3 f_equal.
  by destruct (0 <? hits).
Qed.

Lemma X25_main_freq_counts_witness :
  (NUL ∉ cstr "ab cd ab, x")
  /\ (length (cstr "Ab.") < MAX_WORD_LEN - 1)%nat
  /\ main [cstr "searchCLI"; cstr "freq"; cstr "Ab."] (cstr "ab cd ab, x")
     = Some (FreqOutput {| freq_word := cstr "ab"; freq_found := true;
                           freq_total := 2;
                           freq_documents := [(0, cstr "uploaded_doc", 2)] |}, 0).
Proof.
  assert (H : (length (cstr "Ab.") < MAX_WORD_LEN - 1)%nat) by (vm_compute; lia).
  split; [exact not_NUL_short_text|]. split; [exact H|].
  rewrite (X25_main_freq_counts (cstr "searchCLI") (cstr "Ab.") []
             (cstr "ab cd ab, x") not_NUL_short_text H).
  vm_compute. reflexivity.
Defined.

(** ** Entries of the hash table *)

Lemma bucket_search_Some b w p :
  bucket_search b w = Some p ->
  {| word := w; trie_node := p |} ∈ b.
Proof.
  induction b as [|[w0 p0] b IH]; [done|]. cbn [bucket_search word trie_node].
  destruct (decide (w0 = w)) as [<-|Hne].
  - intros [= <-]. by left.
  - intros H. right. by apply IH.
Qed.

Lemma bucket_search_None b w : bucket_search b w = None <-> w ∉ map word b.
Proof.
  induction b as [|entry b IH]; cbn [bucket_search map].
  - split; [intros _; apply not_elem_of_nil | done].
  - destruct (decide (word entry = w)) as [<-|Hne].
    + split; [done|]. intros H. exfalso. apply H. by left.
    + rewrite IH, not_elem_of_cons. split; [by split | by intros [_ ?]].
Qed.

Lemma bucket_search_elem b entry :
  NoDup (map word b) -> entry ∈ b ->
  bucket_search b (word entry) = Some (trie_node entry).
Proof.
  induction b as [|x b IH]; intros Hnd Hin; [by apply elem_of_nil in Hin|].
  cbn [map] in Hnd. apply NoDup_cons in Hnd as [Hx Hnd]. cbn [bucket_search].
  apply elem_of_cons in Hin as [->|Hin].
  - by rewrite decide_True.
  - destruct (decide (word x = word entry)) as [Heq|Hne]; [|by apply IH].
    exfalso. apply Hx. rewrite Heq. by apply list_elem_of_fmap_2.
Qed.

Lemma elem_of_concat {A} (x : A) (ls : list (list A)) :
  x ∈ concat ls <-> exists l, x ∈ l /\ l ∈ ls.
Proof.
  induction ls as [|l0 ls IH]; cbn [concat].
  - split; [by intros ?%elem_of_nil|]. by intros (l & _ & ?%elem_of_nil).
  - rewrite elem_of_app, IH. split.
    + intros [H|(l & H1 & H2)]; [exists l0; split; [done | by left]|].
      exists l. split; [done | by right].
    + intros (l & H1 & [->|H2]%elem_of_cons); [by left|]. right. by exists l.
Qed.

Lemma hash_insert_sound e w node :
  table_ok e -> table_sound (hash_table e) ->
  table_sound (hash_table (hash_insert e w node)).
Proof.
  intros Hok Hs. unfold hash_insert.
  destruct (bucket_search (bucket e (hash_func w)) w) as [p|] eqn:Hb; [done|].
  cbn [set_hash_table hash_table]. intros i b Hi.
  pose proof (hash_func_range w) as Hr. unfold table_ok in Hok.
  destruct (decide (i = Z.to_nat (hash_func w))) as [->|Hne].
  - rewrite list_lookup_insert_eq in Hi by lia. injection Hi as <-.
    destruct (lookup_lt_is_Some_2 (hash_table e) (Z.to_nat (hash_func w)))
      as [b0 Hb0]; [lia|].
    destruct (Hs _ _ Hb0) as [Hnd Hall].
    assert (Hbk : bucket e (hash_func w) = b0) by (unfold bucket; by rewrite Hb0).
    rewrite Hbk in *. apply bucket_search_None in Hb. split.
    + cbn [map word]. by constructor.
    + by constructor.
  - rewrite list_lookup_insert_ne in Hi by done. by apply Hs.
Qed.

Lemma index_word_sound e token d :
  table_ok e -> table_sound (hash_table e) ->
  table_ok (index_word e token d) /\ table_sound (hash_table (index_word e token d)).
Proof.
  intros Hok Hs. unfold index_word.
  destruct (length _ <? 2)%nat; [done|].
  destruct (trie_insert _ _ _ _) as [h node].
  split; [by apply hash_insert_table_ok | by apply hash_insert_sound].
Qed.

Lemma index_tokens_sound d tokens : forall e c0,
  table_ok e -> table_sound (hash_table e) ->
  let r := fold_left (fun '(e, word_count) token =>
                        (index_word e token d, word_count + 1))
                     tokens (e, c0) in
  table_ok r.1 /\ table_sound (hash_table r.1).
Proof.
  induction tokens as [|t tokens IH]; intros e c0 Hok Hs; [done|].
  cbn [fold_left]. destruct (index_word_sound e t d Hok Hs) as [Hok' Hs'].
  by apply IH.
Qed.

Lemma reachable_table_sound e :
  reachable e -> table_ok e /\ table_sound (hash_table e).
Proof.
  induction 1 as [|e name text _ [Hok Hs]].
  - split; [exact (inv_table _ _ _ create_search_engine_inv)|].
    intros i b Hb. cbn [create_search_engine hash_table] in Hb.
    apply lookup_replicate in Hb as [-> _]. split; constructor.
  - unfold index_text, index_tokens.
    pose proof (index_tokens_sound (doc_count (add_document e name) - 1)
                  (tokenize text) (add_document e name) 0 Hok Hs) as H.
    cbn zeta in H.
    destruct (fold_left _ (tokenize text) (add_document e name, 0)) as [e2 wc].
    exact H.
Qed.

Lemma concat_buckets_nodup t : forall k,
  (forall i b, t !! i = Some b ->
     NoDup (map word b)
     /\ Forall (fun entry => Z.to_nat (hash_func (word entry)) = (k + i)%nat) b) ->
  NoDup (map word (concat t)).
Proof.
  induction t as [|b t IH]; intros k Hs; [constructor|].
  cbn [concat]. rewrite map_app. apply NoDup_app.
  destruct (Hs 0%nat b eq_refl) as [Hnd Hall]. split; [done|]. split.
  - intros w Hw Hw'.
    apply list_elem_of_fmap in Hw as (x & -> & Hx).
    apply list_elem_of_fmap in Hw' as (y & Heq & Hy).
    apply elem_of_concat in Hy as (b' & Hy & Hb').
    apply list_elem_of_lookup in Hb' as (j & Hj).
    destruct (Hs (S j) b' Hj) as [_ Hall'].
    pose proof (Forall_elem Hall Hx) as H1. pose proof (Forall_elem Hall' Hy) as H2.
    cbn beta in H1, H2. rewrite Heq in H1. lia.
  - apply (IH (S k)). intros i b' Hi. destruct (Hs (S i) b' Hi) as [H1 H2].
    split; [done|]. eapply Forall_impl; [exact H2|]. intros x Hx. cbn beta in *. lia.
Qed.

Lemma buckets_of_table (t : list (list HashEntry)) :
  map (fun i : nat => default [] (t !! Z.to_nat (Z.of_nat i))) (seq 0 (length t)) = t.
Proof.
  apply list_eq. intros i. rewrite list_lookup_fmap.
  destruct (decide (i < length t)%nat) as [Hi|Hi].
  - rewrite lookup_seq_lt by done. cbn [fmap option_fmap option_map plus].
    rewrite Nat2Z.id. by destruct (lookup_lt_is_Some_2 t i Hi) as [b ->].
  - rewrite lookup_seq_ge by lia. by rewrite lookup_ge_None_2 by lia.
Qed.

(** X26: the hash table holds exactly one entry per indexed word.  In
    every reachable state the entries that [free_search_engine] frees,
    bucket after bucket, carry pairwise different words; each sits in the
    bucket of the hash of its word, and the entries are exactly the pairs
    of a word and the node that [hash_search] returns for it.  So one copy
    of each indexed word is freed, and no entry is unreachable by
    lookup. *)
Theorem X26_hash_entries e :
  reachable e ->
  exists fr,
    free_search_engine e = Some fr
    /\ NoDup (map word (freed_entries fr))
    /\ (forall w p, {| word := w; trie_node := p |} ∈ freed_entries fr
                    <-> hash_search e w = Some p)
    /\ (forall entry, entry ∈ freed_entries fr ->
          entry ∈ bucket e (hash_func (word entry))).
Proof.
  intros Hr. destruct (reachable_table_sound e Hr) as [Hok Hs].
  destruct (reachable_inv e Hr) as (L & adocs & Hinv & _).
  pose proof (inv_wf _ _ _ Hinv) as Hwf.
  destruct (free_trie_spec _ _ Hwf (length (heap e)) 0%nat [] (wf_root _ _ Hwf))
    as (l0 & Hfree & _); [lia|].
  unfold free_search_engine. rewrite (inv_root _ _ _ Hinv), Hfree.
  cbn [mbind option_bind]. eexists. split; [reflexivity|]. cbn [freed_entries].
  unfold bucket. unfold table_ok in Hok. rewrite <- Hok, buckets_of_table.
  assert (Hmem : forall entry, entry ∈ concat (hash_table e) ->
            entry ∈ default [] (hash_table e !! Z.to_nat (hash_func (word entry)))
            /\ hash_search e (word entry) = Some (trie_node entry)).
  { intros entry Hin. apply elem_of_concat in Hin as (b & Hin & Hb).
    apply list_elem_of_lookup in Hb as (i & Hi).
    destruct (Hs i b Hi) as [Hnd Hall].
    pose proof (Forall_elem Hall Hin) as Hh. cbn beta in Hh.
    unfold hash_search, bucket. rewrite Hh, Hi. cbn [default].
    split; [done | by apply bucket_search_elem]. }
  split; [|split].
  - apply (concat_buckets_nodup _ 0%nat). intros i b Hi.
    destruct (Hs i b Hi) as [H1 H2]. by split.
  - intros w p. split.
    + intros Hin. by destruct (Hmem _ Hin) as [_ H].
    + intros Hsearch. unfold hash_search, bucket in Hsearch.
      destruct (hash_table e !! Z.to_nat (hash_func w)) as [b|] eqn:Hb; [|done].
      cbn [default] in Hsearch. apply bucket_search_Some in Hsearch.
      apply elem_of_concat. exists b. split; [done|].
      by eapply list_elem_of_lookup_2.
  - intros entry Hin. by destruct (Hmem _ Hin) as [H _].
Qed.

Lemma X26_hash_entries_witness :
  reachable small_engine
  /\ exists fr, free_search_engine small_engine = Some fr
                /\ length (freed_entries fr) = 2%nat.
Proof.
  split; [exact small_engine_reachable|].
  destruct (X26_hash_entries small_engine small_engine_reachable)
    as (fr & Hfr & _).
  exists fr. split; [exact Hfr|].
  vm_compute in Hfr. by injection Hfr as <-.
Defined.

(** ** Texts with the same words *)

Lemma index_word_indexed_form e t1 t2 d :
  indexed_form t1 = indexed_form t2 -> index_word e t1 d = index_word e t2 d.
Proof.
  unfold indexed_form, index_word. generalize (MAX_WORD_LEN - 1)%nat. intros m.
  destruct (length (normalize_word (take m t1)) <? 2)%nat,
    (length (normalize_word (take m t2)) <? 2)%nat; try done.
  by intros [= ->].
Qed.

Lemma index_tokens_indexed_forms d ts1 : forall ts2 e c0,
  map indexed_form ts1 = map indexed_form ts2 ->
  fold_left (fun '(e, word_count) token => (index_word e token d, word_count + 1))
            ts1 (e, c0)
  = fold_left (fun '(e, word_count) token => (index_word e token d, word_count + 1))
              ts2 (e, c0).
Proof.
  induction ts1 as [|t1 ts1 IH]; intros [|t2 ts2] e c0 Heq; try done.
  cbn [map] in Heq. injection Heq as Ht Hts. cbn [fold_left].
  rewrite (index_word_indexed_form e t1 t2 d Ht). by apply IH.
Qed.

(** X27: indexing sees a text only through the normal forms of its
    tokens.  Two texts whose token sequences have, position by position,
    the same indexed form (the lower-cased letters of the first 99 bytes,
    or nothing when fewer than two letters remain) give the same engine
    and the same document identifier, so upper case, punctuation, digits
    and the kind of separators make no difference to any later query. *)
Theorem X27_index_text_normal_forms e name text1 text2 :
  map indexed_form (tokenize text1) = map indexed_form (tokenize text2) ->
  index_text e name text1 = index_text e name text2.
Proof.
  intros Heq. unfold index_text, index_tokens.
  by rewrite (index_tokens_indexed_forms _ _ _ _ 0 Heq).
Qed.

Lemma X27_index_text_normal_forms_witness :
  map indexed_form (tokenize (cstr "The Fox! a"))
  = map indexed_form (tokenize (cstr "the,fox 7"))
  /\ index_text create_search_engine (cstr "d") (cstr "The Fox! a")
     = index_text create_search_engine (cstr "d") (cstr "the,fox 7").
Proof.
  assert (H : map indexed_form (tokenize (cstr "The Fox! a"))
              = map indexed_form (tokenize (cstr "the,fox 7")))
    by (vm_compute; reflexivity).
  split; [exact H|].
  exact (X27_index_text_normal_forms create_search_engine (cstr "d") _ _ H).
Defined.

(** ** Size of the trie *)

Lemma nonempty_prefixes_length w : length (nonempty_prefixes w) = length w.
Proof. unfold nonempty_prefixes. by rewrite length_map, length_seq. Qed.

Lemma elem_of_nonempty_prefixes l s :
  l <> [] -> l ∈ nonempty_prefixes (l ++ s).
Proof.
  intros Hne. unfold nonempty_prefixes. apply list_elem_of_fmap.
  destruct l as [|c l]; [done|]. exists (length l). split.
  - change (S (length l)) with (length (c :: l)). by rewrite take_app_length.
  - apply elem_of_seq. rewrite length_app. cbn [length]. lia.
Qed.

Lemma length_concat_prefixes ws :
  length (concat (map nonempty_prefixes ws)) = length (concat ws).
Proof.
  induction ws as [|w ws IH]; [done|]. cbn [map concat].
  by rewrite !length_app, nonempty_prefixes_length, IH.
Qed.

Lemma indexed_form_length token w :
  indexed_form token = Some w -> (length w <= length token)%nat.
Proof.
  unfold indexed_form. generalize (MAX_WORD_LEN - 1)%nat. intros m.
  destruct (_ <? 2)%nat; [done|]. intros [= <-].
  pose proof (normalize_word_length (take m token)) as H.
  rewrite length_take in H. lia.
Qed.

Lemma length_indexed_forms_concat tokens :
  (length (concat (omap indexed_form tokens)) <= length (concat tokens))%nat.
Proof.
  induction tokens as [|t tokens IH]; [done|].
  change (omap indexed_form (t :: tokens))
    with (match indexed_form t with
          | Some n => n :: omap indexed_form tokens
          | None => omap indexed_form tokens
          end).
  cbn [concat]. rewrite length_app.
  destruct (indexed_form t) as [n|] eqn:Hn; [|lia].
  cbn [concat]. rewrite length_app.
  pose proof (indexed_form_length _ _ Hn). lia.
Qed.

Lemma strip_delims_length s : (length (strip_delims s) <= length s)%nat.
Proof.
  induction s as [|c s IH]; [done|]. cbn [strip_delims List.filter].
  destruct (negb (is_delim c)); cbn [length]; unfold strip_delims in IH; lia.
Qed.

Lemma indexed_prefixes_length inputs :
  (length (indexed_prefixes inputs) <= total_length inputs)%nat.
Proof.
  induction inputs as [|[name text] older IH]; [done|].
  cbn [indexed_prefixes total_length]. rewrite length_app, length_concat_prefixes.
  pose proof (length_indexed_forms_concat (tokenize text)) as H1.
  pose proof (strip_delims_length text) as H2.
  rewrite <- tokenize_concat in H2. lia.
Qed.

Lemma elem_of_indexed_prefixes inputs l s :
  l <> [] -> was_indexed (l ++ s) inputs -> l ∈ indexed_prefixes inputs.
Proof.
  intros Hne (name & text & token & Hin & Ht & Hf).
  induction inputs as [|[name' text'] older IH]; [by apply elem_of_nil in Hin|].
  cbn [indexed_prefixes]. apply elem_of_app.
  apply elem_of_cons in Hin as [[= <- <-]|Hin]; [left | right; by apply IH].
  apply elem_of_concat. exists (nonempty_prefixes (l ++ s)).
  split; [by apply elem_of_nonempty_prefixes|].
  apply list_elem_of_fmap. exists (l ++ s). split; [done|].
  apply list_elem_of_omap. by exists token.
Qed.

(** X28: the trie is no larger than the texts.  The number of trie
    nodes ever allocated is at most one (the root) plus the number of
    bytes of all the indexed texts: every other node is the end of a
    different nonempty prefix of an indexed word. *)
Theorem X28_trie_size inputs :
  (length (heap (engine_of inputs)) <= 1 + total_length inputs)%nat.
Proof.
  set (e := engine_of inputs).
  assert (Hr : reachable e) by (apply reachable_engine_of; by exists inputs).
  destruct (reachable_shape e Hr) as (L & Hwf & Hroot & Hlive).
  destruct (engine_of_inv inputs) as (L' & Hinv). fold e in Hinv.
  rewrite <- (wf_length _ _ Hwf).
  pose proof (wf_root _ _ Hwf) as H0. pose proof (wf_nodup _ _ Hwf) as Hnd.
  destruct L as [|l0 L]; [done|]. cbn [lookup list_lookup] in H0.
  injection H0 as ->. apply NoDup_cons in Hnd as [Hnil Hnd]. cbn [length].
  assert (Hsub : L ⊆+ indexed_prefixes inputs).
  { apply NoDup_submseteq; [done|]. intros l Hl.
    assert (Hne : l <> []) by (intros ->; done).
    apply list_elem_of_lookup in Hl as (q & Hq).
    destruct (Hlive (S q) l Hq) as [?|(t & s & nd & Ht & Hnd' & He)]; [done|].
    apply (elem_of_indexed_prefixes inputs l s Hne).
    apply indexed_corpus.
    assert (Hts : trie_search (heap e) (trie_root e) (l ++ s) = Some t).
    { rewrite Hroot. apply (trie_search_Some _ (([] : cstring) :: L) _ _ Hwf).
      split; [done|]. by exists nd. }
    rewrite <- (hash_search_trie_search _ _ _ _ Hinv) in Hts.
    by apply (inv_hash_sound _ _ _ Hinv) in Hts as [_ Hi]. }
  apply submseteq_length in Hsub.
  pose proof (indexed_prefixes_length inputs). lia.
Qed.

(** ** Input buffers *)

Lemma strncat_bound all_text line :
  strlen all_text < MAX_TEXT_LEN ->
  strlen (strncat all_text line (MAX_TEXT_LEN - strlen all_text - 1)) < MAX_TEXT_LEN.
Proof.
  unfold strncat, strlen. intros H. rewrite length_app, length_take. lia.
Qed.

Lemma read_stdin_bound fuel : forall all_text stdin,
  strlen all_text < MAX_TEXT_LEN ->
  strlen (read_stdin fuel all_text stdin) < MAX_TEXT_LEN.
Proof.
  induction fuel as [|fuel IH]; intros all_text stdin Hlen; [done|].
  cbn [read_stdin]. destruct (fgets MAX_LINE_LEN stdin) as [[line rest]|]; [|done].
  apply IH. by apply strncat_bound.
Qed.

Lemma join_args_exact args : forall text i last,
  (3 < i)%nat -> strlen text <= MAX_TEXT_LEN - 1 ->
  join_args text i (args ++ [last])
  = if strlen (text ++ spaced args) <? MAX_TEXT_LEN - 1
    then Some (take (Z.to_nat (MAX_TEXT_LEN - 1)) (text ++ spaced (args ++ [last])))
    else None.
Proof.
  assert (Hmax : 1 < MAX_TEXT_LEN) by reflexivity.
  unfold strlen.
  induction args as [|arg args IH]; intros text i last Hi Htext.
  - cbn [app join_args]. rewrite spaced_cons. cbn [spaced map concat].
    rewrite !app_nil_r.
    destruct (Nat.ltb_spec 3 i) as [_|]; [|lia].
    unfold strcat, strlen. change (cstr " ") with [" "%char]. cbn [length].
    destruct (Z.ltb_spec (Z.of_nat (length text) + Z.of_nat 1) MAX_TEXT_LEN)
      as [Hfit|Hfull];
      destruct (Z.ltb_spec (Z.of_nat (length text)) (MAX_TEXT_LEN - 1))
        as [Hfit'|Hfull']; try lia; [|done].
    cbn [mbind option_bind]. unfold strncat, strlen. f_equal.
    replace (text ++ " "%char :: last) with ((text ++ [" "%char]) ++ last)
      by (by rewrite <- app_assoc).
    rewrite take_app, (take_ge (text ++ _)) by (rewrite length_app; cbn [length]; lia).
    do 2 f_equal. rewrite length_app. cbn [length]. lia.
  - cbn [app join_args]. destruct (Nat.ltb_spec 3 i) as [_|]; [|lia].
    rewrite !spaced_cons. unfold strcat, strlen. change (cstr " ") with [" "%char].
    cbn [length].
    destruct (Z.ltb_spec (Z.of_nat (length text) + Z.of_nat 1) MAX_TEXT_LEN)
      as [Hfit|Hfull].
    + cbn [mbind option_bind]. unfold strncat, strlen.
      rewrite IH;
        [|lia|rewrite !length_app, length_take; cbn [length]; lia].
      destruct (decide (Z.of_nat (length text) + 1 + Z.of_nat (length arg)
                        <= MAX_TEXT_LEN - 1)) as [Hle|Hgt].
      * rewrite take_ge by (rewrite length_app; cbn [length]; lia).
        replace (((text ++ [" "%char]) ++ arg) ++ spaced args)
          with (text ++ " "%char :: arg ++ spaced args)
          by (by rewrite <- !app_assoc).
        replace (((text ++ [" "%char]) ++ arg) ++ spaced (args ++ [last]))
          with (text ++ " "%char :: arg ++ spaced (args ++ [last]))
          by (by rewrite <- !app_assoc).
        done.
      * rewrite (proj2 (Z.ltb_ge _ (MAX_TEXT_LEN - 1)))
          by (rewrite !length_app, length_take; cbn [length]; lia).
        rewrite (proj2 (Z.ltb_ge _ (MAX_TEXT_LEN - 1))); [done|].
        rewrite length_app. cbn [length]. rewrite length_app. lia.
    + cbn [mbind option_bind].
      rewrite (proj2 (Z.ltb_ge _ (MAX_TEXT_LEN - 1))); [done|].
      rewrite length_app. cbn [length]. lia.
Qed.

Lemma join_args_one arg :
  join_args [] 3 [arg] = Some (take (Z.to_nat (MAX_TEXT_LEN - 1)) arg).
Proof.
  cbn [join_args]. destruct (Nat.ltb_spec 3 3) as [|_]; [lia|].
  cbn [mbind option_bind]. unfold strncat, strlen. cbn [app length].
  do 2 f_equal. 
Qed.

Lemma join_args_many arg args last :
  join_args [] 3 (arg :: args ++ [last])
  = if strlen (arg ++ spaced args) <? MAX_TEXT_LEN - 1
    then Some (take (Z.to_nat (MAX_TEXT_LEN - 1)) (arg ++ spaced (args ++ [last])))
    else None.
Proof.
  assert (Hmax : 1 < MAX_TEXT_LEN) by reflexivity.
  cbn [join_args]. destruct (Nat.ltb_spec 3 3) as [|_]; [lia|].
  cbn [mbind option_bind]. unfold strncat. 
  replace (MAX_TEXT_LEN - strlen [] - 1) with (MAX_TEXT_LEN - 1) by (unfold strlen; cbn [length]; lia).
  cbn [app].
  rewrite join_args_exact; [|lia|unfold strlen; rewrite length_take; lia].
  unfold strlen.
  destruct (decide (Z.of_nat (length arg) <= MAX_TEXT_LEN - 1)) as [Hle|Hgt].
  - by rewrite take_ge by lia.
  - rewrite (proj2 (Z.ltb_ge _ (MAX_TEXT_LEN - 1)))
      by (rewrite length_app, length_take; lia).
    rewrite (proj2 (Z.ltb_ge _ (MAX_TEXT_LEN - 1))); [done|].
    rewrite length_app. lia.
Qed.

(** X29: the text buffers of searchCLI.  Whatever the standard input
    holds, the text collected by the [fgets] / [strncat] loop is shorter
    than [MAX_TEXT_LEN] after any number of iterations, so that it fits
    [all_text] with its terminator.  The loop that joins the arguments of
    [index_text] keeps the first 65535 bytes of a single argument.  With
    more arguments it overruns [text] exactly when the arguments before the
    last one, joined by single spaces, fill 65535 bytes or more: the
    [strcat] of the next space then writes the terminator past the end of
    the buffer.  Otherwise it yields the first 65535 bytes of all the
    arguments joined by single spaces. *)
Theorem X29_text_buffers stdin arg args last :
  (forall fuel, strlen (read_stdin fuel [] stdin) < MAX_TEXT_LEN)
  /\ join_args [] 3 [arg] = Some (take (Z.to_nat (MAX_TEXT_LEN - 1)) arg)
  /\ join_args [] 3 (arg :: args ++ [last])
     = if strlen (arg ++ spaced args) <? MAX_TEXT_LEN - 1
       then Some (take (Z.to_nat (MAX_TEXT_LEN - 1))
                    (arg ++ spaced (args ++ [last])))
       else None.
Proof.
  split; [|split].
  - intros fuel. by apply read_stdin_bound.
  - apply join_args_one.
  - apply join_args_many.
Qed.
